(** * amcharts4: time rounding and the word-cloud layout, embedded and verified

    A shallow embedding of two source files of the charting library:

    - [core/utils/Time.ts]: [round], which snaps a JavaScript [Date] to the
      start of a time unit by calling the [Date] UTC accessors; [add],
      [copy], [checkChange], [getNextUnit] and [getDuration];
    - [plugins/wordCloud/WordCloudSeries.ts]: [getWords] (tokenising and
      counting) with [isCapitalized], [validate] and [processItem] (the
      greedy, raster based placement of one word per timer callback).

    JavaScript numbers are idealised: time values, pixel coordinates and
    counts are integers ([Z], [nat]); font sizes and data values are exact
    rationals extended with the IEEE specials (type [num] below), so that
    division by zero and [NaN] comparisons behave as in the source.  Rounding
    error of binary floating point is outside the model. *)

From Stdlib Require Import ZArith QArith Qround Qabs Lia Lqa Bool Ascii.
From Stdlib Require Import Sorting.Sorted Sorting.Permutation.
From stdpp Require Import base option list gmap strings.

#[local] Open Scope Z_scope.

(** ** Part I: [core/utils/Time.ts] *)

Module Time.

(** [TimeUnit] of [core/defs/TimeUnit]: the string union. *)
Inductive TimeUnit : Set :=
| millisecond | second | minute | hour | day | week | month | year.

(** A JavaScript number that is an integer, or [NaN] ([None]). *)
Abbreviation number := (option Z).

(** *** The platform: ECMA-262 [Date] abstract operations (UTC only)

    [Time.ts] is written against the built-in [Date].  The operations below
    transcribe the arithmetic of ECMA-262, section "Date Objects"; a time
    value is the number of milliseconds since the epoch. *)

Definition msPerSecond : Z := 1000.
Definition msPerMinute : Z := 60000.
Definition msPerHour : Z := 3600000.
Definition msPerDay : Z := 86400000.

Definition Day (t : Z) : Z := t / msPerDay.
Definition TimeWithinDay (t : Z) : Z := t mod msPerDay.

Definition DaysInYear (y : Z) : Z :=
  if negb (y mod 4 =? 0) then 365
  else if negb (y mod 100 =? 0) then 366
  else if negb (y mod 400 =? 0) then 365
  else 366.

Definition DayFromYear (y : Z) : Z :=
  365 * (y - 1970) + (y - 1969) / 4 - (y - 1901) / 100 + (y - 1601) / 400.

(** ECMA-262 defines [YearFromTime t] as the largest [y] with
    [TimeFromYear y <= t].  The executable form estimates the year from the
    mean Gregorian year (146097 days per 400 years) and corrects by one;
    [YearFromDay_spec] below proves that it is that largest [y]. *)
Definition YearFromDay (d : Z) : Z :=
  let y := 1970 + (400 * d) / 146097 in
  if d <? DayFromYear y then y - 1
  else if DayFromYear (y + 1) <=? d then y + 1
  else y.

Definition YearFromTime (t : Z) : Z := YearFromDay (Day t).

Definition leapOfYear (y : Z) : Z := if DaysInYear y =? 366 then 1 else 0.
Definition InLeapYear (t : Z) : Z := leapOfYear (YearFromTime t).
Definition DayWithinYear (t : Z) : Z := Day t - DayFromYear (YearFromTime t).

Definition MonthFromTime (t : Z) : Z :=
  let d := DayWithinYear t in
  let l := InLeapYear t in
  if d <? 31 then 0
  else if d <? 59 + l then 1
  else if d <? 90 + l then 2
  else if d <? 120 + l then 3
  else if d <? 151 + l then 4
  else if d <? 181 + l then 5
  else if d <? 212 + l then 6
  else if d <? 243 + l then 7
  else if d <? 273 + l then 8
  else if d <? 304 + l then 9
  else if d <? 334 + l then 10
  else 11.

Definition DateFromTime (t : Z) : Z :=
  let d := DayWithinYear t in
  let l := InLeapYear t in
  match MonthFromTime t with
  | 0 => d + 1
  | 1 => d - 30
  | 2 => d - 58 - l
  | 3 => d - 89 - l
  | 4 => d - 119 - l
  | 5 => d - 150 - l
  | 6 => d - 180 - l
  | 7 => d - 211 - l
  | 8 => d - 242 - l
  | 9 => d - 272 - l
  | 10 => d - 303 - l
  | _ => d - 333 - l
  end.

Definition WeekDay (t : Z) : Z := (Day t + 4) mod 7.
Definition HourFromTime (t : Z) : Z := (t / msPerHour) mod 24.
Definition MinFromTime (t : Z) : Z := (t / msPerMinute) mod 60.
Definition SecFromTime (t : Z) : Z := (t / msPerSecond) mod 60.
Definition msFromTime (t : Z) : Z := t mod msPerSecond.

Definition MakeTime (hour min sec ms : Z) : Z :=
  hour * msPerHour + min * msPerMinute + sec * msPerSecond + ms.

(** Number of days of the year that precede month [mn] (0 to 11). *)
Definition daysBeforeMonth (mn l : Z) : Z :=
  match mn with
  | 0 => 0
  | 1 => 31
  | 2 => 59 + l
  | 3 => 90 + l
  | 4 => 120 + l
  | 5 => 151 + l
  | 6 => 181 + l
  | 7 => 212 + l
  | 8 => 243 + l
  | 9 => 273 + l
  | 10 => 304 + l
  | _ => 334 + l
  end.

(** [MakeDay]: the day number of the first of month [mn] of year [ym], plus
    [date - 1]; months outside 0..11 carry into the year. *)
Definition MakeDay (year month date : Z) : Z :=
  let ym := year + month / 12 in
  let mn := month mod 12 in
  DayFromYear ym + daysBeforeMonth mn (leapOfYear ym) + date - 1.

Definition MakeDate (day time : Z) : Z := day * msPerDay + time.

Definition TimeClip (time : Z) : number :=
  if Z.abs time >? 8640000000000000 then None else Some time.

(** *** [Date] objects on the heap

    A [Date] is a mutable object; [round] receives a reference.  The heap maps
    references to the [[DateValue]] slot of each [Date]. *)

Abbreviation ref := positive.
Abbreviation heap := (gmap positive (option Z)).

Definition thisTimeValue (h : heap) (d : ref) : number := mjoin (h !! d).

(** Writing the slot of an existing object never extends the heap. *)
Definition setTimeValue (h : heap) (d : ref) (v : number) : heap :=
  alter (fun _ => v) d h.

Definition getTime (h : heap) (d : ref) : number := thisTimeValue h d.
Definition getUTCFullYear (h : heap) (d : ref) : number := YearFromTime <$> thisTimeValue h d.
Definition getUTCMonth (h : heap) (d : ref) : number := MonthFromTime <$> thisTimeValue h d.
Definition getUTCDate (h : heap) (d : ref) : number := DateFromTime <$> thisTimeValue h d.
Definition getUTCDay (h : heap) (d : ref) : number := WeekDay <$> thisTimeValue h d.
Definition getUTCHours (h : heap) (d : ref) : number := HourFromTime <$> thisTimeValue h d.
Definition getUTCMinutes (h : heap) (d : ref) : number := MinFromTime <$> thisTimeValue h d.
Definition getUTCSeconds (h : heap) (d : ref) : number := SecFromTime <$> thisTimeValue h d.
Definition getUTCMilliseconds (h : heap) (d : ref) : number := msFromTime <$> thisTimeValue h d.

Definition setUTCMilliseconds (h : heap) (d : ref) (ms : number) : heap :=
  setTimeValue h d
    (t ← thisTimeValue h d; ms ← ms;
     TimeClip (MakeDate (Day t)
       (MakeTime (HourFromTime t) (MinFromTime t) (SecFromTime t) ms))).

Definition setUTCSeconds (h : heap) (d : ref) (sec ms : number) : heap :=
  setTimeValue h d
    (t ← thisTimeValue h d; s ← sec; ms ← ms;
     TimeClip (MakeDate (Day t) (MakeTime (HourFromTime t) (MinFromTime t) s ms))).

Definition setUTCMinutes (h : heap) (d : ref) (min sec ms : number) : heap :=
  setTimeValue h d
    (t ← thisTimeValue h d; m ← min; s ← sec; ms ← ms;
     TimeClip (MakeDate (Day t) (MakeTime (HourFromTime t) m s ms))).

Definition setUTCHours (h : heap) (d : ref) (hour min sec ms : number) : heap :=
  setTimeValue h d
    (t ← thisTimeValue h d; hr ← hour; m ← min; s ← sec; ms ← ms;
     TimeClip (MakeDate (Day t) (MakeTime hr m s ms))).

Definition setUTCDate (h : heap) (d : ref) (date : number) : heap :=
  setTimeValue h d
    (t ← thisTimeValue h d; dt ← date;
     TimeClip (MakeDate (MakeDay (YearFromTime t) (MonthFromTime t) dt)
                        (TimeWithinDay t))).

Definition setUTCMonth (h : heap) (d : ref) (month date : number) : heap :=
  setTimeValue h d
    (t ← thisTimeValue h d; m ← month; dt ← date;
     TimeClip (MakeDate (MakeDay (YearFromTime t) m dt) (TimeWithinDay t))).

(** [setUTCFullYear] reads an invalid date as time value 0. *)
Definition setUTCFullYear (h : heap) (d : ref) (year month date : number) : heap :=
  setTimeValue h d
    (let t := default 0 (thisTimeValue h d) in
     y ← year; m ← month; dt ← date;
     TimeClip (MakeDate (MakeDay y m dt) (TimeWithinDay t))).

(** [new Date(v)]: the one operation that allocates. *)
Definition newDate (h : heap) (v : number) : heap * ref :=
  let l := fresh (dom h) in (<[l := v ≫= TimeClip]> h, l).

(** *** [Time.ts] *)

(** [copy]: [return new Date(date.getTime())]. *)
Definition copy (h : heap) (date : ref) : heap * ref :=
  newDate h (getTime h date).

(** [Math.floor(x / count) * count] on integers; a zero [count] yields
    [NaN]. *)
Definition floorTo (x : number) (count : Z) : number :=
  x ← x; if count =? 0 then None else Some (x / count * count).

(** [round(date, unit, count, firstDateOfWeek?)].  [count] and
    [firstDateOfWeek] are [None] when not a number ([$type.isNumber] fails). *)
Definition round (h : heap) (date : ref) (unit : TimeUnit)
    (count firstDateOfWeek : number) : heap * ref :=
  let count := default 1 count in
  match unit with
  | day =>
      let day := getUTCDate h date in
      let day := if count >? 1 then floorTo day count else day in
      let h := setUTCDate h date day in
      let h := setUTCHours h date (Some 0) (Some 0) (Some 0) (Some 0) in
      (h, date)
  | second =>
      let seconds := getUTCSeconds h date in
      let seconds := if count >? 1 then floorTo seconds count else seconds in
      let h := setUTCSeconds h date seconds (Some 0) in
      (h, date)
  | millisecond =>
      if count =? 1 then (h, date)
      else
        let milliseconds := getUTCMilliseconds h date in
        let milliseconds := floorTo milliseconds count in
        let h := setUTCMilliseconds h date milliseconds in
        (h, date)
  | hour =>
      let hours := getUTCHours h date in
      let hours := if count >? 1 then floorTo hours count else hours in
      let h := setUTCHours h date hours (Some 0) (Some 0) (Some 0) in
      (h, date)
  | minute =>
      let minutes := getUTCMinutes h date in
      (* [milliseconds = date.getUTCMilliseconds()] is a dead store *)
      let minutes := if count >? 1 then floorTo minutes count else minutes in
      let h := setUTCMinutes h date minutes (Some 0) (Some 0) in
      (h, date)
  | month =>
      let month := getUTCMonth h date in
      let month := if count >? 1 then floorTo month count else month in
      let h := setUTCMonth h date month (Some 1) in
      let h := setUTCHours h date (Some 0) (Some 0) (Some 0) (Some 0) in
      (h, date)
  | year =>
      let year := getUTCFullYear h date in
      let year := if count >? 1 then floorTo year count else year in
      let h := setUTCFullYear h date year (Some 0) (Some 1) in
      let h := setUTCHours h date (Some 0) (Some 0) (Some 0) (Some 0) in
      (h, date)
  | week =>
      let wday := getUTCDate h date in
      let weekDay := getUTCDay h date in
      let firstDateOfWeek := default 1 firstDateOfWeek in
      let wday :=
        w ← wday; wd ← weekDay;
        if wd >=? firstDateOfWeek
        then Some (w - wd + firstDateOfWeek)
        else Some (w - (7 + wd) + firstDateOfWeek) in
      let h := setUTCDate h date wday in
      let h := setUTCHours h date (Some 0) (Some 0) (Some 0) (Some 0) in
      (h, date)
  end.

(** [timeUnitDurations]: the nominal length of each unit in milliseconds. *)
Definition timeUnitDurations (unit : TimeUnit) : Z :=
  match unit with
  | millisecond => 1
  | second => 1000
  | minute => 60000
  | hour => 3600000
  | day => 86400000
  | week => 604800000
  | month => 2592000000
  | year => 31536000000
  end.

(** [getNextUnit(unit)]; [None] is [undefined], what the bare [return] of
    the ["year"] case gives. *)
Definition getNextUnit (unit : TimeUnit) : option TimeUnit :=
  match unit with
  | year => None
  | month => Some year
  | week => Some month
  | day => Some month
  | hour => Some day
  | minute => Some hour
  | second => Some minute
  | millisecond => Some second
  end.

(** Modelled from the spec: [$type.hasValue] of [core/utils/Type], which is
    not among the sources: a value is there unless it is [null] or
    [undefined] (here: an argument left out, [None]). *)
Definition hasValue {A} (a : option A) : bool :=
  match a with
  | Some _ => true
  | None => false
  end.

(** [getDuration(unit, count?)]. *)
Definition getDuration (unit : TimeUnit) (count : option number) : number :=
  let count := if negb (hasValue count) then Some 1 else mjoin count in
  c ← count; Some (timeUnitDurations unit * c).

(** [a != b] on numbers: [NaN] differs from everything, itself included. *)
Definition number_neq (a b : number) : bool :=
  match a, b with
  | Some x, Some y => negb (x =? y)
  | _, _ => true
  end.

(** [a + b] on numbers. *)
Definition number_add (a b : number) : number := a ← a; b ← b; Some (a + b).

Section LocalTime.

(** The offset of local time from UTC at a time value, in milliseconds
    (ECMA-262 [LocalTZA(t, true)]): it is the environment's. *)
Variable LocalTZA : Z -> Z.

Definition LocalTime (t : Z) : Z := t + LocalTZA t.

Definition getFullYear (h : heap) (d : ref) : number :=
  (fun t => YearFromTime (LocalTime t)) <$> thisTimeValue h d.
Definition getMonth (h : heap) (d : ref) : number :=
  (fun t => MonthFromTime (LocalTime t)) <$> thisTimeValue h d.
Definition getDate (h : heap) (d : ref) : number :=
  (fun t => DateFromTime (LocalTime t)) <$> thisTimeValue h d.
Definition getHours (h : heap) (d : ref) : number :=
  (fun t => HourFromTime (LocalTime t)) <$> thisTimeValue h d.
Definition getMinutes (h : heap) (d : ref) : number :=
  (fun t => MinFromTime (LocalTime t)) <$> thisTimeValue h d.
Definition getSeconds (h : heap) (d : ref) : number :=
  (fun t => SecFromTime (LocalTime t)) <$> thisTimeValue h d.

(** The [switch] of [checkChange]: does the [unit] part of the two dates
    differ?  There is no case for ["week"]. *)
Definition unitChanged (h : heap) (dateOne dateTwo : ref) (unit : TimeUnit) : bool :=
  match unit with
  | year => number_neq (getFullYear h dateOne) (getFullYear h dateTwo)
  | month => number_neq (getMonth h dateOne) (getMonth h dateTwo)
  | day => number_neq (getDate h dateOne) (getDate h dateTwo)
  | hour => number_neq (getHours h dateOne) (getHours h dateTwo)
  | minute => number_neq (getMinutes h dateOne) (getMinutes h dateTwo)
  | second => number_neq (getSeconds h dateOne) (getSeconds h dateTwo)
  | millisecond => number_neq (getTime h dateOne) (getTime h dateTwo)
  | week => false
  end.

(** [checkChange(dateOne, dateTwo, unit)] calls itself on [getNextUnit(unit)];
    [fuel] bounds the depth of the calls. *)
Fixpoint checkChangeLoop (fuel : nat) (h : heap) (dateOne dateTwo : ref)
    (unit : TimeUnit) : option bool :=
  match fuel with
  | O => None
  | S fuel =>
      if unitChanged h dateOne dateTwo unit then Some true
      else
        match getNextUnit unit with
        | Some nextUnit => checkChangeLoop fuel h dateOne dateTwo nextUnit
        | None => Some false
        end
  end.

(** Eight calls are enough, there being eight units ([checkChange_total]). *)
Definition checkChange (h : heap) (dateOne dateTwo : ref) (unit : TimeUnit) : option bool :=
  checkChangeLoop 8 h dateOne dateTwo unit.

End LocalTime.

(** The setters called with their first argument only: ECMA-262 takes the
    arguments left out from the time value of the date. *)
Definition setUTCSeconds_sec (h : heap) (d : ref) (sec : number) : heap :=
  setUTCSeconds h d sec (getUTCMilliseconds h d).
Definition setUTCMinutes_min (h : heap) (d : ref) (min : number) : heap :=
  setUTCMinutes h d min (getUTCSeconds h d) (getUTCMilliseconds h d).
Definition setUTCHours_hour (h : heap) (d : ref) (hour : number) : heap :=
  setUTCHours h d hour (getUTCMinutes h d) (getUTCSeconds h d) (getUTCMilliseconds h d).
Definition setUTCMonth_month (h : heap) (d : ref) (month : number) : heap :=
  setUTCMonth h d month (getUTCDate h d).
Definition setUTCFullYear_year (h : heap) (d : ref) (year : number) : heap :=
  let t := default 0 (thisTimeValue h d) in
  setUTCFullYear h d year (Some (MonthFromTime t)) (Some (DateFromTime t)).

(** [add(date, unit, count)]. *)
Definition add (h : heap) (date : ref) (unit : TimeUnit) (count : number) : heap * ref :=
  match unit with
  | day =>
      let day := getUTCDate h date in
      (setUTCDate h date (number_add day count), date)
  | second =>
      let seconds := getUTCSeconds h date in
      (setUTCSeconds_sec h date (number_add seconds count), date)
  | millisecond =>
      let milliseconds := getUTCMilliseconds h date in
      (setUTCMilliseconds h date (number_add milliseconds count), date)
  | hour =>
      let hours := getUTCHours h date in
      (setUTCHours_hour h date (number_add hours count), date)
  | minute =>
      let minutes := getUTCMinutes h date in
      (setUTCMinutes_min h date (number_add minutes count), date)
  | year =>
      let year := getUTCFullYear h date in
      (setUTCFullYear_year h date (number_add year count), date)
  | month =>
      let month := getUTCMonth h date in
      (setUTCMonth_month h date (number_add month count), date)
  | week =>
      let wday := getUTCDate h date in
      (setUTCDate h date (number_add wday ((fun c => c * 7) <$> count)), date)
  end.

(** *** Facts about the calendar arithmetic *)

Lemma DayFromYear_succ y : DayFromYear (y + 1) = DayFromYear y + DaysInYear y.
Proof.
  unfold DayFromYear, DaysInYear.
  destruct (Z.eqb_spec (y mod 4) 0), (Z.eqb_spec (y mod 100) 0),
    (Z.eqb_spec (y mod 400) 0); cbn [negb]; Z.div_mod_to_equations; lia.
Qed.

Lemma DaysInYear_cases y : DaysInYear y = 365 + leapOfYear y /\ 0 <= leapOfYear y <= 1.
Proof.
  unfold leapOfYear, DaysInYear.
  repeat match goal with |- context [negb (?a =? ?b)] =>
    destruct (Z.eqb_spec a b); cbn [negb] end; cbn; lia.
Qed.

Lemma DayFromYear_mono y y' : y <= y' -> DayFromYear y <= DayFromYear y'.
Proof. unfold DayFromYear. intros. Z.div_mod_to_equations. lia. Qed.

(** [YearFromDay d] is the year whose day range contains [d] ... *)
Lemma YearFromDay_spec d :
  DayFromYear (YearFromDay d) <= d < DayFromYear (YearFromDay d + 1).
Proof.
  unfold YearFromDay.
  set (y := 1970 + 400 * d / 146097).
  destruct (Z.ltb_spec d (DayFromYear y)) as [Hlt|Hge].
  - replace (y - 1 + 1) with y by lia. split; [|lia].
    unfold DayFromYear in *. subst y. Z.div_mod_to_equations. lia.
  - destruct (Z.leb_spec (DayFromYear (y + 1)) d) as [Hle|Hgt]; [|lia].
    split; [lia|]. unfold DayFromYear in *. subst y. Z.div_mod_to_equations. lia.
Qed.

(** ... and the only such year: it is ECMA-262's "largest [y] with
    [DayFromYear y <= d]". *)
Lemma YearFromDay_unique d y :
  DayFromYear y <= d < DayFromYear (y + 1) -> YearFromDay d = y.
Proof.
  intros [Hlo Hhi]. pose proof (YearFromDay_spec d) as [Slo Shi].
  destruct (Z.lt_trichotomy (YearFromDay d) y) as [Hlt|[Heq|Hgt]]; [|done|].
  - pose proof (DayFromYear_mono (YearFromDay d + 1) y ltac:(lia)). lia.
  - pose proof (DayFromYear_mono (y + 1) (YearFromDay d) ltac:(lia)). lia.
Qed.

Lemma YearFromDay_largest d y : DayFromYear y <= d -> y <= YearFromDay d.
Proof.
  intros Hy. pose proof (YearFromDay_spec d) as [_ Shi].
  destruct (Z.le_gt_cases y (YearFromDay d)) as [|Hgt]; [done|].
  pose proof (DayFromYear_mono (YearFromDay d + 1) y ltac:(lia)). lia.
Qed.

Lemma DayWithinYear_range t :
  0 <= DayWithinYear t < 365 + InLeapYear t /\ 0 <= InLeapYear t <= 1.
Proof.
  unfold DayWithinYear, InLeapYear, YearFromTime.
  pose proof (YearFromDay_spec (Day t)) as [Hlo Hhi].
  rewrite DayFromYear_succ in Hhi.
  pose proof (DaysInYear_cases (YearFromDay (Day t))). lia.
Qed.

Lemma MonthFromTime_range t : 0 <= MonthFromTime t <= 11.
Proof.
  unfold MonthFromTime.
  repeat match goal with |- context [?a <? ?b] => destruct (a <? b) end; lia.
Qed.

(** The day a month starts on plus the day of the month gives back the day
    within the year. *)
Lemma daysBeforeMonth_DateFromTime t :
  daysBeforeMonth (MonthFromTime t) (InLeapYear t) + DateFromTime t - 1
  = DayWithinYear t.
Proof.
  unfold DateFromTime, MonthFromTime.
  set (d := DayWithinYear t). set (l := InLeapYear t).
  repeat match goal with |- context [?a <? ?b] => destruct (a <? b) end;
    cbn [daysBeforeMonth]; lia.
Qed.

Lemma MakeDay_this_month t dt :
  MakeDay (YearFromTime t) (MonthFromTime t) dt = Day t - DateFromTime t + dt.
Proof.
  unfold MakeDay. pose proof (MonthFromTime_range t) as Hm.
  rewrite (Z.div_small (MonthFromTime t) 12), (Z.mod_small (MonthFromTime t) 12),
    Z.add_0_r by lia.
  pose proof (daysBeforeMonth_DateFromTime t) as Hd.
  unfold InLeapYear, DayWithinYear in Hd. lia.
Qed.

Lemma MakeDate_Day_TimeWithinDay t : MakeDate (Day t) (TimeWithinDay t) = t.
Proof. unfold MakeDate, Day, TimeWithinDay, msPerDay. Z.div_mod_to_equations. lia. Qed.

Lemma Day_MakeDate d tm : 0 <= tm < msPerDay -> Day (MakeDate d tm) = d.
Proof. unfold MakeDate, Day, msPerDay. intros. Z.div_mod_to_equations. lia. Qed.

Lemma TimeWithinDay_MakeDate d tm :
  0 <= tm < msPerDay -> TimeWithinDay (MakeDate d tm) = tm.
Proof. unfold MakeDate, TimeWithinDay, msPerDay. intros. Z.div_mod_to_equations. lia. Qed.

Lemma TimeClip_Some t v : TimeClip t = Some v -> v = t /\ TimeClip v = Some v.
Proof.
  unfold TimeClip. destruct (Z.abs t >? 8640000000000000) eqn:E; [done|].
  intros [= <-]. by rewrite E.
Qed.

(** Start of a day: year, month and date are read off the day number. *)
Lemma YearFromTime_day_start d : YearFromTime (MakeDate d 0) = YearFromDay d.
Proof. unfold YearFromTime. by rewrite Day_MakeDate by (unfold msPerDay; lia). Qed.

Lemma first_of_month y mn :
  0 <= mn <= 11 ->
  let t := MakeDate (MakeDay y mn 1) 0 in
  YearFromTime t = y /\ MonthFromTime t = mn /\ DateFromTime t = 1.
Proof.
  intros Hmn t.
  assert (Hday : Day t = DayFromYear y + daysBeforeMonth mn (leapOfYear y)).
  { unfold t. rewrite Day_MakeDate by (unfold msPerDay; lia). unfold MakeDay.
    rewrite (Z.div_small mn 12), (Z.mod_small mn 12), Z.add_0_r by lia. lia. }
  pose proof (DaysInYear_cases y) as [Hdiy Hl].
  assert (Hb : 0 <= daysBeforeMonth mn (leapOfYear y) < 365 + leapOfYear y).
  { assert (mn = 0 \/ mn = 1 \/ mn = 2 \/ mn = 3 \/ mn = 4 \/ mn = 5 \/ mn = 6 \/
            mn = 7 \/ mn = 8 \/ mn = 9 \/ mn = 10 \/ mn = 11) as Hc by lia.
    repeat destruct Hc as [->|Hc]; try subst mn; cbn [daysBeforeMonth]; lia. }
  assert (Hy : YearFromTime t = y).
  { unfold YearFromTime. apply YearFromDay_unique. rewrite DayFromYear_succ. lia. }
  assert (Hw : DayWithinYear t = daysBeforeMonth mn (leapOfYear y)).
  { unfold DayWithinYear. rewrite Hy. lia. }
  assert (Hm : MonthFromTime t = mn).
  { unfold MonthFromTime, InLeapYear. rewrite Hw, Hy.
    assert (mn = 0 \/ mn = 1 \/ mn = 2 \/ mn = 3 \/ mn = 4 \/ mn = 5 \/ mn = 6 \/
            mn = 7 \/ mn = 8 \/ mn = 9 \/ mn = 10 \/ mn = 11) as Hc by lia.
    repeat destruct Hc as [->|Hc]; try subst mn; cbn [daysBeforeMonth];
      repeat match goal with |- context [?a <? ?b] =>
        destruct (Z.ltb_spec a b); try lia end. }
  split; [done|]. split; [done|].
  pose proof (daysBeforeMonth_DateFromTime t) as Hd.
  rewrite Hm, Hw in Hd. unfold InLeapYear in Hd. rewrite Hy in Hd. lia.
Qed.

(** *** [round] with count 1, seen on the time value *)

(** The time value that [round _ _ unit 1] leaves in the [Date], as a
    function of the one it finds there. *)
Definition roundValue (unit : TimeUnit) (x : number) : number :=
  let midnight (x : number) : number :=
    t ← x; TimeClip (MakeDate (Day t) (MakeTime 0 0 0 0)) in
  match unit with
  | millisecond => x
  | second =>
      t ← x; TimeClip (MakeDate (Day t)
        (MakeTime (HourFromTime t) (MinFromTime t) (SecFromTime t) 0))
  | minute =>
      t ← x; TimeClip (MakeDate (Day t) (MakeTime (HourFromTime t) (MinFromTime t) 0 0))
  | hour =>
      t ← x; TimeClip (MakeDate (Day t) (MakeTime (HourFromTime t) 0 0 0))
  | day =>
      midnight (t ← x; TimeClip (MakeDate
        (MakeDay (YearFromTime t) (MonthFromTime t) (DateFromTime t)) (TimeWithinDay t)))
  | month =>
      midnight (t ← x; TimeClip (MakeDate
        (MakeDay (YearFromTime t) (MonthFromTime t) 1) (TimeWithinDay t)))
  | year =>
      midnight (t ← x; TimeClip (MakeDate
        (MakeDay (YearFromTime t) 0 1) (TimeWithinDay t)))
  | week =>
      midnight (t ← x; TimeClip (MakeDate
        (MakeDay (YearFromTime t) (MonthFromTime t)
           (if WeekDay t >=? 1 then DateFromTime t - WeekDay t + 1
            else DateFromTime t - (7 + WeekDay t) + 1))
        (TimeWithinDay t)))
  end.

Lemma setTimeValue_absent (h : heap) d v : h !! d = None -> setTimeValue h d v = h.
Proof.
  intros Hd. apply map_eq. intros i. unfold setTimeValue.
  rewrite lookup_alter. case_decide; [subst; by rewrite Hd|done].
Qed.

Lemma setTimeValue_present (h : heap) d v x :
  h !! d = Some x -> setTimeValue h d v = <[d:=v]> h.
Proof.
  intros Hd. apply map_eq. intros i. unfold setTimeValue.
  rewrite lookup_alter, lookup_insert. case_decide; [subst; by rewrite Hd|done].
Qed.

Lemma thisTimeValue_insert (h : heap) d v : thisTimeValue (<[d:=v]> h) d = v.
Proof. unfold thisTimeValue. by rewrite lookup_insert_eq. Qed.

Lemma round_absent (h : heap) d unit count f : h !! d = None -> round h d unit count f = (h, d).
Proof.
  intros Hd. unfold round, setUTCDate, setUTCHours, setUTCSeconds, setUTCMinutes,
    setUTCMilliseconds, setUTCMonth, setUTCFullYear.
  destruct unit; rewrite ?(setTimeValue_absent _ _ _ Hd); try done.
  by destruct (default 1 count =? 1); rewrite ?(setTimeValue_absent _ _ _ Hd).
Qed.

(** Both sides are the same chain of [Date] calls; normalise the option
    plumbing before comparing. *)
Ltac round_steps x :=
  destruct x as [?t|]; [|reflexivity]; unfold roundValue;
  cbn [mbind option_bind fmap option_fmap option_map default id floorTo];
  change (1 >? 1) with false; cbv iota;
  cbn [mbind option_bind fmap option_fmap option_map]; reflexivity.

Lemma round_present (h : heap) d unit x :
  h !! d = Some x ->
  round h d unit (Some 1) None = (<[d:=roundValue unit x]> h, d).
Proof.
  intros Hd.
  assert (Ht : thisTimeValue h d = x) by (unfold thisTimeValue; by rewrite Hd).
  unfold round, setUTCDate, setUTCHours, setUTCSeconds, setUTCMinutes,
    setUTCMilliseconds, setUTCMonth, setUTCFullYear, getUTCDate, getUTCDay,
    getUTCSeconds, getUTCMinutes, getUTCHours, getUTCMonth, getUTCFullYear.
  destruct unit; cbn [default Z.gtb Z.eqb Z.compare Pos.compare Pos.eqb];
    rewrite ?(setTimeValue_present _ _ _ _ Hd), ?Ht.
  - (* millisecond *) cbn. by rewrite insert_id.
  - (* second *) f_equal. f_equal. round_steps x.
  - (* minute *) f_equal. f_equal. round_steps x.
  - (* hour *) f_equal. f_equal. round_steps x.
  - (* day *)
    erewrite setTimeValue_present by apply lookup_insert_eq.
    rewrite thisTimeValue_insert, insert_insert_eq. f_equal. f_equal. round_steps x.
  - (* week *)
    erewrite setTimeValue_present by apply lookup_insert_eq.
    rewrite thisTimeValue_insert, insert_insert_eq. f_equal. f_equal.
    destruct x as [t|]; [|reflexivity]. unfold roundValue. cbn [mbind option_bind fmap option_fmap option_map].
    destruct (WeekDay t >=? 1); reflexivity.
  - (* month *)
    erewrite setTimeValue_present by apply lookup_insert_eq.
    rewrite thisTimeValue_insert, insert_insert_eq. f_equal. f_equal. round_steps x.
  - (* year *)
    erewrite setTimeValue_present by apply lookup_insert_eq.
    rewrite thisTimeValue_insert, insert_insert_eq. f_equal. f_equal. round_steps x.
Qed.

Lemma MakeTime_zero : MakeTime 0 0 0 0 = 0.
Proof. reflexivity. Qed.

(** A time value is its day, hour, minute, second and millisecond. *)
Lemma time_fields t :
  t / msPerHour = Day t * 24 + HourFromTime t /\
  t / msPerMinute = (t / msPerHour) * 60 + MinFromTime t /\
  t / msPerSecond = (t / msPerMinute) * 60 + SecFromTime t /\
  t = (t / msPerSecond) * 1000 + msFromTime t.
Proof.
  unfold Day, HourFromTime, MinFromTime, SecFromTime, msFromTime,
    msPerDay, msPerHour, msPerMinute, msPerSecond.
  replace (t / 86400000) with (t / 3600000 / 24) by (by rewrite Z.div_div by lia).
  replace (t / 3600000) with (t / 60000 / 60) by (by rewrite Z.div_div by lia).
  replace (t / 60000) with (t / 1000 / 60) by (by rewrite Z.div_div by lia).
  pose proof (Z.div_mod (t / 1000 / 60 / 60) 24 ltac:(lia)).
  pose proof (Z.div_mod (t / 1000 / 60) 60 ltac:(lia)).
  pose proof (Z.div_mod (t / 1000) 60 ltac:(lia)).
  pose proof (Z.div_mod t 1000 ltac:(lia)).
  lia.
Qed.

Lemma mod_of_fields t :
  t mod 1000 = msFromTime t /\
  t mod 60000 = SecFromTime t * 1000 + msFromTime t /\
  t mod 3600000 = MinFromTime t * 60000 + SecFromTime t * 1000 + msFromTime t.
Proof.
  pose proof (time_fields t) as (Hh & Hm & Hs & Ht).
  assert (0 <= msFromTime t < 1000) by (apply Z.mod_pos_bound; done).
  assert (0 <= SecFromTime t < 60) by (apply Z.mod_pos_bound; done).
  assert (0 <= MinFromTime t < 60) by (apply Z.mod_pos_bound; done).
  unfold msPerHour, msPerMinute, msPerSecond in *.
  split; [done|]. split.
  - symmetry. apply (Z.mod_unique_pos _ _ (t / 60000)); lia.
  - symmetry. apply (Z.mod_unique_pos _ _ (t / 3600000)); lia.
Qed.

Lemma roundValue_second t :
  roundValue second (Some t) = TimeClip (t - t mod 1000).
Proof.
  unfold roundValue. cbn [mbind option_bind]. f_equal.
  pose proof (time_fields t). pose proof (mod_of_fields t).
  unfold MakeDate, MakeTime, msPerDay, msPerHour, msPerMinute, msPerSecond in *. lia.
Qed.

Lemma roundValue_minute t :
  roundValue minute (Some t) = TimeClip (t - t mod 60000).
Proof.
  unfold roundValue. cbn [mbind option_bind]. f_equal.
  pose proof (time_fields t). pose proof (mod_of_fields t).
  unfold MakeDate, MakeTime, msPerDay, msPerHour, msPerMinute, msPerSecond in *. lia.
Qed.

Lemma roundValue_hour t :
  roundValue hour (Some t) = TimeClip (t - t mod 3600000).
Proof.
  unfold roundValue. cbn [mbind option_bind]. f_equal.
  pose proof (time_fields t). pose proof (mod_of_fields t).
  unfold MakeDate, MakeTime, msPerDay, msPerHour, msPerMinute, msPerSecond in *. lia.
Qed.

Lemma floor_clip_idempotent m t v :
  0 < m -> TimeClip (t - t mod m) = Some v -> TimeClip (v - v mod m) = Some v.
Proof.
  intros Hm Hc. apply TimeClip_Some in Hc as [-> Hc].
  replace ((t - t mod m) mod m) with 0; [by rewrite Z.sub_0_r|].
  replace (t - t mod m) with (t / m * m) by (pose proof (Z.div_mod t m); lia).
  symmetry. apply Z.mod_mul. lia.
Qed.

(** Rounding to the start of a day and beyond: the result is a midnight
    [MakeDate d 0]; what matters is that a second pass computes the same
    day number [d] from it. *)
Lemma midnight_fixed (g : Z -> Z) t v :
  (t' ← TimeClip (MakeDate (g t) (TimeWithinDay t));
   TimeClip (MakeDate (Day t') (MakeTime 0 0 0 0))) = Some v ->
  v = MakeDate (g t) 0 /\ TimeClip v = Some v.
Proof.
  destruct (TimeClip _) as [t'|] eqn:Hc; [|done]. cbn.
  apply TimeClip_Some in Hc as [-> _]. intros Hv.
  apply TimeClip_Some in Hv as [-> Hv].
  rewrite MakeTime_zero, Day_MakeDate in *; [done| |];
    unfold TimeWithinDay, msPerDay; Z.div_mod_to_equations; lia.
Qed.

Lemma midnight_again d v :
  v = MakeDate d 0 -> TimeClip v = Some v ->
  (t' ← TimeClip (MakeDate d (TimeWithinDay v));
   TimeClip (MakeDate (Day t') (MakeTime 0 0 0 0))) = Some v.
Proof.
  intros Hv Hc.
  assert (Hw : TimeWithinDay v = 0).
  { subst v. by rewrite TimeWithinDay_MakeDate by (unfold msPerDay; lia). }
  rewrite Hw, <- Hv, Hc. cbn.
  rewrite MakeTime_zero, Hv, Day_MakeDate by (unfold msPerDay; lia).
  by rewrite <- Hv.
Qed.

Lemma WeekDay_range t : 0 <= WeekDay t < 7.
Proof. unfold WeekDay. Z.div_mod_to_equations. lia. Qed.

Lemma roundValue_day t :
  roundValue day (Some t)
  = (t' ← TimeClip (MakeDate (MakeDay (YearFromTime t) (MonthFromTime t) (DateFromTime t))
                             (TimeWithinDay t));
     TimeClip (MakeDate (Day t') (MakeTime 0 0 0 0))).
Proof. reflexivity. Qed.

Lemma roundValue_week t :
  roundValue week (Some t)
  = (t' ← TimeClip (MakeDate
             (MakeDay (YearFromTime t) (MonthFromTime t)
                (if WeekDay t >=? 1 then DateFromTime t - WeekDay t + 1
                 else DateFromTime t - (7 + WeekDay t) + 1))
             (TimeWithinDay t));
     TimeClip (MakeDate (Day t') (MakeTime 0 0 0 0))).
Proof. reflexivity. Qed.

Lemma roundValue_month t :
  roundValue month (Some t)
  = (t' ← TimeClip (MakeDate (MakeDay (YearFromTime t) (MonthFromTime t) 1)
                             (TimeWithinDay t));
     TimeClip (MakeDate (Day t') (MakeTime 0 0 0 0))).
Proof. reflexivity. Qed.

Lemma roundValue_year t :
  roundValue year (Some t)
  = (t' ← TimeClip (MakeDate (MakeDay (YearFromTime t) 0 1) (TimeWithinDay t));
     TimeClip (MakeDate (Day t') (MakeTime 0 0 0 0))).
Proof. reflexivity. Qed.

Lemma roundValue_idempotent unit x :
  roundValue unit (roundValue unit x) = roundValue unit x.
Proof.
  destruct x as [t|]; [|by destruct unit].
  destruct (roundValue unit (Some t)) as [v|] eqn:Hr; [|by destruct unit].
  destruct unit.
  - (* millisecond *) done.
  - rewrite roundValue_second in *. by apply (floor_clip_idempotent 1000 t).
  - rewrite roundValue_minute in *. by apply (floor_clip_idempotent 60000 t).
  - rewrite roundValue_hour in *. by apply (floor_clip_idempotent 3600000 t).
  - (* day: the date is kept, the time of day dropped *)
    rewrite roundValue_day in *.
    apply (midnight_fixed (fun t => MakeDay (YearFromTime t) (MonthFromTime t) (DateFromTime t)))
      in Hr as [Hv Hc].
    rewrite MakeDay_this_month in *.
    apply midnight_again; [|done].
    rewrite Hv at 2. rewrite Hv, Day_MakeDate by (unfold msPerDay; lia). f_equal; lia.
  - (* week: the result is a Monday, which a second pass keeps *)
    rewrite roundValue_week in *.
    apply (midnight_fixed (fun t => MakeDay (YearFromTime t) (MonthFromTime t)
             (if WeekDay t >=? 1 then DateFromTime t - WeekDay t + 1
              else DateFromTime t - (7 + WeekDay t) + 1))) in Hr as [Hv Hc].
    rewrite MakeDay_this_month in Hv.
    assert (Hd : Day v = Day t - (if WeekDay t >=? 1 then WeekDay t - 1 else 6)).
    { rewrite Hv, Day_MakeDate by (unfold msPerDay; lia).
      pose proof (WeekDay_range t).
      destruct (Z.geb_spec (WeekDay t) 1); lia. }
    assert (Hw : WeekDay v = 1).
    { unfold WeekDay in *. rewrite Hd.
      destruct (Z.geb_spec ((Day t + 4) mod 7) 1); Z.div_mod_to_equations; lia. }
    rewrite Hw. change (1 >=? 1) with true. cbv iota.
    rewrite MakeDay_this_month. apply midnight_again; [|done].
    transitivity (MakeDate (Day v) 0).
    + rewrite Hv at 2. rewrite Day_MakeDate by (unfold msPerDay; lia). done.
    + f_equal. lia.
  - (* month: the result is the first of the same month *)
    rewrite roundValue_month in *.
    apply (midnight_fixed (fun t => MakeDay (YearFromTime t) (MonthFromTime t) 1))
      in Hr as [Hv Hc].
    pose proof (first_of_month (YearFromTime t) (MonthFromTime t)
                  (MonthFromTime_range t)) as (Hy & Hm & _).
    cbv zeta in Hy, Hm. rewrite <- Hv in Hy, Hm.
    rewrite Hy, Hm. by apply midnight_again.
  - (* year: the result is the first of January of the same year *)
    rewrite roundValue_year in *.
    apply (midnight_fixed (fun t => MakeDay (YearFromTime t) 0 1)) in Hr as [Hv Hc].
    pose proof (first_of_month (YearFromTime t) 0 ltac:(lia)) as (Hy & _ & _).
    cbv zeta in Hy. rewrite <- Hv in Hy.
    rewrite Hy. by apply midnight_again.
Qed.

(** 29 February 2020, 12:34:56.789 UTC, a Saturday. *)
Example round_leap_day :
  let h : heap := {[ 1%positive := Some 1582979696789 ]} in
  let at_ unit count := thisTimeValue (round h 1 unit count None).1 1 in
  at_ second (Some 1) = Some 1582979696000 /\
  at_ minute (Some 5) = Some 1582979400000 /\
  at_ hour (Some 1) = Some 1582977600000 /\
  at_ day (Some 1) = Some 1582934400000 /\
  at_ week (Some 1) = Some 1582502400000 /\      (* Monday 24 February *)
  at_ month (Some 1) = Some 1580515200000 /\     (* 1 February *)
  at_ year (Some 1) = Some 1577836800000 /\      (* 1 January 2020 *)
  at_ millisecond (Some 0) = None.               (* [Math.floor(ms / 0) * 0] is [NaN] *)
Proof. vm_compute. done. Qed.

(** The earliest time value, 20 April 271821 BC: the start of its month is
    out of range, so the date becomes invalid, and stays so. *)
Example round_first_day :
  let h : heap := {[ 1%positive := Some (-8640000000000000) ]} in
  (YearFromTime (-8640000000000000), MonthFromTime (-8640000000000000),
   DateFromTime (-8640000000000000)) = (-271821, 3, 20) /\
  thisTimeValue (round h 1 day (Some 1) None).1 1 = Some (-8640000000000000) /\
  thisTimeValue (round h 1 month (Some 1) None).1 1 = None.
Proof. vm_compute. done. Qed.

(** *** [round] works in place *)

Lemma setTimeValue_dom (h : heap) d v : dom (setTimeValue h d v) = dom h.
Proof. apply dom_alter_L. Qed.

Lemma setTimeValue_other (h : heap) d v d' :
  d' ≠ d -> setTimeValue h d v !! d' = h !! d'.
Proof. intros Hne. unfold setTimeValue. by rewrite lookup_alter_ne. Qed.

(** For every unit, count and first day of week, [round] returns the
    reference it was given, allocates nothing and touches no other object. *)
Lemma round_in_place (h : heap) (date : ref) unit count f :
  (round h date unit count f).2 = date /\
  dom (round h date unit count f).1 = dom h /\
  (forall d', d' ≠ date -> (round h date unit count f).1 !! d' = h !! d').
Proof.
  unfold round, setUTCDate, setUTCHours, setUTCSeconds, setUTCMinutes,
    setUTCMilliseconds, setUTCMonth, setUTCFullYear.
  destruct unit; try destruct (default 1 count =? 1); cbn [fst snd];
    (split; [done|]); (split; [by rewrite ?setTimeValue_dom|]);
    intros d' Hne; by rewrite ?setTimeValue_other.
Qed.

(** [copy], by contrast, returns a fresh reference. *)
Lemma copy_allocates (h : heap) (date : ref) :
  ((copy h date).2 ∉ dom h) /\ dom (copy h date).1 = {[(copy h date).2]} ∪ dom h.
Proof.
  unfold copy, newDate. cbn [fst snd]. split.
  - apply is_fresh.
  - by rewrite dom_insert_L.
Qed.

(** C10. [round] is idempotent for count 1: on every heap, for every [Date]
    reference and every time unit, rounding an already rounded date changes
    nothing; and [round] mutates the [Date] it is given and returns that same
    reference: no object is allocated and no other object is touched. *)
Theorem round_idempotent_in_place (h : heap) (date : ref) (unit : TimeUnit) :
  let r := round h date unit (Some 1) None in
  round r.1 r.2 unit (Some 1) None = r /\
  r.2 = date /\
  dom r.1 = dom h /\
  (forall d', d' ≠ date -> r.1 !! d' = h !! d').
Proof.
  intros r. split; [|apply round_in_place].
  subst r. destruct (h !! date) as [x|] eqn:Hd.
  - rewrite (round_present _ _ _ _ Hd). cbn [fst snd].
    erewrite round_present by apply lookup_insert_eq.
    by rewrite insert_insert_eq, roundValue_idempotent.
  - rewrite (round_absent _ _ _ _ _ Hd). cbn [fst snd].
    by rewrite round_absent.
Qed.

(** *** [getNextUnit] and [getDuration] *)

(** X1. [getNextUnit] always names a strictly longer unit, measured by
    [getDuration] with the count left out, and it has no next unit for
    ["year"] only: following it from any unit ends at ["year"]. *)
Theorem getNextUnit_longer (unit : TimeUnit) :
  match getNextUnit unit with
  | Some nextUnit =>
      exists a b, getDuration unit None = Some a /\
                  getDuration nextUnit None = Some b /\ a < b
  | None => unit = year
  end.
Proof.
  destruct unit; cbn; try done; do 2 eexists; (split; [done|]); (split; [done|]); lia.
Qed.

(** *** [checkChange] *)

(** Year, month and date are functions of the day number, and determine it. *)
Lemma calendar_of_day a b :
  Day a = Day b ->
  YearFromTime a = YearFromTime b /\ MonthFromTime a = MonthFromTime b /\
  DateFromTime a = DateFromTime b.
Proof.
  intros Hd.
  assert (Hy : YearFromTime a = YearFromTime b) by (unfold YearFromTime; by rewrite Hd).
  assert (Hl : InLeapYear a = InLeapYear b) by (unfold InLeapYear; by rewrite Hy).
  assert (Hw : DayWithinYear a = DayWithinYear b) by (unfold DayWithinYear; by rewrite Hd, Hy).
  assert (Hm : MonthFromTime a = MonthFromTime b) by (unfold MonthFromTime; by rewrite Hw, Hl).
  split; [done|]. split; [done|]. unfold DateFromTime. by rewrite Hw, Hl, Hm.
Qed.

Lemma day_of_calendar a b :
  YearFromTime a = YearFromTime b -> MonthFromTime a = MonthFromTime b ->
  DateFromTime a = DateFromTime b -> Day a = Day b.
Proof.
  intros Hy Hm Hd.
  pose proof (MakeDay_this_month a (DateFromTime a)) as Ha.
  pose proof (MakeDay_this_month b (DateFromTime b)) as Hb.
  rewrite Hy, Hm, Hd in Ha. lia.
Qed.

Lemma coarser_div a b m k : 0 < m -> 0 < k -> a / m = b / m -> a / (m * k) = b / (m * k).
Proof. intros Hm Hk Hab. by rewrite <- !Z.div_div, Hab by lia. Qed.

Lemma fields_of_second a b :
  a / msPerSecond = b / msPerSecond ->
  SecFromTime a = SecFromTime b /\ a / msPerMinute = b / msPerMinute.
Proof.
  intros Hab. split; [unfold SecFromTime; by rewrite Hab|].
  apply (coarser_div a b 1000 60); done.
Qed.

Lemma fields_of_minute a b :
  a / msPerMinute = b / msPerMinute ->
  MinFromTime a = MinFromTime b /\ a / msPerHour = b / msPerHour.
Proof.
  intros Hab. split; [unfold MinFromTime; by rewrite Hab|].
  apply (coarser_div a b 60000 60); done.
Qed.

Lemma fields_of_hour a b :
  a / msPerHour = b / msPerHour ->
  HourFromTime a = HourFromTime b /\ Day a = Day b.
Proof.
  intros Hab. split; [unfold HourFromTime; by rewrite Hab|].
  apply (coarser_div a b 3600000 24); done.
Qed.

Lemma thisTimeValue_Some (h : heap) d x : h !! d = Some x -> thisTimeValue h d = x.
Proof. intros Hd. unfold thisTimeValue. by rewrite Hd. Qed.

Section LocalFacts.

Variable LocalTZA : Z -> Z.

(** Two time values lie in the same [unit] of local time.  For ["week"]
    this is the same month: weeks are not compared. *)
Definition sameUnit (unit : TimeUnit) (t1 t2 : Z) : Prop :=
  let l1 := LocalTime LocalTZA t1 in
  let l2 := LocalTime LocalTZA t2 in
  match unit with
  | millisecond => t1 = t2
  | second => l1 / msPerSecond = l2 / msPerSecond
  | minute => l1 / msPerMinute = l2 / msPerMinute
  | hour => l1 / msPerHour = l2 / msPerHour
  | day => Day l1 = Day l2
  | week | month =>
      YearFromTime l1 = YearFromTime l2 /\ MonthFromTime l1 = MonthFromTime l2
  | year => YearFromTime l1 = YearFromTime l2
  end.

(** The recursion ends within the fuel: [checkChange] always answers. *)
Lemma checkChange_total h d1 d2 unit : is_Some (checkChange LocalTZA h d1 d2 unit).
Proof.
  unfold checkChange. destruct unit; cbn [checkChangeLoop getNextUnit];
    repeat match goal with |- context [if ?b then _ else _] => destruct b end; done.
Qed.

(** On valid dates the answer is [false] when the fields compared on the way
    up to the year all agree. *)
Lemma checkChange_fields h d1 d2 t1 t2 unit :
  thisTimeValue h d1 = Some t1 -> thisTimeValue h d2 = Some t2 ->
  let l1 := LocalTime LocalTZA t1 in
  let l2 := LocalTime LocalTZA t2 in
  let Y := YearFromTime l1 = YearFromTime l2 in
  let M := MonthFromTime l1 = MonthFromTime l2 in
  let D := DateFromTime l1 = DateFromTime l2 in
  let H := HourFromTime l1 = HourFromTime l2 in
  let Mi := MinFromTime l1 = MinFromTime l2 in
  let S := SecFromTime l1 = SecFromTime l2 in
  checkChange LocalTZA h d1 d2 unit = Some false <->
  match unit with
  | millisecond => t1 = t2 /\ S /\ Mi /\ H /\ D /\ M /\ Y
  | second => S /\ Mi /\ H /\ D /\ M /\ Y
  | minute => Mi /\ H /\ D /\ M /\ Y
  | hour => H /\ D /\ M /\ Y
  | day => D /\ M /\ Y
  | week | month => M /\ Y
  | year => Y
  end.
Proof.
  intros H1 H2. cbv zeta.
  unfold checkChange. destruct unit; cbn [checkChangeLoop getNextUnit unitChanged];
    unfold getFullYear, getMonth, getDate, getHours, getMinutes, getSeconds, getTime;
    rewrite H1, H2; cbn [fmap option_fmap option_map number_neq];
    repeat match goal with |- context [negb (?a =? ?b)] =>
      destruct (Z.eqb_spec a b); cbn [negb] end; intuition (done || lia).
Qed.

Lemma checkChange_false_iff h d1 d2 t1 t2 unit :
  thisTimeValue h d1 = Some t1 -> thisTimeValue h d2 = Some t2 ->
  checkChange LocalTZA h d1 d2 unit = Some false <-> sameUnit unit t1 t2.
Proof.
  intros H1 H2.
  rewrite (checkChange_fields h d1 d2 t1 t2 unit H1 H2). cbv zeta.
  set (l1 := LocalTime LocalTZA t1). set (l2 := LocalTime LocalTZA t2).
  pose proof (time_fields l1) as (Hh1 & Hm1 & Hs1 & _).
  pose proof (time_fields l2) as (Hh2 & Hm2 & Hs2 & _).
  assert (Hday : Day l1 = Day l2 <->
            DateFromTime l1 = DateFromTime l2 /\ MonthFromTime l1 = MonthFromTime l2 /\
            YearFromTime l1 = YearFromTime l2).
  { split; [intros (? & ? & ?)%calendar_of_day; done|].
    intros (? & ? & ?). by apply day_of_calendar. }
  assert (Hhour : l1 / msPerHour = l2 / msPerHour <->
            HourFromTime l1 = HourFromTime l2 /\ Day l1 = Day l2).
  { split; [apply fields_of_hour|]. intros [? ?]. lia. }
  assert (Hmin : l1 / msPerMinute = l2 / msPerMinute <->
            MinFromTime l1 = MinFromTime l2 /\ l1 / msPerHour = l2 / msPerHour).
  { split; [apply fields_of_minute|]. intros [? ?]. lia. }
  assert (Hsec : l1 / msPerSecond = l2 / msPerSecond <->
            SecFromTime l1 = SecFromTime l2 /\ l1 / msPerMinute = l2 / msPerMinute).
  { split; [apply fields_of_second|]. intros [? ?]. lia. }
  destruct unit; unfold sameUnit; fold l1 l2.
  - split; [by intros [? _]|]. intros ->. subst l1 l2. done.
  - rewrite Hsec, Hmin, Hhour, Hday. tauto.
  - rewrite Hmin, Hhour, Hday. tauto.
  - rewrite Hhour, Hday. tauto.
  - rewrite Hday. tauto.
  - tauto.
  - tauto.
  - tauto.
Qed.

(** X2. For two valid dates [checkChange] answers, and it answers [false]
    exactly when the two time values lie in the same [unit] of local time
    (the same second, minute, hour, calendar day, month or year; the same
    instant for ["millisecond"]); for ["week"] it compares months, not
    weeks. *)
Theorem checkChange_same_unit h d1 d2 t1 t2 unit :
  thisTimeValue h d1 = Some t1 -> thisTimeValue h d2 = Some t2 ->
  (checkChange LocalTZA h d1 d2 unit = Some false <-> sameUnit unit t1 t2) /\
  (checkChange LocalTZA h d1 d2 unit = Some true <-> ~ sameUnit unit t1 t2).
Proof.
  intros H1 H2. pose proof (checkChange_false_iff h d1 d2 t1 t2 unit H1 H2) as Hf.
  split; [done|]. rewrite <- Hf.
  destruct (checkChange_total h d1 d2 unit) as [[] Hb]; rewrite Hb; split; done || congruence.
Qed.

(** X3. An invalid date always counts as changed, against any date and for
    every unit, itself included: its parts are [NaN], and [NaN != NaN]. *)
Theorem checkChange_invalid_date h d1 d2 unit :
  thisTimeValue h d1 = None \/ thisTimeValue h d2 = None ->
  checkChange LocalTZA h d1 d2 unit = Some true.
Proof.
  intros Hnan.
  assert (Hneq : forall f g : Z -> Z,
            number_neq (f <$> thisTimeValue h d1) (g <$> thisTimeValue h d2) = true).
  { intros f g. destruct Hnan as [-> | ->]; [done|]. by destruct (thisTimeValue h d1). }
  unfold checkChange. destruct unit; cbn [checkChangeLoop getNextUnit unitChanged];
    unfold getFullYear, getMonth, getDate, getHours, getMinutes, getSeconds;
    rewrite ?Hneq; try done.
  unfold getTime. destruct Hnan as [-> | ->]; [done|]. by destruct (thisTimeValue h d1).
Qed.

End LocalFacts.

Lemma round_value h d unit x :
  h !! d = Some x ->
  thisTimeValue (round h d unit (Some 1) None).1 d = roundValue unit x.
Proof. intros Hd. rewrite (round_present _ _ _ _ Hd). apply thisTimeValue_insert. Qed.

Lemma floor_bucket a b m : 0 < m -> a - a mod m = b - b mod m <-> a / m = b / m.
Proof.
  intros Hm. pose proof (Z.div_mod a m ltac:(lia)). pose proof (Z.div_mod b m ltac:(lia)).
  split; intros; nia.
Qed.

(** Where local time is UTC, [round] with count 1 sends two time values to
    the same one exactly when they lie in the same unit. *)
Lemma roundValue_bucket unit t1 t2 v1 v2 :
  unit ≠ week ->
  roundValue unit (Some t1) = Some v1 -> roundValue unit (Some t2) = Some v2 ->
  v1 = v2 <-> sameUnit (fun _ => 0) unit t1 t2.
Proof.
  intros Hw Hr1 Hr2. unfold sameUnit, LocalTime. rewrite !Z.add_0_r.
  destruct unit; try done.
  - cbn in Hr1, Hr2. by injection Hr1 as <-; injection Hr2 as <-.
  - rewrite roundValue_second in *.
    apply TimeClip_Some in Hr1 as [-> _]. apply TimeClip_Some in Hr2 as [-> _].
    by apply floor_bucket.
  - rewrite roundValue_minute in *.
    apply TimeClip_Some in Hr1 as [-> _]. apply TimeClip_Some in Hr2 as [-> _].
    by apply floor_bucket.
  - rewrite roundValue_hour in *.
    apply TimeClip_Some in Hr1 as [-> _]. apply TimeClip_Some in Hr2 as [-> _].
    by apply floor_bucket.
  - rewrite roundValue_day in *.
    apply (midnight_fixed (fun t => MakeDay (YearFromTime t) (MonthFromTime t) (DateFromTime t)))
      in Hr1 as [-> _].
    apply (midnight_fixed (fun t => MakeDay (YearFromTime t) (MonthFromTime t) (DateFromTime t)))
      in Hr2 as [-> _].
    rewrite !MakeDay_this_month. unfold MakeDate, msPerDay. lia.
  - rewrite roundValue_month in *.
    apply (midnight_fixed (fun t => MakeDay (YearFromTime t) (MonthFromTime t) 1))
      in Hr1 as [-> _].
    apply (midnight_fixed (fun t => MakeDay (YearFromTime t) (MonthFromTime t) 1))
      in Hr2 as [-> _].
    pose proof (first_of_month (YearFromTime t1) (MonthFromTime t1)
                  (MonthFromTime_range t1)) as (Hy1 & Hm1 & _).
    pose proof (first_of_month (YearFromTime t2) (MonthFromTime t2)
                  (MonthFromTime_range t2)) as (Hy2 & Hm2 & _).
    cbv zeta in *. split.
    + intros Heq. rewrite Heq in Hy1, Hm1. split; congruence.
    + by intros [-> ->].
  - rewrite roundValue_year in *.
    apply (midnight_fixed (fun t => MakeDay (YearFromTime t) 0 1)) in Hr1 as [-> _].
    apply (midnight_fixed (fun t => MakeDay (YearFromTime t) 0 1)) in Hr2 as [-> _].
    pose proof (first_of_month (YearFromTime t1) 0 ltac:(lia)) as (Hy1 & _).
    pose proof (first_of_month (YearFromTime t2) 0 ltac:(lia)) as (Hy2 & _).
    cbv zeta in *. split.
    + intros Heq. rewrite Heq in Hy1. congruence.
    + by intros ->.
Qed.

(** X4. [checkChange] and [round] agree.  In an environment whose local time
    is UTC, for every unit but ["week"] and two valid dates whose roundings
    (count 1) are valid: [checkChange] reports a change exactly when [round]
    brings the two dates to different time values. *)
Theorem checkChange_iff_round_differs h d1 d2 t1 t2 unit v1 v2 :
  unit ≠ week ->
  h !! d1 = Some (Some t1) -> h !! d2 = Some (Some t2) ->
  thisTimeValue (round h d1 unit (Some 1) None).1 d1 = Some v1 ->
  thisTimeValue (round h d2 unit (Some 1) None).1 d2 = Some v2 ->
  checkChange (fun _ => 0) h d1 d2 unit = Some (negb (v1 =? v2)).
Proof.
  intros Hw H1 H2 Hr1 Hr2.
  rewrite (round_value _ _ _ _ H1) in Hr1. rewrite (round_value _ _ _ _ H2) in Hr2.
  pose proof (roundValue_bucket unit t1 t2 v1 v2 Hw Hr1 Hr2) as Hb.
  pose proof (checkChange_false_iff (fun _ => 0) h d1 d2 t1 t2 unit
                (thisTimeValue_Some _ _ _ H1) (thisTimeValue_Some _ _ _ H2)) as Hf.
  destruct (Z.eqb_spec v1 v2) as [Heq|Hne]; cbn [negb].
  - apply Hf, Hb, Heq.
  - destruct (checkChange_total (fun _ => 0) h d1 d2 unit) as [[] Hc]; rewrite Hc; [done|].
    destruct Hne. apply Hb, Hf, Hc.
Qed.

(** *** [add] *)

(** The time value [add] leaves in a valid date: a shift by [count] nominal
    durations for the units of fixed length, a calendar step for months and
    years. *)
Definition addValue (unit : TimeUnit) (count t : Z) : Z :=
  match unit with
  | month =>
      MakeDate (MakeDay (YearFromTime t) (MonthFromTime t + count) (DateFromTime t))
        (TimeWithinDay t)
  | year =>
      MakeDate (MakeDay (YearFromTime t + count) (MonthFromTime t) (DateFromTime t))
        (TimeWithinDay t)
  | _ => t + count * timeUnitDurations unit
  end.

Lemma add_present h d unit c t :
  h !! d = Some (Some t) ->
  add h d unit (Some c) = (<[d := TimeClip (addValue unit c t)]> h, d).
Proof.
  intros Hd. pose proof (thisTimeValue_Some _ _ _ Hd) as Ht.
  pose proof (time_fields t) as (Hh & Hm & Hs & Hms).
  pose proof (MakeDate_Day_TimeWithinDay t) as Hdt.
  unfold add, setUTCDate, setUTCSeconds_sec, setUTCSeconds, setUTCMilliseconds,
    setUTCHours_hour, setUTCHours, setUTCMinutes_min, setUTCMinutes,
    setUTCFullYear_year, setUTCFullYear, setUTCMonth_month, setUTCMonth,
    getUTCDate, getUTCSeconds, getUTCMilliseconds, getUTCHours, getUTCMinutes,
    getUTCFullYear, getUTCMonth, number_add.
  destruct unit; rewrite (setTimeValue_present _ _ _ _ Hd), Ht;
    cbn [mbind option_bind fmap option_fmap option_map default addValue];
    do 3 f_equal;
    unfold MakeDate, MakeTime, timeUnitDurations, msPerDay, msPerHour, msPerMinute,
      msPerSecond in *; rewrite ?MakeDay_this_month; try lia.
Qed.

Lemma add_in_place h date unit count :
  (add h date unit count).2 = date /\
  dom (add h date unit count).1 = dom h /\
  (forall d', d' ≠ date -> (add h date unit count).1 !! d' = h !! d').
Proof.
  unfold add, setUTCDate, setUTCSeconds_sec, setUTCSeconds, setUTCMilliseconds,
    setUTCHours_hour, setUTCHours, setUTCMinutes_min, setUTCMinutes,
    setUTCFullYear_year, setUTCFullYear, setUTCMonth_month, setUTCMonth.
  destruct unit; cbn [fst snd]; (split; [done|]); (split; [by rewrite setTimeValue_dom|]);
    intros d' Hne; by rewrite setTimeValue_other.
Qed.



(** X7. Adding twelve months is adding a year: for every date, valid or not,
    [add(date, "month", 12 * k)] and [add(date, "year", k)] leave the same
    heap. *)
Theorem add_twelve_months_is_a_year h date k :
  add h date month (Some (12 * k)) = add h date year (Some k).
Proof.
  destruct (h !! date) as [[t|]|] eqn:Hd.
  - rewrite !(add_present _ _ _ _ _ Hd). do 3 f_equal. cbn [addValue]. f_equal.
    unfold MakeDay. pose proof (MonthFromTime_range t).
    replace ((MonthFromTime t + 12 * k) / 12) with k by (Z.div_mod_to_equations; lia).
    replace ((MonthFromTime t + 12 * k) mod 12) with (MonthFromTime t)
      by (Z.div_mod_to_equations; lia).
    rewrite (Z.div_small (MonthFromTime t) 12), (Z.mod_small (MonthFromTime t) 12) by lia.
    by rewrite Z.add_0_r.
  - pose proof (thisTimeValue_Some _ _ _ Hd) as Ht.
    unfold add, setUTCMonth_month, setUTCMonth, setUTCFullYear_year, setUTCFullYear,
      getUTCMonth, getUTCFullYear, getUTCDate, number_add.
    rewrite !(setTimeValue_present _ _ _ _ Hd), Ht. done.
  - unfold add, setUTCMonth_month, setUTCMonth, setUTCFullYear_year, setUTCFullYear.
    by rewrite !(setTimeValue_absent _ _ _ Hd).
Qed.

(** X8. [add] works in place: it returns the reference it was given,
    allocates nothing and touches no other object.  An invalid date stays
    invalid and a count that is [NaN] makes the date invalid, for every
    unit; adding 0 leaves the time value of a valid date as it is. *)
Theorem add_in_place_and_edges h date unit count :
  let r := add h date unit count in
  r.2 = date /\ dom r.1 = dom h /\
  (forall d', d' ≠ date -> r.1 !! d' = h !! d') /\
  (thisTimeValue h date = None \/ count = None -> thisTimeValue r.1 date = None) /\
  (forall t, h !! date = Some (Some t) -> count = Some 0 ->
     thisTimeValue r.1 date = TimeClip t).
Proof.
  cbv zeta. pose proof (add_in_place h date unit count) as (H1 & H2 & H3).
  split; [done|]. split; [done|]. split; [done|]. split.
  - intros Hnan. destruct (h !! date) as [x|] eqn:Hd.
    + pose proof (thisTimeValue_Some _ _ _ Hd) as Ht.
      unfold add, setUTCDate, setUTCSeconds_sec, setUTCSeconds, setUTCMilliseconds,
        setUTCHours_hour, setUTCHours, setUTCMinutes_min, setUTCMinutes,
        setUTCFullYear_year, setUTCFullYear, setUTCMonth_month, setUTCMonth,
        getUTCDate, getUTCSeconds, getUTCMilliseconds, getUTCHours, getUTCMinutes,
        getUTCFullYear, getUTCMonth, number_add.
      destruct unit; cbn [fst]; rewrite (setTimeValue_present _ _ _ _ Hd),
        thisTimeValue_insert, Ht;
        (destruct Hnan as [Hx | ->]; [rewrite Ht in Hx; subst x; done|]);
        destruct x; done.
    + assert (Hr : (add h date unit count).1 !! date = None).
      { apply not_elem_of_dom. rewrite H2. by apply not_elem_of_dom. }
      unfold thisTimeValue. by rewrite Hr.
  - intros t Hd ->. rewrite (add_present _ _ _ _ _ Hd). cbn [fst].
    rewrite thisTimeValue_insert. f_equal.
    destruct unit; cbn [addValue]; rewrite ?Z.add_0_r, ?MakeDay_this_month;
      try lia.
    + replace (Day t - DateFromTime t + DateFromTime t) with (Day t) by lia.
      apply MakeDate_Day_TimeWithinDay.
    + replace (Day t - DateFromTime t + DateFromTime t) with (Day t) by lia.
      apply MakeDate_Day_TimeWithinDay.
Qed.

(** *** [round] with any count *)

(** [count > 1 ? Math.floor(x / count) * count : x] for a count of at least 1. *)
Lemma floor_count x c :
  1 <= c -> (if c >? 1 then floorTo (Some x) c else Some x) = Some (x / c * c).
Proof.
  intros Hc. destruct (Z.gtb_spec c 1).
  - unfold floorTo. cbn. destruct (Z.eqb_spec c 0); [lia|done].
  - assert (c = 1) as -> by lia. by rewrite Z.div_1_r, Z.mul_1_r.
Qed.

(** The field of the time value that [round] floors, for the units below a
    day. *)
Definition unitField (unit : TimeUnit) (t : Z) : Z :=
  match unit with
  | millisecond => msFromTime t
  | second => SecFromTime t
  | minute => MinFromTime t
  | hour => HourFromTime t
  | _ => 0
  end.

Lemma round_field h d unit c f t :
  1 <= c -> h !! d = Some (Some t) -> TimeClip t = Some t ->
  unit = millisecond \/ unit = second \/ unit = minute \/ unit = hour ->
  round h d unit (Some c) f
  = (<[d := TimeClip (t - t mod timeUnitDurations unit
                      - unitField unit t mod c * timeUnitDurations unit)]> h, d).
Proof.
  intros Hc Hd Hclip Hu. pose proof (thisTimeValue_Some _ _ _ Hd) as Ht.
  pose proof (time_fields t) as (Hh & Hm & Hs & Hms).
  pose proof (mod_of_fields t) as (M1 & M2 & M3).
  unfold round, setUTCSeconds, setUTCMinutes, setUTCHours, setUTCMilliseconds,
    getUTCSeconds, getUTCMinutes, getUTCHours, getUTCMilliseconds.
  change (default 1 (Some c)) with c.
  destruct Hu as [->|[->|[->| ->]]]; rewrite ?Ht; cbn [fmap option_fmap option_map].
  - destruct (Z.eqb_spec c 1) as [->|Hne].
    + f_equal. rewrite insert_id; [done|]. rewrite Hd. f_equal. rewrite <- Hclip at 1.
      f_equal. cbn [timeUnitDurations unitField]. rewrite !Z.mod_1_r. lia.
    + rewrite (setTimeValue_present _ _ _ _ Hd). f_equal. f_equal.
      unfold floorTo. cbn [mbind option_bind]. destruct (Z.eqb_spec c 0); [lia|].
      cbn [mbind option_bind]. f_equal. cbn [timeUnitDurations unitField].
      rewrite Z.mod_1_r.
      pose proof (Z.div_mod (msFromTime t) c ltac:(lia)).
      unfold MakeDate, MakeTime, msPerDay, msPerHour, msPerMinute, msPerSecond in *. lia.
  - rewrite floor_count by done. rewrite (setTimeValue_present _ _ _ _ Hd), ?Ht.
    cbn [mbind option_bind]. do 3 f_equal. cbn [timeUnitDurations unitField].
    pose proof (Z.div_mod (SecFromTime t) c ltac:(lia)).
    unfold MakeDate, MakeTime, msPerDay, msPerHour, msPerMinute, msPerSecond in *. lia.
  - rewrite floor_count by done. rewrite (setTimeValue_present _ _ _ _ Hd), ?Ht.
    cbn [mbind option_bind]. do 3 f_equal. cbn [timeUnitDurations unitField].
    pose proof (Z.div_mod (MinFromTime t) c ltac:(lia)).
    unfold MakeDate, MakeTime, msPerDay, msPerHour, msPerMinute, msPerSecond in *. lia.
  - rewrite floor_count by done. rewrite (setTimeValue_present _ _ _ _ Hd), ?Ht.
    cbn [mbind option_bind]. do 3 f_equal. cbn [timeUnitDurations unitField].
    pose proof (Z.div_mod (HourFromTime t) c ltac:(lia)).
    assert (t mod 3600000 = t - (Day t * 24 + HourFromTime t) * 3600000) as M4.
    { unfold msPerDay, msPerHour, msPerMinute, msPerSecond in *.
      pose proof (Z.div_mod t 3600000 ltac:(lia)). lia. }
    unfold MakeDate, MakeTime, msPerDay, msPerHour, msPerMinute, msPerSecond in *. lia.
Qed.

(** The day number [round] aims at for the calendar units. *)
Definition targetDay (unit : TimeUnit) (c fd t : Z) : Z :=
  match unit with
  | day => MakeDay (YearFromTime t) (MonthFromTime t) (DateFromTime t / c * c)
  | week =>
      MakeDay (YearFromTime t) (MonthFromTime t)
        (if WeekDay t >=? fd then DateFromTime t - WeekDay t + fd
         else DateFromTime t - (7 + WeekDay t) + fd)
  | month => MakeDay (YearFromTime t) (MonthFromTime t / c * c) 1
  | year => MakeDay (YearFromTime t / c * c) 0 1
  | _ => Day t
  end.

Lemma round_calendar h d unit c f t :
  1 <= c -> h !! d = Some (Some t) ->
  unit = day \/ unit = week \/ unit = month \/ unit = year ->
  round h d unit (Some c) f
  = (<[d := t' ← TimeClip (MakeDate (targetDay unit c (default 1 f) t) (TimeWithinDay t));
            TimeClip (MakeDate (Day t') (MakeTime 0 0 0 0))]> h, d).
Proof.
  intros Hc Hd Hu. pose proof (thisTimeValue_Some _ _ _ Hd) as Ht.
  unfold round, setUTCDate, setUTCHours, setUTCMonth, setUTCFullYear,
    getUTCDate, getUTCDay, getUTCMonth, getUTCFullYear.
  change (default 1 (Some c)) with c.
  destruct Hu as [->|[->|[->| ->]]]; rewrite ?Ht; cbn [fmap option_fmap option_map];
    rewrite ?floor_count by done;
    rewrite (setTimeValue_present _ _ _ _ Hd);
    (erewrite setTimeValue_present by apply lookup_insert_eq);
    rewrite thisTimeValue_insert, insert_insert_eq; f_equal; f_equal;
    cbn [mbind option_bind default targetDay id];
    try (destruct (WeekDay t >=? default 1 f); cbn [mbind option_bind]); reflexivity.
Qed.

Lemma round_calendar_value h d unit c f t v :
  1 <= c -> h !! d = Some (Some t) ->
  unit = day \/ unit = week \/ unit = month \/ unit = year ->
  thisTimeValue (round h d unit (Some c) f).1 d = Some v ->
  v = MakeDate (targetDay unit c (default 1 f) t) 0 /\ TimeClip v = Some v.
Proof.
  intros Hc Hd Hu. rewrite (round_calendar _ _ _ _ _ _ Hc Hd Hu). cbn [fst].
  rewrite thisTimeValue_insert.
  apply (midnight_fixed (fun t => targetDay unit c (default 1 f) t)).
Qed.

Lemma midnight_facts dn : TimeWithinDay (MakeDate dn 0) = 0 /\ Day (MakeDate dn 0) = dn.
Proof.
  split; [apply TimeWithinDay_MakeDate|apply Day_MakeDate]; unfold msPerDay; lia.
Qed.

(** X9. With count 1 and a unit up to the day, [round] floors the time value
    of a valid date to a multiple of the duration of the unit:
    [t - t mod timeUnitDurations[unit]]. *)
Theorem round_floors_to_duration h date unit t :
  unit ≠ week -> unit ≠ month -> unit ≠ year ->
  h !! date = Some (Some t) -> TimeClip t = Some t ->
  thisTimeValue (round h date unit (Some 1) None).1 date
  = TimeClip (t - t mod timeUnitDurations unit).
Proof.
  intros Hw Hm Hy Hd Hclip.
  assert (Hf : unit = day \/
               (unit = millisecond \/ unit = second \/ unit = minute \/ unit = hour))
    by (destruct unit; tauto).
  destruct Hf as [->|Hf].
  - rewrite (round_calendar h date day 1 None t ltac:(lia) Hd ltac:(tauto)). cbn [fst].
    rewrite thisTimeValue_insert. cbn [targetDay default].
    rewrite Z.div_1_r, Z.mul_1_r, MakeDay_this_month.
    replace (Day t - DateFromTime t + DateFromTime t) with (Day t) by lia.
    rewrite MakeDate_Day_TimeWithinDay, Hclip. cbn [mbind option_bind]. f_equal.
    unfold MakeDate, MakeTime, Day, timeUnitDurations, msPerDay.
    pose proof (Z.div_mod t 86400000 ltac:(lia)). lia.
  - rewrite (round_field h date unit 1 None t ltac:(lia) Hd Hclip Hf).
    cbn [fst]. rewrite thisTimeValue_insert. f_equal. rewrite Z.mod_1_r. lia.
Qed.

Lemma floor_field_aux td q x xq xm tm t d n c :
  0 < d -> 0 < n -> 1 <= c -> 0 <= x < n -> td = n * q + x ->
  0 <= xm < c -> x = c * xq + xm -> 0 <= tm < d -> t = d * td + tm ->
  (((td - xm) * d) / d) mod n = xq * c /\ ((td - xm) * d) mod d = 0 /\
  t - c * d < t - tm - xm * d <= t.
Proof.
  intros Hd Hn Hc Hx Hq Hxm Hxq Htm Ht. split; [|split].
  - rewrite Z.div_mul by lia. symmetry. apply (Z.mod_unique_pos _ _ q).
    + assert (0 <= xq) by nia. nia.
    + lia.
  - apply Z.mod_mul. lia.
  - nia.
Qed.

Lemma floor_field t d n c :
  0 < d -> 0 < n -> 1 <= c ->
  let x := (t / d) mod n in
  let v := t - t mod d - x mod c * d in
  (v / d) mod n = x / c * c /\ v mod d = 0 /\ t - c * d < v <= t.
Proof.
  intros Hd Hn Hc x v.
  assert (Hx : 0 <= x < n) by (apply Z.mod_pos_bound; lia).
  assert (Hq : t / d = n * (t / d / n) + x) by (apply Z.div_mod; lia).
  assert (Hxc : 0 <= x mod c < c) by (apply Z.mod_pos_bound; lia).
  assert (Hxd : x = c * (x / c) + x mod c) by (apply Z.div_mod; lia).
  assert (Htd : 0 <= t mod d < d) by (apply Z.mod_pos_bound; lia).
  assert (Htdiv : t = d * (t / d) + t mod d) by (apply Z.div_mod; lia).
  pose proof (floor_field_aux _ _ _ _ _ _ _ _ _ _ Hd Hn Hc Hx Hq Hxc Hxd Htd Htdiv) as Ha.
  assert (Hv : v = (t / d - x mod c) * d).
  { unfold v. rewrite Htdiv at 1. ring. }
  rewrite Hv. destruct Ha as (A1 & A2 & A3). split; [done|]. split; [done|].
  rewrite <- Hv. exact A3.
Qed.

(** X10. With a count [c >= 1] and a unit below the day, [round] floors the
    field of the unit (milliseconds, seconds, minutes or hours) to a multiple
    of [c] and clears the finer fields: the new time value is at most the old
    one and less than [c] durations before it. *)
Theorem round_floors_field h date unit c f t :
  1 <= c ->
  unit = millisecond \/ unit = second \/ unit = minute \/ unit = hour ->
  h !! date = Some (Some t) -> TimeClip t = Some t ->
  let d := timeUnitDurations unit in
  let v := t - t mod d - unitField unit t mod c * d in
  thisTimeValue (round h date unit (Some c) f).1 date = TimeClip v /\
  unitField unit v = unitField unit t / c * c /\
  v mod d = 0 /\ t - c * d < v <= t.
Proof.
  intros Hc Hu Hd Hclip d v.
  split.
  { rewrite (round_field _ _ _ _ _ _ Hc Hd Hclip Hu). cbn [fst].
    by rewrite thisTimeValue_insert. }
  subst v d.
  destruct Hu as [->|[->|[->| ->]]]; cbn [unitField timeUnitDurations].
  - pose proof (floor_field t 1 1000 c ltac:(lia) ltac:(lia) Hc) as Hf.
    cbv zeta in Hf. unfold msFromTime, msPerSecond.
    rewrite !Z.div_1_r in Hf. exact Hf.
  - exact (floor_field t 1000 60 c ltac:(lia) ltac:(lia) Hc).
  - exact (floor_field t 60000 60 c ltac:(lia) ltac:(lia) Hc).
  - exact (floor_field t 3600000 24 c ltac:(lia) ltac:(lia) Hc).
Qed.

Lemma DateFromTime_pos t : 1 <= DateFromTime t.
Proof.
  pose proof (DayWithinYear_range t) as [Hd Hl].
  unfold DateFromTime, MonthFromTime.
  repeat match goal with |- context [?a <? ?b] => destruct (Z.ltb_spec a b) end; lia.
Qed.

Lemma daysBeforeMonth_mono m m' l :
  0 <= m <= m' -> m' <= 11 -> 0 <= l <= 1 -> daysBeforeMonth m l <= daysBeforeMonth m' l.
Proof.
  intros Hm Hm' Hl.
  assert (Hc : m = 0 \/ m = 1 \/ m = 2 \/ m = 3 \/ m = 4 \/ m = 5 \/ m = 6 \/
               m = 7 \/ m = 8 \/ m = 9 \/ m = 10 \/ m = 11) by lia.
  assert (Hc' : m' = 0 \/ m' = 1 \/ m' = 2 \/ m' = 3 \/ m' = 4 \/ m' = 5 \/ m' = 6 \/
                m' = 7 \/ m' = 8 \/ m' = 9 \/ m' = 10 \/ m' = 11) by lia.
  repeat destruct Hc as [->|Hc]; try subst m;
    repeat destruct Hc' as [->|Hc']; try subst m'; cbn [daysBeforeMonth]; lia.
Qed.

Lemma Day_le t : MakeDate (Day t) 0 <= t.
Proof. unfold MakeDate, Day, msPerDay. Z.div_mod_to_equations. lia. Qed.

Lemma round_week_value h date count f t v :
  h !! date = Some (Some t) ->
  thisTimeValue (round h date week count f).1 date = Some v ->
  v = MakeDate (targetDay week 1 (default 1 f) t) 0 /\ TimeClip v = Some v.
Proof.
  intros Hd. pose proof (thisTimeValue_Some _ _ _ Hd) as Ht.
  unfold round, setUTCDate, setUTCHours, getUTCDate, getUTCDay.
  rewrite Ht. cbn [fmap option_fmap option_map fst].
  rewrite (setTimeValue_present _ _ _ _ Hd).
  erewrite setTimeValue_present by apply lookup_insert_eq.
  rewrite !thisTimeValue_insert.
  intros Hv.
  apply (midnight_fixed (fun t => targetDay week 1 (default 1 f) t)).
  rewrite <- Hv. cbn [mbind option_bind targetDay].
  destruct (WeekDay t >=? default 1 f); cbn [mbind option_bind]; reflexivity.
Qed.

(** X11. Rounding to the week: with a first day of the week from 0 (Sunday)
    to 6, 1 (Monday) if none is given, a valid date is moved back by at most
    six days to the midnight that starts a day of that weekday.  The count
    plays no part. *)
Theorem round_week_starts_on_first_day h date count firstDateOfWeek t v :
  let fd := default 1 firstDateOfWeek in
  0 <= fd <= 6 ->
  h !! date = Some (Some t) ->
  thisTimeValue (round h date week count firstDateOfWeek).1 date = Some v ->
  WeekDay v = fd /\ TimeWithinDay v = 0 /\ Day t - 6 <= Day v <= Day t.
Proof.
  intros fd Hfd Hd Hv.
  apply (round_week_value _ _ _ _ _ _ Hd) in Hv as [-> _].
  destruct (midnight_facts (targetDay week 1 (default 1 firstDateOfWeek) t)) as [Hw Hday].
  split; [|split; [done|]].
  - unfold WeekDay at 1. rewrite Hday. cbn [targetDay]. rewrite MakeDay_this_month.
    fold fd. pose proof (WeekDay_range t). unfold WeekDay in *.
    destruct (Z.geb_spec ((Day t + 4) mod 7) fd); Z.div_mod_to_equations; lia.
  - rewrite Hday. cbn [targetDay]. rewrite MakeDay_this_month. fold fd.
    pose proof (WeekDay_range t). destruct (Z.geb_spec (WeekDay t) fd); lia.
Qed.

(** X12. Rounding to months or years with a count [c >= 1]: a valid date
    that stays valid is moved back to midnight of the first day of a month,
    in the same year the month whose number is floored to a multiple of [c]
    (the quarter for [c = 3]), or January of the year floored to a multiple
    of [c]. *)
Theorem round_month_year_start h date unit c f t v :
  1 <= c -> unit = month \/ unit = year ->
  h !! date = Some (Some t) ->
  thisTimeValue (round h date unit (Some c) f).1 date = Some v ->
  DateFromTime v = 1 /\ TimeWithinDay v = 0 /\ v <= t /\
  match unit with
  | month => YearFromTime v = YearFromTime t /\ MonthFromTime v = MonthFromTime t / c * c
  | _ => YearFromTime v = YearFromTime t / c * c /\ MonthFromTime v = 0
  end.
Proof.
  intros Hc Hu Hd Hv.
  apply (round_calendar_value h date unit c f t v Hc Hd) in Hv as [-> _]; [|tauto].
  pose proof (MonthFromTime_range t) as Hm.
  pose proof (Day_le t) as Hle.
  pose proof (DayWithinYear_range t) as [Hdw Hl].
  pose proof (daysBeforeMonth_DateFromTime t) as Hdb.
  pose proof (DateFromTime_pos t) as Hpos.
  destruct Hu as [-> | ->]; cbn [targetDay].
  - assert (Hm' : 0 <= MonthFromTime t / c * c <= MonthFromTime t).
    { pose proof (Z.div_mod (MonthFromTime t) c ltac:(lia)).
      pose proof (Z.mod_pos_bound (MonthFromTime t) c ltac:(lia)).
      assert (0 <= MonthFromTime t / c) by (apply Z.div_pos; lia). nia. }
    pose proof (first_of_month (YearFromTime t) (MonthFromTime t / c * c) ltac:(lia))
      as (Hy & Hmo & Hda).
    cbv zeta in Hy, Hmo, Hda.
    destruct (midnight_facts (MakeDay (YearFromTime t) (MonthFromTime t / c * c) 1)) as [Hw _].
    split; [done|]. split; [done|]. split; [|done].
    etrans; [|exact Hle]. unfold MakeDate, msPerDay.
    assert (MakeDay (YearFromTime t) (MonthFromTime t / c * c) 1 <= Day t); [|lia].
    unfold MakeDay.
    rewrite (Z.div_small _ 12), (Z.mod_small _ 12), Z.add_0_r by lia.
    pose proof (daysBeforeMonth_mono (MonthFromTime t / c * c) (MonthFromTime t)
                  (leapOfYear (YearFromTime t)) ltac:(lia) ltac:(lia)) as Hmono.
    unfold InLeapYear, DayWithinYear in *. lia.
  - pose proof (first_of_month (YearFromTime t / c * c) 0 ltac:(lia)) as (Hy & Hmo & Hda).
    cbv zeta in Hy, Hmo, Hda.
    destruct (midnight_facts (MakeDay (YearFromTime t / c * c) 0 1)) as [Hw _].
    split; [done|]. split; [done|]. split; [|done].
    etrans; [|exact Hle]. unfold MakeDate, msPerDay.
    assert (MakeDay (YearFromTime t / c * c) 0 1 <= Day t); [|lia].
    unfold MakeDay. change (0 / 12) with 0. change (0 mod 12) with 0.
    cbn [daysBeforeMonth].
    assert (Hy' : YearFromTime t / c * c <= YearFromTime t).
    { pose proof (Z.div_mod (YearFromTime t) c ltac:(lia)).
      pose proof (Z.mod_pos_bound (YearFromTime t) c ltac:(lia)). nia. }
    pose proof (DayFromYear_mono _ _ Hy').
    unfold DayWithinYear in *. rewrite (Z.add_0_r (_ * c)). lia.
Qed.

(** X13. Rounding to days with a count [c >= 1] floors the day of the month
    to a multiple of [c] and goes to midnight.  The days of a month count
    from 1: on a day of the month below [c] the multiple is 0, and the date
    lands on the day before the first of the month, in another month. *)
Theorem round_day_below_count h date c f t v :
  1 <= c -> h !! date = Some (Some t) ->
  thisTimeValue (round h date day (Some c) f).1 date = Some v ->
  TimeWithinDay v = 0 /\ Day v = Day t - DateFromTime t mod c /\
  (DateFromTime t < c ->
     Day v = MakeDay (YearFromTime t) (MonthFromTime t) 1 - 1 /\
     ~ (YearFromTime v = YearFromTime t /\ MonthFromTime v = MonthFromTime t)).
Proof.
  intros Hc Hd Hv.
  apply (round_calendar_value h date day c f t v Hc Hd) in Hv as [-> _]; [|tauto].
  cbn [targetDay]. rewrite MakeDay_this_month.
  destruct (midnight_facts (Day t - DateFromTime t + DateFromTime t / c * c)) as [Hw Hday].
  pose proof (DateFromTime_pos t) as Hpos.
  pose proof (Z.div_mod (DateFromTime t) c ltac:(lia)) as Hdm.
  split; [done|]. split; [rewrite Hday; lia|].
  intros Hlt. rewrite Hday, MakeDay_this_month.
  assert (Hz : DateFromTime t / c = 0) by (apply Z.div_small; lia).
  rewrite Hz in *. split; [lia|].
  set (v := MakeDate (Day t - DateFromTime t + 0 * c) 0) in *.
  intros [Hy Hm].
  pose proof (MakeDay_this_month v (DateFromTime v)) as Hmv.
  pose proof (MakeDay_this_month t (DateFromTime v)) as Hmt.
  rewrite Hy, Hm in Hmv. pose proof (DateFromTime_pos v). lia.
Qed.

(** X14. Rounding a copy leaves the source alone: [round(copy(date), ...)]
    returns the copy, which is a new object holding the time value of the
    source, and every object that was there before, the source included,
    keeps its time value. *)
Theorem round_copy_keeps_source h date unit count f x :
  h !! date = Some x ->
  let c := copy h date in
  let r := round c.1 c.2 unit count f in
  r.2 = c.2 /\ r.2 ≠ date /\ (r.2 ∉ dom h) /\
  (forall d, d ∈ dom h -> r.1 !! d = h !! d) /\
  c.1 !! c.2 = Some (x ≫= TimeClip).
Proof.
  intros Hd c r.
  destruct (copy_allocates h date) as [Hfresh Hdom].
  destruct (round_in_place c.1 c.2 unit count f) as (Hr & _ & Hother).
  fold c in Hfresh, Hdom. fold r in Hr, Hother.
  assert (Hne : c.2 ≠ date).
  { intros Heq. apply Hfresh. rewrite Heq. apply elem_of_dom. by eexists. }
  split; [done|]. split; [by rewrite Hr|]. split; [by rewrite Hr|]. split.
  - intros d Hin. rewrite Hother by (intros ->; done).
    unfold c, copy, newDate. cbn [fst]. rewrite lookup_insert_ne; [done|].
    intros Heq. apply Hfresh. unfold c, copy, newDate. cbn [snd]. by rewrite Heq.
  - unfold c, copy, newDate, getTime. cbn [fst snd].
    rewrite lookup_insert_eq. by rewrite (thisTimeValue_Some _ _ _ Hd).
Qed.


(** *** The theorems at work

    29 February 2020, 12:34:56.789 UTC is the time value 1582979696789, a
    Saturday. *)

Definition leapDay : Z := 1582979696789.

Lemma checkChange_same_unit_witness :
  let tz := fun _ : Z => 7200000 in
  let h : heap := {[ 1%positive := Some leapDay; 2%positive := Some (leapDay + 1000) ]} in
  (checkChange tz h 1 2 minute = Some false <-> sameUnit tz minute leapDay (leapDay + 1000)) /\
  (checkChange tz h 1 2 minute = Some true <-> ~ sameUnit tz minute leapDay (leapDay + 1000)).
Proof.
  exact (checkChange_same_unit (fun _ => 7200000)
           {[ 1%positive := Some leapDay; 2%positive := Some (leapDay + 1000) ]}
           1%positive 2%positive leapDay (leapDay + 1000) minute eq_refl eq_refl).
Defined.

Lemma checkChange_invalid_date_witness :
  let h : heap := {[ 1%positive := None ]} in
  checkChange (fun _ => 0) h 1 1 week = Some true.
Proof.
  exact (checkChange_invalid_date (fun _ => 0) {[ 1%positive := None ]}
           1%positive 1%positive week (or_introl eq_refl)).
Defined.

(** The leap day and the day after lie in different months: the roundings
    are 1 February and 1 March. *)
Lemma checkChange_iff_round_differs_witness :
  let h : heap := {[ 1%positive := Some leapDay; 2%positive := Some (leapDay + 86400000) ]} in
  checkChange (fun _ => 0) h 1 2 month = Some (negb (1580515200000 =? 1583020800000)).
Proof.
  assert (Hw : month ≠ week) by discriminate.
  exact (checkChange_iff_round_differs
           {[ 1%positive := Some leapDay; 2%positive := Some (leapDay + 86400000) ]}
           1%positive 2%positive leapDay (leapDay + 86400000) month
           1580515200000 1583020800000 Hw eq_refl eq_refl eq_refl eq_refl).
Defined.



Lemma round_floors_to_duration_witness :
  let h : heap := {[ 1%positive := Some leapDay ]} in
  thisTimeValue (round h 1 minute (Some 1) None).1 1
  = TimeClip (leapDay - leapDay mod timeUnitDurations minute).
Proof.
  assert (Hw : minute ≠ week) by discriminate.
  assert (Hm : minute ≠ month) by discriminate.
  assert (Hy : minute ≠ year) by discriminate.
  exact (round_floors_to_duration {[ 1%positive := Some leapDay ]} 1%positive minute leapDay
           Hw Hm Hy eq_refl eq_refl).
Defined.

(** To a quarter of a minute: 12:34:56.789 becomes 12:34:45.000. *)
Lemma round_floors_field_witness :
  let h : heap := {[ 1%positive := Some leapDay ]} in
  let d := timeUnitDurations second in
  let v := leapDay - leapDay mod d - unitField second leapDay mod 15 * d in
  thisTimeValue (round h 1 second (Some 15) None).1 1 = TimeClip v /\
  unitField second v = unitField second leapDay / 15 * 15 /\
  v mod d = 0 /\ leapDay - 15 * d < v <= leapDay.
Proof.
  assert (Hc : 1 <= 15) by lia.
  exact (round_floors_field {[ 1%positive := Some leapDay ]} 1%positive second 15 None leapDay
           Hc (or_intror (or_introl eq_refl)) eq_refl eq_refl).
Defined.

(** Weeks that start on Sunday: from Saturday 29 February back to Sunday
    23 February. *)
Lemma round_week_starts_on_first_day_witness :
  let h : heap := {[ 1%positive := Some leapDay ]} in
  WeekDay 1582416000000 = 0 /\ TimeWithinDay 1582416000000 = 0 /\
  Day leapDay - 6 <= Day 1582416000000 <= Day leapDay.
Proof.
  assert (Hfd : 0 <= default 1 (Some 0) <= 6) by (cbn; lia).
  exact (round_week_starts_on_first_day {[ 1%positive := Some leapDay ]} 1%positive
           (Some 1) (Some 0) leapDay 1582416000000 Hfd eq_refl eq_refl).
Defined.

(** To the quarter: from 29 February back to 1 January. *)
Lemma round_month_year_start_witness :
  DateFromTime 1577836800000 = 1 /\ TimeWithinDay 1577836800000 = 0 /\
  1577836800000 <= leapDay /\
  YearFromTime 1577836800000 = YearFromTime leapDay /\
  MonthFromTime 1577836800000 = MonthFromTime leapDay / 3 * 3.
Proof.
  assert (Hc : 1 <= 3) by lia.
  exact (round_month_year_start {[ 1%positive := Some leapDay ]} 1%positive month 3 None
           leapDay 1577836800000 Hc (or_introl eq_refl) eq_refl eq_refl).
Defined.

(** To seven days from 5 March 2020: the day of the month is below 7, and
    the date lands on 29 February. *)
Lemma round_day_below_count_witness :
  let t := leapDay + 5 * 86400000 in
  let v := 1582934400000 in
  TimeWithinDay v = 0 /\ Day v = Day t - DateFromTime t mod 7 /\
  (DateFromTime t < 7 ->
     Day v = MakeDay (YearFromTime t) (MonthFromTime t) 1 - 1 /\
     ~ (YearFromTime v = YearFromTime t /\ MonthFromTime v = MonthFromTime t)).
Proof.
  assert (Hc : 1 <= 7) by lia.
  exact (round_day_below_count {[ 1%positive := Some (leapDay + 5 * 86400000) ]} 1%positive
           7 None (leapDay + 5 * 86400000) 1582934400000 Hc eq_refl eq_refl).
Defined.

Lemma round_copy_keeps_source_witness :
  let h : heap := {[ 1%positive := Some leapDay ]} in
  let c := copy h 1 in
  let r := round c.1 c.2 year (Some 1) None in
  r.2 = c.2 /\ r.2 ≠ 1%positive /\ (r.2 ∉ dom h) /\
  (forall d, d ∈ dom h -> r.1 !! d = h !! d) /\
  c.1 !! c.2 = Some (Some leapDay ≫= TimeClip).
Proof.
  exact (round_copy_keeps_source {[ 1%positive := Some leapDay ]} 1%positive year (Some 1)
           None (Some leapDay) eq_refl).
Defined.

End Time.

(** ** Part II: [plugins/wordCloud/WordCloudSeries.ts] *)

Module WordCloudSeries.

(** *** Strings

    A JavaScript string is a sequence of UTF-16 code units.  The model keeps
    the code units below 256 (Basic Latin and Latin-1), one [ascii] each; on
    them [toLowerCase] and the word pattern are transcribed exactly. *)

Definition code (c : ascii) : N := N_of_ascii c.

Definition inRange (lo hi : N) (c : ascii) : bool :=
  ((lo <=? code c) && (code c <=? hi))%N.

(** [String.prototype.toLowerCase] on one code unit: [A-Z], and the Latin-1
    capitals U+00C0..U+00DE except the multiplication sign U+00D7. *)
Definition lowerChar (c : ascii) : ascii :=
  if inRange 65 90 c || inRange 192 214 c || inRange 216 222 c
  then ascii_of_N (code c + 32)
  else c.

Fixpoint toLowerCase (s : string) : string :=
  match s with
  | EmptyString => EmptyString
  | String c s' => String (lowerChar c) (toLowerCase s')
  end.

(** The character class of [reg] in [getWords], cut to code units below 256:
    A-Z, a-z, U+00AA, U+00B5, U+00BA, U+00C0..U+00D6, U+00D8..U+00F6,
    U+00F8..U+00FF (the start of the range that runs to U+02C1), and
    [0-9@+].  Every letter below 256 is in the class, so the [i] flag adds
    no code unit there. *)
Definition isWordChar (c : ascii) : bool :=
  inRange 65 90 c || inRange 97 122 c
  || inRange 170 170 c || inRange 181 181 c || inRange 186 186 c
  || inRange 192 214 c || inRange 216 246 c || inRange 248 255 c
  || inRange 48 57 c || inRange 64 64 c || inRange 43 43 c.

Definition flush (cur : string) : list string :=
  match cur with
  | EmptyString => []
  | _ => [cur]
  end.

(** [input.match(reg)] with the [g] flag: the maximal runs of word
    characters, left to right ([null] is the empty list). *)
Fixpoint matchRuns (input cur : string) : list string :=
  match input with
  | EmptyString => flush cur
  | String c rest =>
      if isWordChar c then matchRuns rest (cur +:+ String c EmptyString)
      else flush cur ++ matchRuns rest EmptyString
  end.

Definition matchWords (input : string) : list string := matchRuns input EmptyString.

Definition substr1 (s : string) : string :=
  match s with
  | EmptyString => EmptyString
  | String _ s' => s'
  end.

Definition charAt0 (s : string) : option ascii :=
  match s with
  | EmptyString => None
  | String c _ => Some c
  end.

(** [isCapitalized]: the first character is upper case and the rest is
    lower case. *)
Definition isCapitalized (word : string) : bool :=
  let lword := toLowerCase word in
  negb (bool_decide (charAt0 word = charAt0 lword))
  && bool_decide (substr1 word = substr1 lword)
  && negb (bool_decide (word = lword)).

(** *** [getWords] *)

Record entry : Set := Entry { word : string; value : nat }.

#[global] Instance entry_eq_dec : EqDecision entry.
Proof. solve_decision. Defined.

(** The properties of the series that [getWords] reads.  [minValue] and
    [maxCount] are [undefined] unless set. *)
Record wordSettings : Set := WordSettings {
  excludeWords : list string;
  minValue : option nat;
  minWordLength : nat;
  maxCount : option nat
}.

(** One turn of [while (word = res.pop())]: bump the first entry that is
    equal up to case (taking over the spelling unless it is capitalized), or
    push a new entry at the end. *)
Fixpoint addWord (words : list entry) (w : string) : list entry :=
  match words with
  | [] => [Entry w 1]
  | item :: rest =>
      if bool_decide (toLowerCase (word item) = toLowerCase w)
      then Entry (if isCapitalized w then word item else w) (S (value item)) :: rest
      else item :: addWord rest w
  end.

(** [res.pop()] takes the matches from the last to the first. *)
Definition countWords (res : list string) : list entry :=
  foldl addWord [] (reverse res).

(** [words.splice(i, 1)]. *)
Definition splice1 {A} (i : nat) (l : list A) : list A := delete i l.

(** [a < b] where [b] may be [undefined]: false then. *)
Definition ltOpt (a : nat) (b : option nat) : bool :=
  match b with
  | Some b => a <? b
  | None => false
  end%nat.

Definition gt1 (b : option nat) : bool := ltOpt 1 b.

(** The body of the filtering loop at index [i]: [w] is read once, then each
    of the three tests that holds splices at [i]. *)
Definition filterAt (p : wordSettings) (i : nat) (words : list entry) : list entry :=
  match words !! i with
  | None => words
  | Some w =>
      let words := if ltOpt (value w) (minValue p) then splice1 i words else words in
      let words := if (String.length (word w) <? minWordLength p)%nat
                   then splice1 i words else words in
      let words := if bool_decide (word w ∈ excludeWords p)
                   then splice1 i words else words in
      words
  end.

(** [for (let i = words.length - 1; i >= 0; i--)], with [n = i + 1]. *)
Fixpoint filterLoop (p : wordSettings) (n : nat) (words : list entry) : list entry :=
  match n with
  | O => words
  | S i => filterLoop p i (filterAt p i words)
  end.

Definition filterWords (p : wordSettings) (words : list entry) : list entry :=
  if gt1 (minValue p) || (1 <? minWordLength p)%nat
     || (0 <? length (excludeWords p))%nat
  then filterLoop p (length words) words
  else words.

(** [Array.prototype.sort(compare)]: a stable sort (ECMAScript 2019).  With
    a consistent comparator the result is the one stable sorted permutation;
    it is computed here by insertion, each element going in front of the
    elements that compare equal to it and came after it. *)
Fixpoint sortInsert {A} (compare : A -> A -> Z) (x : A) (l : list A) : list A :=
  match l with
  | [] => [x]
  | y :: l' => if compare x y <=? 0 then x :: l else y :: sortInsert compare x l'
  end.

Fixpoint Array_sort {A} (compare : A -> A -> Z) (l : list A) : list A :=
  match l with
  | [] => []
  | x :: l' => sortInsert compare x (Array_sort compare l')
  end.

(** The comparator of [getWords]. *)
Definition compareEntries (a b : entry) : Z :=
  if (value a =? value b)%nat then 0
  else if (value b <? value a)%nat then -1
  else 1.

(** [if (words.length > this.maxCount) words = words.slice(0, this.maxCount)]. *)
Definition truncate {A} (maxCount : option nat) (words : list A) : list A :=
  match maxCount with
  | Some m => if (m <? length words)%nat then take m words else words
  | None => words
  end.

(** [getWords(input)]; [None] is [undefined], the result of falling off the
    end of the function when [input] is falsy. *)
Definition getWords (p : wordSettings) (input : string) : option (list entry) :=
  match input with
  | EmptyString => None
  | _ =>
      match matchWords input with
      | [] => Some []
      | res =>
          let words := countWords res in
          let words := filterWords p words in
          let words := Array_sort compareEntries words in
          Some (truncate (maxCount p) words)
      end
  end.

(** *** Numbers

    A JavaScript number as an exact rational or one of the IEEE specials.
    Arithmetic follows IEEE 754 on the specials (a zero divisor gives an
    infinity or [NaN], every comparison with [NaN] is false); on finite
    values it is exact, and zero carries no sign. *)

Inductive num : Set := Fin (q : Q) | PInf | NInf | NaN.

Definition num_of_Z (z : Z) : num := Fin (inject_Z z).
Definition num_of_nat (n : nat) : num := num_of_Z (Z.of_nat n).

Definition num_opp (a : num) : num :=
  match a with
  | Fin q => Fin (- q)
  | PInf => NInf
  | NInf => PInf
  | NaN => NaN
  end.

Definition num_add (a b : num) : num :=
  match a, b with
  | NaN, _ | _, NaN => NaN
  | PInf, NInf | NInf, PInf => NaN
  | PInf, _ | _, PInf => PInf
  | NInf, _ | _, NInf => NInf
  | Fin p, Fin q => Fin (p + q)
  end.

Definition num_sub (a b : num) : num := num_add a (num_opp b).

(** An infinity with the sign of [q], or [NaN] when [q] is zero. *)
Definition signedInf (q : Q) (positive : bool) : num :=
  match (0 ?= q)%Q with
  | Eq => NaN
  | Lt => if positive then PInf else NInf
  | Gt => if positive then NInf else PInf
  end.

Definition num_mul (a b : num) : num :=
  match a, b with
  | NaN, _ | _, NaN => NaN
  | Fin p, Fin q => Fin (p * q)
  | Fin p, PInf | PInf, Fin p => signedInf p true
  | Fin p, NInf | NInf, Fin p => signedInf p false
  | PInf, PInf | NInf, NInf => PInf
  | PInf, NInf | NInf, PInf => NInf
  end.

Definition num_div (a b : num) : num :=
  match a, b with
  | NaN, _ | _, NaN => NaN
  | Fin p, Fin q => if Qeq_bool q 0 then signedInf p true else Fin (p / q)
  | Fin _, (PInf | NInf) => Fin 0
  | PInf, Fin q => if Qle_bool 0 q then PInf else NInf
  | NInf, Fin q => if Qle_bool 0 q then NInf else PInf
  | (PInf | NInf), (PInf | NInf) => NaN
  end.

(** [a == b] on numbers. *)
Definition num_eqb (a b : num) : bool :=
  match a, b with
  | Fin p, Fin q => Qeq_bool p q
  | PInf, PInf | NInf, NInf => true
  | _, _ => false
  end.

(** [a < b]. *)
Definition num_ltb (a b : num) : bool :=
  match a, b with
  | NaN, _ | _, NaN => false
  | Fin p, Fin q => negb (Qle_bool q p)
  | NInf, (Fin _ | PInf) | Fin _, PInf => true
  | _, _ => false
  end.

(** [a <= b]. *)
Definition num_leb (a b : num) : bool :=
  match a, b with
  | NaN, _ | _, NaN => false
  | Fin p, Fin q => Qle_bool p q
  | NInf, _ | _, PInf => true
  | _, _ => false
  end.

Definition num_abs (a : num) : num :=
  match a with
  | Fin q => Fin (Qabs.Qabs q)
  | PInf | NInf => PInf
  | NaN => NaN
  end.

(** [Math.round]: the nearest integer, halves going up. *)
Definition Math_round (a : num) : num :=
  match a with
  | Fin q => Fin (inject_Z (Qfloor (q + (1 # 2))))
  | _ => a
  end.

(** Modelled from the spec: [$math.min] of [core/utils/Math], not among the
    sources: "the smaller of" two pixel extents. *)
Definition Math_min (a b : Z) : Z := Z.min a b.

(** [array[i]] for a number [i]: an element when [i] is an index of the
    array, [undefined] otherwise. *)
Definition arrayGet {A} (l : list A) (i : num) : option A :=
  match i with
  | Fin q =>
      if Qeq_bool q (inject_Z (Qfloor q)) && (0 <=? Qfloor q)
      then l !! Z.to_nat (Qfloor q) else None
  | _ => None
  end.

Example num_specials :
  (num_div (Fin 1) (Fin 0), num_div (Fin (-1)) (Fin 0), num_div (Fin 0) (Fin 0),
   num_mul PInf (Fin 0), num_sub PInf PInf, num_add NInf (Fin 3))
  = (PInf, NInf, NaN, NaN, NaN, NInf).
Proof. reflexivity. Qed.

Example Math_round_halves :
  (Math_round (Fin (5 # 2)), Math_round (Fin (- (5 # 2))), Math_round (Fin (- (26 # 10))))
  = (Fin 3, Fin (-2), Fin (-3)).
Proof. reflexivity. Qed.

Declare Scope num_scope.
Delimit Scope num_scope with num.
Bind Scope num_scope with num.
Infix "+" := num_add : num_scope.
Infix "-" := num_sub : num_scope.
Infix "*" := num_mul : num_scope.
Infix "/" := num_div : num_scope.
Infix "<?" := num_ltb : num_scope.
Infix "<=?" := num_leb : num_scope.
Infix "==?" := num_eqb (at level 70) : num_scope.

(** *** The off-screen canvas

    [_canvas] is a [w] by [h] raster of RGBA pixels.  Coordinates are whole
    pixels; [w / 2] and [h / 2] are taken as the integer halves. *)

Record rgba : Set := RGBA { red : Z; green : Z; blue : Z; alpha : Z }.

#[global] Instance rgba_eq_dec : EqDecision rgba.
Proof. solve_decision. Defined.

Definition white : rgba := RGBA 255 255 255 255.
Definition blueInk : rgba := RGBA 0 0 255 255.
Definition transparent : rgba := RGBA 0 0 0 0.

Record canvas : Type := Canvas {
  cwidth : Z;
  cheight : Z;
  base : rgba;                      (* colour of the pixels not painted since *)
  painted : gmap (Z * Z) rgba
}.

Definition inCanvas (c : canvas) (x y : Z) : bool :=
  (0 <=? x) && (x <? cwidth c) && (0 <=? y) && (y <? cheight c).

(** A pixel as [getImageData] reports it: transparent black outside the
    canvas. *)
Definition pixelAt (c : canvas) (x y : Z) : rgba :=
  if inCanvas c x y then default (base c) (painted c !! (x, y)) else transparent.

(** [canvas.width = w; canvas.height = h; fillStyle = "white";
    fillRect(0, 0, w, h)]. *)
Definition whiteCanvas (w h : Z) : canvas := Canvas w h white ∅.

Definition channels (c : rgba) : list Z := [red c; green c; blue c; alpha c].

(** [getImageData(sx, sy, sw, sh).data]: the RGBA bytes of the rectangle,
    row by row.  A zero extent raises [IndexSizeError] ([None]); a negative
    one is measured from the other side. *)
Definition getImageData (c : canvas) (sx sy sw sh : Z) : option (list Z) :=
  if (sw =? 0) || (sh =? 0) then None
  else
    let x0 := if sw <? 0 then sx + sw else sx in
    let y0 := if sh <? 0 then sy + sh else sy in
    let nw := Z.abs sw in
    let nh := Z.abs sh in
    Some (k ← seqZ 0 (nw * nh); channels (pixelAt c (x0 + k mod nw) (y0 + k / nw))).

(** [fillText] in blue: the pixels the glyphs cover, given as offsets from
    the translated origin [(cx, cy)], take the ink; pixels off the canvas
    are clipped. *)
Definition stamp (c : canvas) (cx cy : Z) (glyph : list (Z * Z)) : canvas :=
  Canvas (cwidth c) (cheight c) (base c)
    (foldr (fun d m =>
              let x := cx + d.1 in
              let y := cy + d.2 in
              if inCanvas c x y then <[(x, y) := blueInk]> m else m)
           (painted c) glyph).

(** *** Labels, data items and the series *)

Record IPoint : Set := Point { px : Z; py : Z }.

Record Label : Set := MkLabel {
  currentText : string;
  fontSize : num;
  rotation : option num;          (* [None]: [undefined] *)
  labelX : Z;
  labelY : Z;
  pixelMarginLeft : Z;
  pixelMarginRight : Z;
  pixelMarginTop : Z;
  pixelMarginBottom : Z
}.

(** The measured extents of a validated label around its centre. *)
Record extents : Set := Extents { maxLeft : Z; maxRight : Z; maxTop : Z; maxBottom : Z }.

Record DataItem : Set := MkDataItem {
  dataValue : num;                (* [dataItem.value] *)
  label : Label
}.

(** [number | Percent]. *)
Inductive NumberOrPercent : Set :=
| Number (n : num)
| Percent (percent : num).

(** Modelled from the spec: [$utils.relativeToValue] of [core/utils/Utils],
    which is not among the sources.  A plain number stands for itself; a
    [Percent] is resolved "against" the full size, that is [full * p / 100]. *)
Definition relativeToValue (v : NumberOrPercent) (full : num) : num :=
  match v with
  | Number n => n
  | Percent p => (full * (p / Fin 100))%num
  end.

Record properties : Set := Properties {
  minFontSize : NumberOrPercent;
  maxFontSize : NumberOrPercent;
  rotationThreshold : num;
  angles : list num;
  randomness : num;
  accuracy : nat;
  step : num;
  innerWidth : Z;
  innerHeight : Z;
  valueLow : num;                 (* [this.dataItem.values.value.low] *)
  valueHigh : num                 (* [this.dataItem.values.value.high] *)
}.

(** The mutable part of a series, with the timers it has pending in the
    browser ([pending]; [nextTimer] is the next fresh timer id).  [invalid]
    is the flag [invalidate()] of [core/Sprite] raises for the framework to
    call [validate()] on the next frame. *)
Record series : Type := Series {
  dataItems : list DataItem;
  _points : list IPoint;
  _adjustedFont : num;
  _currentIndex : nat;
  _processTimeout : option nat;
  _ctx : canvas;
  invalid : bool;
  pending : gset nat;
  nextTimer : nat
}.

(** *** [validate] and [processItem] *)

Inductive exn : Set := TypeError | IndexSizeError.

(** How one run of the [while (intersects)] loop ends. *)
Inductive found : Set :=
| Accepted (points : list IPoint) (x y : Z)
| Exhausted (points : list IPoint)
| Thrown (points : list IPoint) (e : exn)
| OutOfFuel.

(** How one call of [processItem] ends. *)
Inductive outcome : Set :=
| Placed (l : Label)               (* the label as placed: site, size, angle *)
| Restart                          (* candidates exhausted: shrink and invalidate *)
| Raised (e : exn)
| Stuck.                           (* the model's fuel ran out: never happens *)

(** The comparator of [validate]. *)
Definition compareItems (a b : DataItem) : Z :=
  if (dataValue a ==? dataValue b)%num then 0
  else if (dataValue b <? dataValue a)%num then -1
  else 1.

(** [for (i = 0; i < pixel.length; i += stride) if (pixel[i] != 255) ...]:
    does some sampled byte differ from 255?  [fuel] bounds the number of
    turns; [length pixel] turns are enough for any positive stride. *)
Fixpoint sampleLoop (fuel : nat) (pixel : list Z) (stride i : nat) : bool :=
  match fuel with
  | O => false
  | S fuel =>
      match pixel !! i with
      | None => false                           (* [i >= pixel.length] *)
      | Some v => if v =? 255 then sampleLoop fuel pixel stride (i + stride)
                  else true
      end
  end.

Definition intersectsAt (pixel : list Z) (accuracy : nat) : bool :=
  sampleLoop (length pixel) pixel (2 ^ accuracy) 0.

(** [angle == 0] and [Math.abs(angle) == 90], false on [undefined]. *)
Definition angleIs (angle : option num) (q : Q) : bool :=
  match angle with
  | Some a => (a ==? Fin q)%num
  | None => false
  end.

Definition absAngleIs (angle : option num) (q : Q) : bool :=
  match angle with
  | Some a => (num_abs a ==? Fin q)%num
  | None => false
  end.

(** On a hit, short flat or upright words of more than three characters
    take the candidate out of [_points]. *)
Definition pruneOnHit (l : Label) (e : extents) (p : nat) (points : list IPoint)
    : list IPoint :=
  if (3 <? String.length (currentText l))%nat then
    let points :=
      if angleIs (rotation l) 0 && (maxRight e - maxLeft e <? 60)
      then splice1 p points else points in
    let points :=
      if absAngleIs (rotation l) 90 && (maxBottom e - maxTop e <? 50)
      then splice1 p points else points in
    points
  else points.

(** [rect1]: the box of the label centred at [(x, y)], margins included. *)
Definition rect1 (l : Label) (e : extents) (x y : Z) : Z * Z * Z * Z :=
  (x + maxLeft e - pixelMarginLeft l,
   y + maxTop e - pixelMarginTop l,
   maxRight e - maxLeft e + pixelMarginLeft l + pixelMarginRight l,
   maxBottom e - maxTop e + pixelMarginTop l + pixelMarginBottom l).

Section Layout.

(** The browser's text layout, for a text at a font size and an angle: the
    extents [label.validate()] measures, and the pixels [fillText] covers
    (rotation applied), as offsets from the centre of the label. *)
Variable measure : string -> num -> option num -> extents.
Variable glyph : string -> num -> option num -> list (Z * Z).

Definition extentsOf (l : Label) : extents :=
  measure (currentText l) (fontSize l) (rotation l).
Definition glyphOf (l : Label) : list (Z * Z) :=
  glyph (currentText l) (fontSize l) (rotation l).

(** [$path.spiralPoints(0, 0, w, h, 0, step, step)] of
    [core/rendering/Path], not among the sources. *)
Variable spiralPoints : Z -> Z -> num -> list IPoint.

Variable P : properties.

Definition halfW : Z := innerWidth P / 2.
Definition halfH : Z := innerHeight P / 2.

(** The rectangle [getImageData] is asked for when the label sits at
    [(x, y)]. *)
Definition imageRect (l : Label) (x y : Z) : Z * Z * Z * Z :=
  let '(rx, ry, rw, rh) := rect1 l (extentsOf l) x y in
  (rx + halfW, ry + halfH, rw, rh).

(** [while (intersects) { ... p += 5 }] from candidate [p] on. *)
Fixpoint search (fuel : nat) (c : canvas) (l : Label) (points : list IPoint)
    (p : Z) : found :=
  match fuel with
  | O => OutOfFuel
  | S fuel =>
      if p >? Z.of_nat (length points) - 1 then Exhausted points
      else
        match (if p <? 0 then None else points !! Z.to_nat p) with
        | None => Thrown points TypeError        (* [this._points[p].x] *)
        | Some pt =>
            let '(sx, sy, sw, sh) := imageRect l (px pt) (py pt) in
            match getImageData c sx sy sw sh with
            | None => Thrown points IndexSizeError
            | Some pixel =>
                if intersectsAt pixel (accuracy P)
                then search fuel c l
                       (pruneOnHit l (extentsOf l) (Z.to_nat p) points) (p + 5)
                else Accepted points (px pt) (py pt)
            end
        end
  end.

Definition smallerSize : num := num_of_Z (Math_min (innerHeight P) (innerWidth P)).
Definition resolvedMin : num := relativeToValue (minFontSize P) smallerSize.
Definition resolvedMax : num := relativeToValue (maxFontSize P) smallerSize.

(** [percent] and [fontSize] of [processItem]. *)
Definition percentOf (v : num) : num := ((v - valueLow P) / valueHigh P)%num.

Definition fontSizeFor (adjustedFont v : num) : num :=
  (resolvedMin + (resolvedMax - resolvedMin) * percentOf v * adjustedFont)%num.

(** [angle]; [r] is the value [Math.random()] returns if it is called. *)
Definition relativeSize (fontSize : num) : num :=
  ((fontSize - resolvedMin) / (resolvedMax - resolvedMin))%num.

Definition angleFor (fontSize r : num) : option num :=
  if (relativeSize fontSize <? rotationThreshold P)%num
  then arrayGet (angles P)
         (Math_round (r * (num_of_nat (length (angles P)) - Fin 1)))%num
  else Some (Fin 0).

Definition restyle (l : Label) (size : num) (angle : option num) : Label :=
  MkLabel (currentText l) size angle (labelX l) (labelY l)
    (pixelMarginLeft l) (pixelMarginRight l) (pixelMarginTop l) (pixelMarginBottom l).

Definition moveTo (l : Label) (x y : Z) : Label :=
  MkLabel (currentText l) (fontSize l) (rotation l) x y
    (pixelMarginLeft l) (pixelMarginRight l) (pixelMarginTop l) (pixelMarginBottom l).

(** Modelled from the spec: [BaseObject.setTimeout] of [core/Base], not
    among the sources.  It starts a browser timer and returns its disposer;
    disposing the disposer cancels the timer if it has not fired. *)
Definition setTimeout (s : series) : series :=
  Series (dataItems s) (_points s) (_adjustedFont s) (_currentIndex s)
    (Some (nextTimer s)) (_ctx s) (invalid s)
    ({[nextTimer s]} ∪ pending s) (S (nextTimer s)).

Definition disposeTimeout (s : series) : series :=
  match _processTimeout s with
  | Some t =>
      Series (dataItems s) (_points s) (_adjustedFont s) (_currentIndex s)
        (_processTimeout s) (_ctx s) (invalid s) (pending s ∖ {[t]}) (nextTimer s)
  | None => s
  end.

(** The candidate search of [processItem]: the start index
    [p = Math.round(Math.random() * this._points.length * this.randomness)]
    and the loop.  An index that is not a number makes [this._points[p]]
    undefined. *)
Definition findSite (s : series) (l : Label) (r : num) : found :=
  let points := _points s in
  match Math_round (r * num_of_nat (length points) * randomness P)%num with
  | Fin q => search (S (length points)) (_ctx s) l points (Qfloor q)
  | PInf => Exhausted points
  | NInf | NaN => Thrown points TypeError
  end.

(** [processItem(dataItem)], the data item given by its index in
    [dataItems]; [r1] and [r2] are what the two [Math.random()] calls
    return.  The label is given the size and the site it is animated to. *)
Definition processItem (s : series) (i : nat) (r1 r2 : num) : series * outcome :=
  match dataItems s !! i with
  | None => (s, Raised TypeError)                 (* [dataItem.label] *)
  | Some dataItem =>
      let fontSize := fontSizeFor (_adjustedFont s) (dataValue dataItem) in
      let angle := angleFor fontSize r1 in
      let l := restyle (label dataItem) fontSize angle in
      let items := <[i := MkDataItem (dataValue dataItem) l]> (dataItems s) in
      match findSite s l r2 with
      | Exhausted points =>
          (Series items points (_adjustedFont s - Fin (1 # 10))%num (_currentIndex s)
             (_processTimeout s) (_ctx s) true (pending s) (nextTimer s),
           Restart)
      | Thrown points e =>
          (Series items points (_adjustedFont s) (_currentIndex s)
             (_processTimeout s) (_ctx s) (invalid s) (pending s) (nextTimer s),
           Raised e)
      | OutOfFuel => (s, Stuck)
      | Accepted points x y =>
          let l := moveTo l x y in
          let items := <[i := MkDataItem (dataValue dataItem) l]> (dataItems s) in
          let ctx := stamp (_ctx s) (x + halfW) (y + halfH) (glyphOf l) in
          let s := Series items points (_adjustedFont s) (_currentIndex s)
                     (_processTimeout s) ctx (invalid s) (pending s) (nextTimer s) in
          if Z.of_nat (_currentIndex s) <? Z.of_nat (length (dataItems s)) - 1
          then (setTimeout s, Placed l)
          else (s, Placed l)
      end
  end.

(** The callback [processItem] schedules: [this._currentIndex++;
    this.processItem(this.dataItems.getIndex(this._currentIndex))], run when
    timer [t] fires. *)
Definition timerFires (s : series) (t : nat) (r1 r2 : num) : series * outcome :=
  let s := Series (dataItems s) (_points s) (_adjustedFont s) (S (_currentIndex s))
             (_processTimeout s) (_ctx s) (invalid s) (pending s ∖ {[t]}) (nextTimer s) in
  processItem s (_currentIndex s) r1 r2.

Definition inBounds (pt : IPoint) : bool :=
  negb ((px pt <? - halfW) || (px pt >? halfW) || (py pt <? - halfH) || (py pt >? halfH)).

(** [validate()].  The label container is not rotated and no mask path is
    set.  The result is [None] when the series has no area and nothing is
    laid out. *)
Definition validate (s : series) (r1 r2 : num) : series * option outcome :=
  let s := Series (Array_sort compareItems (dataItems s)) (_points s) (_adjustedFont s)
             0 (_processTimeout s) (_ctx s) false (pending s) (nextTimer s) in
  let s := disposeTimeout s in
  let w := innerWidth P in
  let h := innerHeight P in
  if (w >? 0) && (h >? 0) then
    let s := Series (dataItems s)
               (List.filter inBounds (spiralPoints w h (step P)))
               (_adjustedFont s) (_currentIndex s) (_processTimeout s)
               (whiteCanvas w h) (invalid s) (pending s) (nextTimer s) in
    let '(s, o) := processItem s (_currentIndex s) r1 r2 in (s, Some o)
  else (s, None).

End Layout.

(** *** Facts about tokenising and counting *)

Lemma flush_nonempty cur : Forall (fun w => w ≠ EmptyString) (flush cur).
Proof. destruct cur; cbn; [constructor|]. by repeat constructor. Qed.

(** Every match is a non-empty string, so [while (word = res.pop())] visits
    all of them: no match is falsy. *)
Lemma matchRuns_nonempty input cur : Forall (fun w => w ≠ EmptyString) (matchRuns input cur).
Proof.
  revert cur. induction input as [|c rest IH]; intros cur; cbn.
  - apply flush_nonempty.
  - destruct (isWordChar c); [apply IH|].
    apply Forall_app. split; [apply flush_nonempty|apply IH].
Qed.

Lemma matchWords_nonempty input : Forall (fun w => w ≠ EmptyString) (matchWords input).
Proof. apply matchRuns_nonempty. Qed.

(** The number of matches equal to [w] up to case. *)
Definition occurrences (w : string) (res : list string) : nat :=
  length (filter (fun t => toLowerCase t = toLowerCase w) res).

Definition keys (words : list entry) : list string :=
  (fun e => toLowerCase (word e)) <$> words.

Lemma addWord_keys_fresh words w :
  toLowerCase w ∉ keys words -> keys (addWord words w) = keys words ++ [toLowerCase w].
Proof.
  unfold keys. induction words as [|item rest IH]; [done|].
  rewrite fmap_cons. intros Hnotin. apply not_elem_of_cons in Hnotin as [Hne Hrest].
  cbn [addWord]. rewrite bool_decide_eq_false_2 by congruence.
  rewrite fmap_cons, IH by done. done.
Qed.

Lemma lowerChar_idempotent c : lowerChar (lowerChar c) = lowerChar c.
Proof.
  destruct c as [[] [] [] [] [] [] [] []]; reflexivity.
Qed.

Lemma toLowerCase_idempotent w : toLowerCase (toLowerCase w) = toLowerCase w.
Proof. induction w as [|c w IH]; cbn; [done|]. by rewrite lowerChar_idempotent, IH. Qed.

Lemma addWord_keys_present words w :
  toLowerCase w ∈ keys words -> keys (addWord words w) = keys words.
Proof.
  unfold keys. induction words as [|item rest IH]; [by intros ?%elem_of_nil|].
  rewrite fmap_cons. intros Hin. cbn [addWord]. case_bool_decide as Heq.
  - rewrite fmap_cons. f_equal. by destruct (isCapitalized w).
  - apply elem_of_cons in Hin as [Hin|Hin]; [congruence|].
    rewrite fmap_cons, IH by done. done.
Qed.

Lemma addWord_NoDup words w : NoDup (keys words) -> NoDup (keys (addWord words w)).
Proof.
  intros Hnd. destruct (decide (toLowerCase w ∈ keys words)) as [Hin|Hnotin].
  - by rewrite addWord_keys_present.
  - rewrite addWord_keys_fresh by done. apply NoDup_app. split; [done|].
    split; [|apply NoDup_singleton].
    intros x Hx ->%list_elem_of_singleton. done.
Qed.

(** The value stored for the words equal to [k] up to case, 0 if none. *)
Fixpoint tally (k : string) (words : list entry) : nat :=
  match words with
  | [] => 0
  | e :: rest =>
      if bool_decide (toLowerCase (word e) = toLowerCase k) then value e
      else tally k rest
  end.

Lemma addWord_tally words w k :
  tally k (addWord words w)
  = (tally k words + if bool_decide (toLowerCase w = toLowerCase k) then 1 else 0)%nat.
Proof.
  induction words as [|item rest IH]; cbn [addWord tally].
  - cbn. case_bool_decide; lia.
  - destruct (decide (toLowerCase (word item) = toLowerCase w)) as [Hiw|Hiw].
    + rewrite (bool_decide_eq_true_2 _ Hiw). cbn [tally word value].
      assert (Hsp : toLowerCase (if isCapitalized w then word item else w) = toLowerCase w)
        by (by destruct (isCapitalized w)).
      rewrite Hsp, Hiw. case_bool_decide; lia.
    + rewrite (bool_decide_eq_false_2 _ Hiw). cbn [tally]. rewrite IH.
      repeat case_bool_decide; try lia; congruence.
Qed.

Lemma foldl_addWord_tally res words k :
  tally k (foldl addWord words res) = (tally k words + occurrences k res)%nat.
Proof.
  revert words. induction res as [|w res IH]; intros words; cbn [foldl].
  - unfold occurrences. cbn. lia.
  - rewrite IH, addWord_tally. unfold occurrences. rewrite filter_cons.
    case_bool_decide; case_decide; try done; cbn; lia.
Qed.

Lemma occurrences_reverse k res : occurrences k (reverse res) = occurrences k res.
Proof.
  unfold occurrences. rewrite reverse_Permutation. done.
Qed.

Lemma tally_elem words e :
  NoDup (keys words) -> e ∈ words -> tally (word e) words = value e.
Proof.
  unfold keys. induction words as [|x rest IH]; [by intros _ ?%elem_of_nil|].
  rewrite fmap_cons. intros [Hx Hnd]%NoDup_cons [->|Hin]%elem_of_cons; cbn [tally].
  - by rewrite bool_decide_eq_true_2.
  - rewrite bool_decide_eq_false_2; [by apply IH|].
    intros Heq. apply Hx. rewrite Heq. apply list_elem_of_fmap. by exists e.
Qed.

Lemma foldl_addWord_NoDup res words :
  NoDup (keys words) -> NoDup (keys (foldl addWord words res)).
Proof.
  revert words. induction res as [|w res IH]; intros words Hnd; cbn [foldl]; [done|].
  by apply IH, addWord_NoDup.
Qed.

(** After the counting loop there is one entry per word up to case, and its
    value is the number of matches equal to it up to case. *)
Lemma countWords_counts res :
  NoDup (keys (countWords res)) /\
  (forall e, e ∈ countWords res -> value e = occurrences (word e) res) /\
  (forall t, t ∈ res -> toLowerCase t ∈ keys (countWords res)).
Proof.
  unfold countWords. split; [|split].
  - apply foldl_addWord_NoDup. constructor.
  - intros e He.
    rewrite <- (tally_elem _ e (foldl_addWord_NoDup _ [] (NoDup_nil_2 (A:=string))) He).
    by rewrite foldl_addWord_tally, occurrences_reverse.
  - intros t Ht.
    assert (Hpos : (0 < tally t (foldl addWord [] (reverse res)))%nat).
    { rewrite foldl_addWord_tally, occurrences_reverse. cbn [tally].
      unfold occurrences.
      assert (t ∈ filter (fun t0 => toLowerCase t0 = toLowerCase t) res) as Hin
        by (by apply list_elem_of_filter).
      destruct (filter _ res); [by apply elem_of_nil in Hin|cbn; lia]. }
    revert Hpos. generalize (foldl addWord [] (reverse res)). intros words.
    unfold keys. induction words as [|x rest IH]; cbn [tally]; [lia|].
    rewrite fmap_cons. case_bool_decide as Hx; intros Hpos.
    + rewrite <- Hx. apply elem_of_cons. by left.
    + apply elem_of_cons. right. by apply IH.
Qed.

(** *** Facts about sorting *)

(** Neighbours in a list are related by [R]. *)
Definition adjacent {A} (R : A -> A -> Prop) (l : list A) : Prop :=
  forall i a b, l !! i = Some a -> l !! S i = Some b -> R a b.

Lemma Sorted_adjacent {A} (R : A -> A -> Prop) l : Sorted R l -> adjacent R l.
Proof.
  induction 1 as [|x l Hs IH Hhd]; intros i a b Ha Hb; [done|].
  destruct i as [|i]; cbn in *.
  - injection Ha as <-. destruct Hhd as [|y l' Hr]; [done|].
    cbn in Hb. by injection Hb as <-.
  - by apply (IH i).
Qed.

Lemma adjacent_take {A} (R : A -> A -> Prop) n l : adjacent R l -> adjacent R (take n l).
Proof.
  intros Hl i a b Ha Hb.
  apply lookup_take_Some in Ha as [Ha _]. apply lookup_take_Some in Hb as [Hb _].
  by apply (Hl i).
Qed.

Section Sorting.
Context {A : Type} (compare : A -> A -> Z) (R : A -> A -> Prop) (ok : A -> Prop).

(** What it takes of a comparator for [R] to hold between neighbours:
    an element sorted to the front is [R]-before the other. *)
Hypothesis compare_front : forall x y, ok x -> ok y -> compare x y <= 0 -> R x y.
Hypothesis compare_back : forall x y, ok x -> ok y -> 0 < compare x y -> R y x.

Lemma sortInsert_Permutation x l : Permutation (x :: l) (sortInsert compare x l).
Proof.
  induction l as [|y l IH]; cbn; [done|].
  destruct (compare x y <=? 0); [done|].
  rewrite <- IH. apply perm_swap.
Qed.

Lemma Array_sort_Permutation l : Permutation l (Array_sort compare l).
Proof.
  induction l as [|x l IH]; cbn; [done|].
  rewrite <- sortInsert_Permutation. by constructor.
Qed.

Lemma sortInsert_Sorted x l :
  ok x -> Forall ok l -> Sorted R l -> Sorted R (sortInsert compare x l).
Proof.
  intros Hx Hok Hs. induction Hs as [|y l Hs IH Hhd]; cbn.
  - by repeat constructor.
  - apply Forall_cons in Hok as [Hy Hok].
    destruct (Z.leb_spec (compare x y) 0) as [Hle|Hgt].
    + constructor; [by constructor|]. constructor. by apply compare_front.
    + constructor; [by apply IH|].
      destruct Hhd as [|z l' Hr]; cbn.
      * constructor. by apply compare_back.
      * apply Forall_cons in Hok as [Hz _].
        destruct (compare x z <=? 0); constructor; [by apply compare_back|done].
Qed.

Lemma Array_sort_Sorted l : Forall ok l -> Sorted R (Array_sort compare l).
Proof.
  induction l as [|x l IH]; cbn; [constructor|].
  intros [Hx Hok]%Forall_cons. apply sortInsert_Sorted; [done| |by apply IH].
  by rewrite <- Array_sort_Permutation.
Qed.
End Sorting.

(** [getWords] ranks its result by descending value. *)
Lemma getWords_descending p input words :
  getWords p input = Some words ->
  adjacent (fun a b => (value b <= value a)%nat) words.
Proof.
  unfold getWords. destruct input; [done|].
  destruct (matchWords _) as [|t res]; [by intros [= <-] i ? ? ?|].
  intros [= <-].
  assert (adjacent (fun a b => (value b <= value a)%nat)
            (Array_sort compareEntries (filterWords p (countWords (t :: res))))) as Hs.
  { apply Sorted_adjacent.
    apply (Array_sort_Sorted compareEntries _ (fun _ => True)); [| |by apply Forall_true].
    - intros x y _ _. unfold compareEntries.
      destruct (Nat.eqb_spec (value x) (value y)); [lia|].
      destruct (Nat.ltb_spec (value y) (value x)); lia.
    - intros x y _ _. unfold compareEntries.
      destruct (Nat.eqb_spec (value x) (value y)); [lia|].
      destruct (Nat.ltb_spec (value y) (value x)); lia. }
  unfold truncate. destruct (maxCount p) as [m|]; [|done].
  destruct (m <? _)%nat; [by apply adjacent_take|done].
Qed.

(** C9. [getWords] returns [undefined] for the falsy string (the empty one),
    the empty array for a non-empty string in which nothing matches the word
    pattern, and a populated array only when something matches. *)
Theorem getWords_undefined_empty_populated (p : wordSettings) :
  getWords p EmptyString = None /\
  (forall input, input ≠ EmptyString -> matchWords input = [] ->
     getWords p input = Some []) /\
  (forall input words, getWords p input = Some words -> words ≠ [] ->
     input ≠ EmptyString /\ matchWords input ≠ []).
Proof.
  split; [done|]. split.
  - intros input Hne Hnil. unfold getWords. destruct input; [done|]. by rewrite Hnil.
  - intros input words Hget Hpop. unfold getWords in Hget.
    destruct input; [done|]. split; [done|].
    destruct (matchWords _); [|done]. by injection Hget as <-.
Qed.

(** *** The filtering loop against the filter it stands for *)

(** The loop never reads past the end: an index below the length stays at
    most the length after the splices at it, so [words[i]] is defined at
    every turn. *)
Lemma filterAt_length p i (words : list entry) :
  (i < length words)%nat -> (i <= length (filterAt p i words))%nat.
Proof.
  intros Hi. unfold filterAt. destruct (words !! i) as [w|]; [|lia].
  assert (Hdel : forall l : list entry, (i <= length l)%nat -> (i <= length (splice1 i l))%nat).
  { intros l Hl. unfold splice1.
    rewrite delete_take_drop, length_app, length_take, length_drop. lia. }
  repeat match goal with |- context [if ?b then _ else _] => destruct b end;
    repeat apply Hdel; lia.
Qed.

Lemma filterLoop_in_range p n (words : list entry) :
  (n <= length words)%nat ->
  match n with
  | O => True
  | S i => is_Some (words !! i) /\ (i <= length (filterAt p i words))%nat
  end.
Proof.
  destruct n as [|i]; [done|]. intros Hn. split.
  - apply lookup_lt_is_Some. lia.
  - apply filterAt_length. lia.
Qed.

(** An entry stays when it passes the three tests. *)
Definition keeps (p : wordSettings) (e : entry) : bool :=
  negb (ltOpt (value e) (minValue p))
  && negb (String.length (word e) <? minWordLength p)%nat
  && negb (bool_decide (word e ∈ excludeWords p)).

(** [getWords] as the documentation of the three settings describes it:
    count, drop the entries that fail a test, rank, truncate. *)
Definition getWords_spec (p : wordSettings) (input : string) : option (list entry) :=
  match input with
  | EmptyString => None
  | _ =>
      match matchWords input with
      | [] => Some []
      | res =>
          Some (truncate (maxCount p)
                  (Array_sort compareEntries (List.filter (keeps p) (countWords res))))
      end
  end.

(** The number of tests an entry fails. *)
Definition failures (p : wordSettings) (e : entry) : nat :=
  ((if ltOpt (value e) (minValue p) then 1 else 0)
   + (if String.length (word e) <? minWordLength p then 1 else 0)
   + (if bool_decide (word e ∈ excludeWords p) then 1 else 0))%nat.

(** While no entry fails two tests at once, the loop is the filter. *)
Lemma filterLoop_filter p pre post :
  Forall (fun e => (failures p e <= 1)%nat) pre ->
  filterLoop p (length pre) (pre ++ post) = List.filter (keeps p) pre ++ post.
Proof.
  revert post. induction pre as [|w pre IH] using rev_ind; intros post Hle; [done|].
  apply Forall_app in Hle as [Hpre Hw]. rewrite Forall_singleton in Hw.
  rewrite length_app, Nat.add_1_r. cbn [filterLoop].
  unfold filterAt. rewrite <- (assoc_L (++)). cbn [app].
  rewrite list_lookup_middle by done.
  unfold failures in Hw. unfold splice1.
  assert (Hdel : delete (length pre) (pre ++ w :: post) = pre ++ post).
  { rewrite delete_middle. done. }
  rewrite List.filter_app. cbn [List.filter]. unfold keeps at 2.
  destruct (ltOpt (value w) (minValue p)),
    (String.length (word w) <? minWordLength p)%nat,
    (bool_decide (word w ∈ excludeWords p)); cbn in Hw; try lia; cbn [negb andb];
    rewrite ?Hdel, IH by done; by rewrite <- ?(assoc_L (++)).
Qed.

(** Counted entries have a positive value and a non-empty word. *)
Definition counted (e : entry) : Prop := (1 <= value e)%nat /\ word e ≠ EmptyString.

Lemma addWord_counted words w :
  w ≠ EmptyString -> Forall counted words -> Forall counted (addWord words w).
Proof.
  intros Hw. induction 1 as [|item rest [Hv Hne] Hrest IH]; cbn [addWord].
  - by repeat constructor.
  - case_bool_decide; constructor; try done.
    split; cbn; [lia|]. by destruct (isCapitalized w).
Qed.

Lemma countWords_counted res :
  Forall (fun w => w ≠ EmptyString) res -> Forall counted (countWords res).
Proof.
  intros Hres. unfold countWords.
  assert (Hrev : Forall (fun w => w ≠ EmptyString) (reverse res))
    by (by rewrite reverse_Permutation).
  revert Hrev. generalize (reverse res). intros l.
  assert (Hnil : Forall counted []) by constructor.
  revert Hnil. generalize (@nil entry).
  induction l as [|w l IH]; intros words Hwords Hl; cbn [foldl]; [done|].
  apply Forall_cons in Hl as [Hw Hl]. by apply IH; [apply addWord_counted|].
Qed.

Lemma filter_all {A} (f : A -> bool) (l : list A) :
  Forall (fun x => f x = true) l -> List.filter f l = l.
Proof. induction 1 as [|x l Hx _ IH]; cbn; [done|]. by rewrite Hx, IH. Qed.

(** Where no counted entry fails two tests at once, [getWords] is the
    filter the settings describe. *)
Lemma getWords_spec_when_tests_disjoint p input :
  Forall (fun e => (failures p e <= 1)%nat) (countWords (matchWords input)) ->
  getWords p input = getWords_spec p input.
Proof.
  intros Hone. unfold getWords, getWords_spec. destruct input as [|c input]; [done|].
  pose proof (matchWords_nonempty (String c input)) as Hne.
  destruct (matchWords (String c input)) as [|t res] eqn:Hm; [done|].
  do 3 f_equal. unfold filterWords.
  destruct (gt1 (minValue p) || (1 <? minWordLength p)%nat
            || (0 <? length (excludeWords p))%nat) eqn:Hguard.
  - pose proof (filterLoop_filter p _ [] Hone) as Hf. by rewrite !app_nil_r in Hf.
  - symmetry. apply filter_all.
    apply orb_false_iff in Hguard as [[Hv Hl]%orb_false_iff Hx].
    apply Nat.ltb_ge in Hl, Hx.
    eapply Forall_impl; [apply (countWords_counted _ Hne)|].
    intros e [He1 He2]. unfold keeps.
    assert (Hlen : (1 <= String.length (word e))%nat)
      by (destruct (word e); [done|cbn; lia]).
    assert (Hexc : excludeWords p = []) by (destruct (excludeWords p); [done|cbn in Hx; lia]).
    rewrite Hexc. rewrite (bool_decide_eq_false_2 (word e ∈ [])) by apply not_elem_of_nil.
    replace (String.length (word e) <? minWordLength p)%nat with false
      by (symmetry; apply Nat.ltb_ge; lia).
    unfold gt1, ltOpt in *. destruct (minValue p) as [m|]; [|done].
    apply Nat.ltb_ge in Hv.
    replace (value e <? m)%nat with false by (symmetry; apply Nat.ltb_ge; lia). done.
Qed.

(** C8 (the slip).  Each of the three tests of the filtering loop splices on
    its own, so an entry that fails two of them also takes out the entry
    behind it, which had passed.  With [minValue = 2] and
    [minWordLength = 3], the text "hello hello ab" loses "hello" (two
    occurrences, five letters) along with "ab". *)
Theorem getWords_drops_passing_word :
  let p := WordSettings [] (Some 2%nat) 3 None in
  let input := "hello hello ab"%string in
  countWords (matchWords input) = [Entry "ab" 1; Entry "hello" 2] /\
  keeps p (Entry "hello" 2) = true /\
  getWords p input = Some [] /\
  getWords_spec p input = Some [Entry "hello" 2].
Proof. vm_compute. done. Qed.

(** *** What [getWords] returns, whatever the filter drops *)

Lemma splice1_sublist {A} i (l : list A) : splice1 i l `sublist_of` l.
Proof. apply sublist_delete. Qed.

Lemma filterAt_sublist p i words : filterAt p i words `sublist_of` words.
Proof.
  unfold filterAt. destruct (words !! i) as [w|]; [|done].
  repeat match goal with |- context [if ?b then _ else _] => destruct b end;
    repeat (etrans; [apply splice1_sublist|]); done.
Qed.

Lemma filterLoop_sublist p n words : filterLoop p n words `sublist_of` words.
Proof.
  revert words. induction n as [|i IH]; intros words; cbn [filterLoop]; [done|].
  etrans; [apply IH|apply filterAt_sublist].
Qed.

Lemma filterWords_sublist p words : filterWords p words `sublist_of` words.
Proof. unfold filterWords. destruct (_ || _); [apply filterLoop_sublist|done]. Qed.

Lemma truncate_sublist {A} m (l : list A) : truncate m l `sublist_of` l.
Proof.
  unfold truncate. destruct m as [m|]; [|done].
  destruct (m <? length l)%nat; [apply sublist_take|done].
Qed.

(** The result is cut from the counted entries: what is left of them after
    the filter, reordered, and cut off at [maxCount]. *)
Lemma getWords_from_counts p input words :
  getWords p input = Some words ->
  exists kept,
    kept `sublist_of` countWords (matchWords input) /\
    kept = filterWords p (countWords (matchWords input)) /\
    words `sublist_of` Array_sort compareEntries kept /\
    Array_sort compareEntries kept ≡ₚ kept.
Proof.
  unfold getWords. destruct input as [|c input]; [done|].
  destruct (matchWords (String c input)) as [|t res] eqn:Hm.
  - intros [= <-]. eexists. split; [apply filterWords_sublist|]. split; [done|].
    split; [apply sublist_nil_l|]. symmetry. apply Array_sort_Permutation.
  - intros [= <-]. eexists. split; [apply filterWords_sublist|]. split; [done|].
    split; [apply truncate_sublist|]. symmetry. apply Array_sort_Permutation.
Qed.

Lemma getWords_elem p input words e :
  getWords p input = Some words -> e ∈ words ->
  e ∈ filterWords p (countWords (matchWords input)) /\
  e ∈ countWords (matchWords input).
Proof.
  intros (kept & Hk & -> & Hw & Hperm)%getWords_from_counts He.
  assert (e ∈ filterWords p (countWords (matchWords input))) as Hin.
  { rewrite <- Hperm. by eapply elem_of_sublist. }
  split; [done|]. by eapply elem_of_sublist.
Qed.

(** The tests of the loop leave behind only entries that pass all three. *)
Definition passes (p : wordSettings) (e : entry) : Prop := keeps p e = true.

Lemma drop_splice1 {A} i (l : list A) : drop i (splice1 i l) = drop (S i) l.
Proof.
  unfold splice1. revert l. induction i as [|i IH]; intros [|x l]; cbn; done.
Qed.

Lemma take_splice1 {A} i (l : list A) : take i (splice1 i l) = take i l.
Proof.
  unfold splice1. revert l. induction i as [|i IH]; intros [|x l]; cbn; [done..|].
  by rewrite IH.
Qed.

Lemma Forall_drop_S {A} (P : A -> Prop) i l : Forall P (drop i l) -> Forall P (drop (S i) l).
Proof. intros H. rewrite <- (Nat.add_1_r i), <- drop_drop. by apply Forall_drop. Qed.

Lemma filterAt_sound p i words :
  Forall (passes p) (drop (S i) words) ->
  Forall (passes p) (drop i (filterAt p i words)) /\
  take i (filterAt p i words) = take i words.
Proof.
  intros Hrest. unfold filterAt. destruct (words !! i) as [w|] eqn:Hw.
  - assert (Hsp : forall l : list entry, Forall (passes p) (drop i l) ->
                    Forall (passes p) (drop i (splice1 i l)))
      by (intros l Hl; rewrite drop_splice1; by apply Forall_drop_S).
    assert (Hfirst : Forall (passes p) (drop i (splice1 i words)))
      by (by rewrite drop_splice1).
    assert (Hkeep : keeps p w = true -> Forall (passes p) (drop i words)).
    { intros Hk. rewrite (drop_S _ _ _ Hw). by constructor. }
    unfold keeps in Hkeep.
    destruct (ltOpt (value w) (minValue p)),
      (String.length (word w) <? minWordLength p)%nat,
      (bool_decide (word w ∈ excludeWords p)); cbn in Hkeep;
      rewrite ?take_splice1; (split; [|done]); auto.
  - split; [|done]. apply lookup_ge_None in Hw. rewrite drop_ge by lia. constructor.
Qed.

Lemma filterLoop_sound p n words :
  Forall (passes p) (drop n words) -> Forall (passes p) (filterLoop p n words).
Proof.
  revert words. induction n as [|i IH]; intros words Hrest; cbn [filterLoop].
  - by rewrite drop_0 in Hrest.
  - apply IH. by apply filterAt_sound.
Qed.

Lemma counted_pass_without_filter p e :
  gt1 (minValue p) || (1 <? minWordLength p)%nat || (0 <? length (excludeWords p))%nat = false ->
  counted e -> passes p e.
Proof.
  intros Hguard [He1 He2]. unfold passes, keeps.
  apply orb_false_iff in Hguard as [[Hv Hl]%orb_false_iff Hx].
  apply Nat.ltb_ge in Hl, Hx.
  assert (Hlen : (1 <= String.length (word e))%nat)
    by (destruct (word e); [done|cbn; lia]).
  assert (Hexc : excludeWords p = []) by (destruct (excludeWords p); [done|cbn in Hx; lia]).
  rewrite Hexc. rewrite (bool_decide_eq_false_2 (word e ∈ [])) by apply not_elem_of_nil.
  replace (String.length (word e) <? minWordLength p)%nat with false
    by (symmetry; apply Nat.ltb_ge; lia).
  unfold gt1, ltOpt in *. destruct (minValue p) as [m|]; [|done].
  apply Nat.ltb_ge in Hv.
  replace (value e <? m)%nat with false by (symmetry; apply Nat.ltb_ge; lia). done.
Qed.

Lemma filterWords_sound p words :
  Forall counted words -> Forall (passes p) (filterWords p words).
Proof.
  intros Hc. unfold filterWords.
  destruct (gt1 (minValue p) || (1 <? minWordLength p)%nat
            || (0 <? length (excludeWords p))%nat) eqn:Hguard.
  - apply filterLoop_sound. rewrite drop_all. constructor.
  - eapply Forall_impl; [done|]. intros e. by apply counted_pass_without_filter.
Qed.

(** X15. Whatever [getWords] returns passes the three settings, the double
    splice notwithstanding: every entry of the result has a value of at
    least [minValue] (if set) and a word of at least [minWordLength]
    characters that is not in [excludeWords]. *)
Theorem getWords_entries_pass_settings p input words e :
  getWords p input = Some words -> e ∈ words ->
  (forall m, minValue p = Some m -> (m <= value e)%nat) /\
  (minWordLength p <= String.length (word e))%nat /\
  word e ∉ excludeWords p.
Proof.
  intros Hget He. destruct (getWords_elem _ _ _ _ Hget He) as [Hin _].
  pose proof (filterWords_sound p _ (countWords_counted _ (matchWords_nonempty input))) as Hs.
  rewrite Forall_forall in Hs. specialize (Hs e Hin).
  unfold passes, keeps in Hs.
  apply andb_true_iff in Hs as [[Hv Hl]%andb_true_iff Hx].
  apply negb_true_iff in Hv, Hl, Hx.
  split; [|split].
  - intros m Hm. rewrite Hm in Hv. cbn in Hv. apply Nat.ltb_ge in Hv. done.
  - by apply Nat.ltb_ge in Hl.
  - by apply bool_decide_eq_false in Hx.
Qed.

(** Every spelling an entry carries is one of the matches. *)
Lemma addWord_words words w (P : string -> Prop) :
  P w -> Forall (fun e => P (word e)) words -> Forall (fun e => P (word e)) (addWord words w).
Proof.
  intros Hw. induction 1 as [|item rest Hitem Hrest IH]; cbn [addWord].
  - by repeat constructor.
  - case_bool_decide; constructor; try done. cbn. by destruct (isCapitalized w).
Qed.

Lemma countWords_words res : Forall (fun e => word e ∈ res) (countWords res).
Proof.
  unfold countWords.
  assert (Hsub : forall t, t ∈ reverse res -> t ∈ res) by (intros t; by rewrite elem_of_reverse).
  revert Hsub. generalize (reverse res). intros l Hsub.
  assert (Hnil : Forall (fun e => word e ∈ res) []) by constructor.
  revert Hnil. generalize (@nil entry).
  induction l as [|w l IH]; intros words Hwords; cbn [foldl]; [done|].
  apply IH.
  - intros t Ht. apply Hsub. by right.
  - apply (addWord_words _ _ (fun t => t ∈ res)); [|done]. apply Hsub. by left.
Qed.

(** X16. The value of every entry [getWords] returns is the number of
    matches in the text equal to its word up to case, at least 1, and its
    word is spelled as one of these matches is. *)
Theorem getWords_values_are_counts p input words e :
  getWords p input = Some words -> e ∈ words ->
  value e = occurrences (word e) (matchWords input) /\
  (1 <= value e)%nat /\
  word e ∈ matchWords input.
Proof.
  intros Hget He. destruct (getWords_elem _ _ _ _ Hget He) as [_ Hin].
  destruct (countWords_counts (matchWords input)) as (_ & Hcount & _).
  pose proof (countWords_counted _ (matchWords_nonempty input)) as Hc.
  pose proof (countWords_words (matchWords input)) as Hw.
  rewrite Forall_forall in Hc, Hw.
  split; [by apply Hcount|]. split; [by apply Hc|by apply Hw].
Qed.

(** X17. [getWords] never returns a word twice, in any mix of cases, and
    never more than [maxCount] entries when [maxCount] is set. *)
Theorem getWords_distinct_and_capped p input words :
  getWords p input = Some words ->
  NoDup (keys words) /\
  (forall m, maxCount p = Some m -> (length words <= m)%nat).
Proof.
  intros Hget.
  pose proof Hget as (kept & Hk & Hkept & Hw & Hperm)%getWords_from_counts.
  destruct (countWords_counts (matchWords input)) as (Hnd & _ & _).
  split.
  - unfold keys in *. eapply sublist_NoDup; [|by apply fmap_sublist].
    rewrite Hperm. eapply sublist_NoDup; [done|by apply fmap_sublist].
  - intros m Hm. revert Hget. unfold getWords. destruct input as [|c input]; [done|].
    destruct (matchWords _) as [|t res]; [intros [= <-]; cbn; lia|].
    intros [= <-]. rewrite Hm. unfold truncate.
    destruct (Nat.ltb_spec m (length (Array_sort compareEntries
                (filterWords p (countWords (t :: res)))))); [|lia].
    rewrite length_take. lia.
Qed.

Lemma addWord_total words w :
  sum_list (value <$> addWord words w) = S (sum_list (value <$> words)).
Proof.
  induction words as [|item rest IH]; cbn [addWord]; [done|].
  case_bool_decide; rewrite !fmap_cons; cbn [sum_list_with value id]; [lia|].
  rewrite IH. lia.
Qed.

Lemma countWords_total res : sum_list (value <$> countWords res) = length res.
Proof.
  unfold countWords. rewrite <- (length_reverse res).
  assert (Hgen : forall l words,
            sum_list (value <$> foldl addWord words l)
            = (sum_list (value <$> words) + length l)%nat).
  { induction l as [|w l IH]; intros words; cbn [foldl length]; [lia|].
    rewrite IH, addWord_total. lia. }
  by rewrite Hgen.
Qed.

(** X18. With the settings the constructor leaves ([minValue] and [maxCount]
    unset, [minWordLength] 1, nothing excluded), and whenever no setting
    asks for more than that, nothing is dropped: the result holds the
    counted entries, every match of the text is accounted for by one entry,
    and the values add up to the number of matches. *)
Theorem getWords_counts_every_match p input words :
  (forall m, minValue p = Some m -> (m <= 1)%nat) ->
  (minWordLength p <= 1)%nat -> excludeWords p = [] -> maxCount p = None ->
  getWords p input = Some words ->
  words ≡ₚ countWords (matchWords input) /\
  sum_list (value <$> words) = length (matchWords input) /\
  (forall t, t ∈ matchWords input -> toLowerCase t ∈ keys words).
Proof.
  intros Hv Hl Hx Hmax Hget.
  assert (Hperm : words ≡ₚ countWords (matchWords input)).
  { revert Hget. unfold getWords. destruct input as [|c input]; [done|].
    destruct (matchWords _) as [|t res]; [intros [= <-]; by vm_compute|].
    intros [= <-]. rewrite Hmax. cbn [truncate].
    rewrite <- Array_sort_Permutation. unfold filterWords.
    rewrite Hx. cbn [length]. change (0 <? 0)%nat with false.
    replace (1 <? minWordLength p)%nat with false by (symmetry; apply Nat.ltb_ge; lia).
    unfold gt1, ltOpt. destruct (minValue p) as [m|] eqn:Hm; [|by cbn].
    specialize (Hv m eq_refl).
    replace (1 <? m)%nat with false by (symmetry; apply Nat.ltb_ge; lia). by cbn. }
  split; [done|]. split.
  - rewrite Hperm. apply countWords_total.
  - intros t Ht. unfold keys. rewrite Hperm.
    by apply (countWords_counts (matchWords input)).
Qed.

(** *** Which spelling an entry keeps *)

(** An entry is spelled capitalized only if every match seen for it was. *)
Definition spellingOk (seen : string -> Prop) (words : list entry) : Prop :=
  forall e, e ∈ words -> isCapitalized (word e) = true ->
  forall t, seen t -> toLowerCase t = toLowerCase (word e) -> isCapitalized t = true.

Lemma addWord_keys_incl words w k : k ∈ keys words -> k ∈ keys (addWord words w).
Proof.
  intros Hk. destruct (decide (toLowerCase w ∈ keys words)).
  - by rewrite addWord_keys_present.
  - rewrite addWord_keys_fresh by done. apply elem_of_app. by left.
Qed.

Lemma addWord_key_in words w : toLowerCase w ∈ keys (addWord words w).
Proof.
  destruct (decide (toLowerCase w ∈ keys words)).
  - by rewrite addWord_keys_present.
  - rewrite addWord_keys_fresh by done. apply elem_of_app. right. by apply list_elem_of_singleton.
Qed.

Lemma addWord_spelling (seen : string -> Prop) w words :
  NoDup (keys words) -> spellingOk seen words ->
  (forall t, seen t -> toLowerCase t = toLowerCase w -> toLowerCase w ∈ keys words) ->
  spellingOk (fun t => seen t \/ t = w) (addWord words w).
Proof.
  unfold keys. induction words as [|item rest IH]; intros Hnd Hok Hseen.
  - cbn [addWord]. intros e ->%list_elem_of_singleton Hcap t [Ht| ->] Hkey; [|done].
    cbn [word] in Hkey. by apply Hseen, elem_of_nil in Hkey.
  - rewrite fmap_cons in Hnd, Hseen. apply NoDup_cons in Hnd as [Hitem Hnd].
    cbn [addWord]. case_bool_decide as Hk.
    + intros e [->|He]%elem_of_cons Hcap t Ht Hkey.
      * cbn [word] in Hcap, Hkey. destruct (isCapitalized w) eqn:Hw.
        -- destruct Ht as [Ht| ->]; [|done]. eapply (Hok item); [by left|done..].
        -- destruct Ht as [Ht| ->]; [|congruence]. congruence.
      * assert (Hne : toLowerCase (word e) ≠ toLowerCase (word item)).
        { intros Heq. apply Hitem. rewrite <- Heq. apply list_elem_of_fmap. by exists e. }
        destruct Ht as [Ht| ->]; [|congruence].
        eapply (Hok e); [by right|done..].
    + intros e [->|He]%elem_of_cons Hcap t Ht Hkey.
      * destruct Ht as [Ht| ->]; [|congruence]. eapply (Hok item); [by left|done..].
      * eapply (IH Hnd); [| |done..].
        -- intros e' He'. apply Hok. by right.
        -- intros t' Ht' Hkey'. specialize (Hseen t' Ht' Hkey').
           apply elem_of_cons in Hseen as [Heq|Hin]; [congruence|done].
Qed.

Lemma foldl_addWord_spelling l :
  forall words (seen : string -> Prop),
    NoDup (keys words) -> spellingOk seen words ->
    (forall t, seen t -> toLowerCase t ∈ keys words) ->
    spellingOk (fun t => seen t \/ t ∈ l) (foldl addWord words l) /\
    (forall t, seen t \/ t ∈ l -> toLowerCase t ∈ keys (foldl addWord words l)).
Proof.
  induction l as [|w l IH]; intros words seen Hnd Hok Hseen; cbn [foldl].
  - split.
    + intros e He Hcap t [Ht|Ht%elem_of_nil] Hkey; [|done]. by eapply Hok.
    + intros t [Ht|Ht%elem_of_nil]; [|done]. by apply Hseen.
  - destruct (IH (addWord words w) (fun t => seen t \/ t = w)) as [Hok' Hseen'].
    + by apply addWord_NoDup.
    + apply addWord_spelling; [done..|]. intros t Ht <-. by apply Hseen.
    + intros t [Ht| ->]; [by apply addWord_keys_incl, Hseen|apply addWord_key_in].
    + split.
      * intros e He Hcap t Ht Hkey. eapply Hok'; [done..| |done].
        destruct Ht as [Ht|[->|Ht]%elem_of_cons]; auto.
      * intros t Ht. apply Hseen'.
        destruct Ht as [Ht|[->|Ht]%elem_of_cons]; auto.
Qed.

Lemma countWords_spelling res : spellingOk (fun t => t ∈ res) (countWords res).
Proof.
  destruct (foldl_addWord_spelling (reverse res) [] (fun _ => False)) as [Hok _].
  - constructor.
  - by intros e He%elem_of_nil.
  - done.
  - intros e He Hcap t Ht Hkey. eapply Hok; [done..| |done].
    right. by apply elem_of_reverse.
Qed.

(** X19. A word is returned capitalized (first letter upper case, the rest
    lower case) only if every occurrence of it in the text is capitalized:
    once an occurrence is spelled otherwise, that spelling or a later one
    of the kind is kept. *)
Theorem getWords_capitalized_only_if_all p input words e t :
  getWords p input = Some words -> e ∈ words ->
  isCapitalized (word e) = true ->
  t ∈ matchWords input -> toLowerCase t = toLowerCase (word e) ->
  isCapitalized t = true.
Proof.
  intros Hget He Hcap Ht Hkey. destruct (getWords_elem _ _ _ _ Hget He) as [_ Hin].
  by eapply (countWords_spelling (matchWords input)).
Qed.

(** *** The shape of the matches *)

Fixpoint allWordChars (s : string) : bool :=
  match s with
  | EmptyString => true
  | String c s' => isWordChar c && allWordChars s'
  end.

Lemma append_cons x (a b : string) : String x a +:+ b = String x (a +:+ b).
Proof. reflexivity. Qed.

Lemma append_assoc (a b c : string) : (a +:+ b) +:+ c = a +:+ (b +:+ c).
Proof. induction a as [|x a IH]; [done|]. by rewrite !append_cons, IH. Qed.

Lemma append_nil_r (a : string) : a +:+ EmptyString = a.
Proof. induction a as [|x a IH]; [done|]. by rewrite append_cons, IH. Qed.

Lemma allWordChars_app a b :
  allWordChars (a +:+ b) = allWordChars a && allWordChars b.
Proof.
  induction a as [|x a IH]; [done|]. rewrite append_cons. cbn [allWordChars].
  by rewrite IH, andb_assoc.
Qed.

Lemma matchRuns_chars input cur :
  allWordChars cur = true ->
  Forall (fun w => allWordChars w = true) (matchRuns input cur).
Proof.
  revert cur. induction input as [|c rest IH]; intros cur Hcur; cbn [matchRuns].
  - destruct cur; cbn; [constructor|]. by repeat constructor.
  - destruct (isWordChar c) eqn:Hc.
    + apply IH. rewrite allWordChars_app, Hcur. cbn. by rewrite Hc.
    + apply Forall_app. split; [|by apply IH].
      destruct cur; cbn; [constructor|]. by repeat constructor.
Qed.

Lemma matchRuns_separator s1 c s2 cur :
  isWordChar c = false ->
  matchRuns (s1 +:+ String c s2) cur = matchRuns s1 cur ++ matchRuns s2 EmptyString.
Proof.
  intros Hc. revert cur. induction s1 as [|a s1 IH]; intros cur.
  - change (EmptyString +:+ String c s2) with (String c s2). cbn [matchRuns]. by rewrite Hc.
  - rewrite append_cons. cbn [matchRuns].
    destruct (isWordChar a); [apply IH|]. by rewrite IH, (assoc_L (++)).
Qed.

Lemma matchRuns_word s cur :
  allWordChars s = true -> matchRuns s cur = flush (cur +:+ s).
Proof.
  revert cur. induction s as [|a s IH]; intros cur Hs; cbn [matchRuns].
  - by rewrite append_nil_r.
  - cbn in Hs. apply andb_true_iff in Hs as [Ha Hs]. rewrite Ha, IH by done.
    by rewrite append_assoc.
Qed.

(** X20. The matches are the maximal runs of word characters: every match
    is a non-empty string of word characters; a non-empty string of word
    characters is its own single match; a character outside the class
    separates, the matches of [s1 c s2] being those of [s1] followed by
    those of [s2]; the empty text has none. *)
Theorem matchWords_maximal_runs :
  (forall input, Forall (fun w => w ≠ EmptyString /\ allWordChars w = true) (matchWords input)) /\
  (forall s, allWordChars s = true -> s ≠ EmptyString -> matchWords s = [s]) /\
  (forall s1 c s2, isWordChar c = false ->
     matchWords (s1 +:+ String c s2) = matchWords s1 ++ matchWords s2) /\
  matchWords EmptyString = [].
Proof.
  split; [|split; [|split]].
  - intros input. apply Forall_and. split; [apply matchWords_nonempty|].
    by apply matchRuns_chars.
  - intros s Hs Hne. unfold matchWords. rewrite matchRuns_word by done.
    cbn. by destruct s.
  - intros s1 c s2 Hc. by apply matchRuns_separator.
  - done.
Qed.


(** *** Order of numbers *)

Lemma Qle_bool_false p q : Qle_bool p q = false -> (q < p)%Q.
Proof.
  intros H. apply Qnot_le_lt. intros Hle. apply Qle_bool_iff in Hle. congruence.
Qed.

Lemma num_leb_refl_eq a b : (a ==? b)%num = true -> (b <=? a)%num = true.
Proof.
  destruct a, b; cbn; try done. intros H%Qeq_bool_iff.
  apply Qle_bool_iff. rewrite H. apply Qle_refl.
Qed.

Lemma num_ltb_leb a b : (a <? b)%num = true -> (a <=? b)%num = true.
Proof.
  destruct a, b; cbn; try done. intros H%negb_true_iff%Qle_bool_false.
  apply Qle_bool_iff. by apply Qlt_le_weak.
Qed.

Lemma num_leb_total a b :
  a ≠ NaN -> b ≠ NaN -> (b <? a)%num = false -> (a <=? b)%num = true.
Proof.
  destruct a, b; cbn; try done. intros _ _ H%negb_false_iff. done.
Qed.

Lemma num_leb_ltb_false a b : (a <=? b)%num = true -> (b <? a)%num = false.
Proof. destruct a, b; cbn; try done. by intros ->. Qed.

Lemma compareItems_front a b :
  compareItems a b <= 0 -> (dataValue b <=? dataValue a)%num = true.
Proof.
  unfold compareItems.
  destruct (dataValue a ==? dataValue b)%num eqn:He; [intros _; by apply num_leb_refl_eq|].
  destruct (dataValue b <? dataValue a)%num eqn:Hl; [intros _; by apply num_ltb_leb|lia].
Qed.

Lemma compareItems_back a b :
  dataValue a ≠ NaN -> dataValue b ≠ NaN ->
  0 < compareItems a b -> (dataValue a <=? dataValue b)%num = true.
Proof.
  unfold compareItems. intros Ha Hb.
  destruct (dataValue a ==? dataValue b)%num eqn:He; [lia|].
  destruct (dataValue b <? dataValue a)%num eqn:Hl; [lia|].
  intros _. by apply num_leb_total.
Qed.

(** [validate]'s sort ranks data items by descending value, as long as the
    values are numbers. *)
Lemma sort_items_descending items :
  Forall (fun d => dataValue d ≠ NaN) items ->
  adjacent (fun a b => (dataValue b <=? dataValue a)%num = true)
    (Array_sort compareItems items).
Proof.
  intros Hok. apply Sorted_adjacent.
  apply (Array_sort_Sorted compareItems _ (fun d => dataValue d ≠ NaN)); [| |done].
  - intros x y _ _. apply compareItems_front.
  - intros x y. apply compareItems_back.
Qed.

(** *** The sampling loop *)

Lemma sampleLoop_spec fuel (pixel : list Z) stride i :
  (0 < stride)%nat -> (length pixel <= i + fuel * stride)%nat ->
  sampleLoop fuel pixel stride i = true <->
  exists k v, pixel !! (i + k * stride)%nat = Some v /\ v ≠ 255.
Proof.
  intros Hs. revert i. induction fuel as [|fuel IH]; intros i Hlen; cbn [sampleLoop].
  - split; [done|]. intros (k & v & Hk & _).
    apply lookup_lt_Some in Hk. nia.
  - destruct (pixel !! i) as [v|] eqn:Hi.
    + destruct (Z.eqb_spec v 255) as [->|Hv].
      * rewrite IH by lia. split.
        -- intros (k & v & Hk & Hv). exists (S k), v. split; [|done].
           rewrite <- Hk. f_equal. lia.
        -- intros (k & v & Hk & Hv). destruct k as [|k].
           ++ rewrite Nat.add_0_r in Hk. congruence.
           ++ exists k, v. split; [|done]. rewrite <- Hk. f_equal. lia.
      * split; [|done]. intros _. exists 0%nat, v. by rewrite Nat.add_0_r.
    + split; [done|]. intros (k & v & Hk & _).
      apply lookup_ge_None in Hi. apply lookup_lt_Some in Hk. nia.
Qed.

Lemma pow2_pos a : (0 < 2 ^ a)%nat.
Proof. induction a; cbn; lia. Qed.

(** A candidate is hit exactly when one of the bytes at the indices
    [0, 2^accuracy, 2 * 2^accuracy, ...] of the image data is not 255. *)
Lemma intersectsAt_spec (pixel : list Z) a :
  intersectsAt pixel a = true <->
  exists k v, pixel !! (k * 2 ^ a)%nat = Some v /\ v ≠ 255.
Proof.
  unfold intersectsAt. pose proof (pow2_pos a).
  rewrite sampleLoop_spec by nia. done.
Qed.

Lemma intersectsAt_clear (pixel : list Z) a :
  intersectsAt pixel a = false <->
  forall k v, pixel !! (k * 2 ^ a)%nat = Some v -> v = 255.
Proof.
  rewrite <- not_true_iff_false, intersectsAt_spec. split.
  - intros Hno k v Hk. destruct (decide (v = 255)) as [|Hv]; [done|].
    destruct Hno. by exists k, v.
  - intros Hall (k & v & Hk & Hv). by apply Hv, (Hall k).
Qed.

(** *** Splicing never lengthens *)

Lemma splice1_length {A} i (l : list A) : (length (splice1 i l) <= length l)%nat.
Proof.
  unfold splice1. rewrite delete_take_drop, length_app, length_take, length_drop. lia.
Qed.

Lemma pruneOnHit_length l e p (points : list IPoint) :
  (length (pruneOnHit l e p points) <= length points)%nat.
Proof.
  unfold pruneOnHit. destruct (3 <? _)%nat; [|done].
  destruct (angleIs _ _ && _), (absAngleIs _ _ && _); try done;
    repeat (etrans; [apply splice1_length|]); done.
Qed.


(** *** Facts about the canvas *)

Lemma lookup_bind_blocks {A B} (f : A -> list B) (n : nat) (l : list A) (k c : nat) :
  (forall x, length (f x) = n) -> (c < n)%nat ->
  (l ≫= f) !! (k * n + c)%nat = l !! k ≫= fun x => f x !! c.
Proof.
  intros Hlen Hc. revert k. induction l as [|x l IH]; intros k; [done|].
  rewrite bind_cons. destruct k as [|k]; cbn [lookup list_lookup mbind option_bind].
  - rewrite lookup_app_l by (rewrite Hlen; lia). done.
  - rewrite lookup_app_r by (rewrite Hlen; lia). rewrite Hlen.
    replace (S k * n + c - n)%nat with (k * n + c)%nat by lia. apply IH.
Qed.

(** The origin and the extents of the rectangle [getImageData] reads. *)
Definition rectOrigin (sx sy sw sh : Z) : Z * Z :=
  (if sw <? 0 then sx + sw else sx, if sh <? 0 then sy + sh else sy).

(** Pixel [k] of the rectangle, counted row by row. *)
Definition rectPixel (sx sy sw sh : Z) (k : nat) : Z * Z :=
  let '(x0, y0) := rectOrigin sx sy sw sh in
  (x0 + Z.of_nat k mod Z.abs sw, y0 + Z.of_nat k / Z.abs sw).

(** The byte at index [4 * k] of the image data is the red channel of
    pixel [k]. *)
Lemma getImageData_red c sx sy sw sh pixel k :
  getImageData c sx sy sw sh = Some pixel ->
  Z.of_nat k < Z.abs sw * Z.abs sh ->
  pixel !! (k * 4)%nat
  = Some (red (pixelAt c (rectPixel sx sy sw sh k).1 (rectPixel sx sy sw sh k).2)).
Proof.
  unfold getImageData. destruct ((sw =? 0) || (sh =? 0)); [done|].
  intros [= <-] Hk.
  rewrite <- (Nat.add_0_r (k * 4)).
  rewrite (lookup_bind_blocks _ 4) by (done || lia).
  rewrite lookup_seqZ_lt by done. cbn. done.
Qed.

Lemma getImageData_length c sx sy sw sh pixel :
  getImageData c sx sy sw sh = Some pixel ->
  length pixel = (4 * Z.to_nat (Z.abs sw * Z.abs sh))%nat.
Proof.
  unfold getImageData. destruct ((sw =? 0) || (sh =? 0)); [done|].
  intros [= <-]. generalize (Z.abs sw * Z.abs sh). intros n.
  rewrite <- (length_seqZ 0 n). generalize (seqZ 0 n). intros l.
  induction l as [|x l IH]; [done|]. rewrite bind_cons, length_app, IH. cbn. lia.
Qed.

(** The pixels whose bytes the sampling loop reads at stride [2^a]. *)
Definition sampledPixel (a : nat) (sx sy sw sh : Z) (q : Z * Z) : Prop :=
  exists m : nat,
    Z.of_nat (m * 2 ^ a) < 4 * (Z.abs sw * Z.abs sh) /\
    q = rectPixel sx sy sw sh (m * 2 ^ a / 4).

(** A stride that is a power of two reads the red byte of every pixel it
    touches. *)
Lemma stride_reads_red a m : exists m', (m' * 2 ^ a = m * 2 ^ a / 4 * 4)%nat.
Proof.
  destruct a as [|[|a]].
  - exists (m / 4 * 4)%nat. cbn. rewrite !Nat.mul_1_r. done.
  - exists (m / 2 * 2)%nat. cbn [Nat.pow].
    replace (m * (2 * (2 * 1)))%nat with (m * 4)%nat by lia.
    replace (m * (2 * 1) / 4)%nat with (m / 2)%nat; [lia|].
    replace (m * (2 * 1))%nat with (m * 2)%nat by lia.
    replace 4%nat with (2 * 2)%nat by done.
    rewrite <- Nat.Div0.div_div, Nat.div_mul by done. done.
  - exists m. replace (2 ^ S (S a))%nat with (2 ^ a * 4)%nat by (cbn; lia).
    rewrite Nat.mul_assoc, Nat.div_mul by done. done.
Qed.

(** At an accepted site every sampled pixel is white in its red channel. *)
Lemma accepted_samples_clear c a sx sy sw sh pixel q :
  getImageData c sx sy sw sh = Some pixel ->
  intersectsAt pixel a = false ->
  sampledPixel a sx sy sw sh q ->
  red (pixelAt c q.1 q.2) = 255.
Proof.
  intros Hg Hclear (m & Hm & ->).
  destruct (stride_reads_red a m) as [m' Hm'].
  assert (Hk : Z.of_nat (m * 2 ^ a / 4) < Z.abs sw * Z.abs sh).
  { pose proof (Nat.Div0.mul_div_le (m * 2 ^ a) 4). lia. }
  pose proof (getImageData_red _ _ _ _ _ _ _ Hg Hk) as Hred.
  rewrite <- Hm' in Hred.
  by apply (proj1 (intersectsAt_clear pixel a) Hclear m').
Qed.

Lemma painted_stamp c cx cy g x y :
  painted (stamp c cx cy g) !! (x, y)
  = if bool_decide ((x - cx, y - cy) ∈ g) && inCanvas c x y
    then Some blueInk else painted c !! (x, y).
Proof.
  unfold stamp. cbn [painted].
  induction g as [|d g IH]; cbn [foldr].
  - rewrite bool_decide_eq_false_2 by apply not_elem_of_nil. done.
  - destruct (decide ((x - cx, y - cy) = d)) as [<-|Hne].
    + cbn [fst snd]. replace (cx + (x - cx)) with x by lia.
      replace (cy + (y - cy)) with y by lia.
      rewrite (bool_decide_eq_true_2 (_ ∈ _ :: g)) by apply list_elem_of_here.
      destruct (inCanvas c x y) eqn:Hin; cbn [andb].
      * by rewrite lookup_insert_eq.
      * rewrite IH, ?Hin, andb_false_r. done.
    + assert (Hxy : (cx + d.1, cy + d.2) ≠ (x, y)).
      { intros [= <- <-]. apply Hne. destruct d. cbn. f_equal; lia. }
      assert (Hb : bool_decide ((x - cx, y - cy) ∈ d :: g)
                   = bool_decide ((x - cx, y - cy) ∈ g)).
      { apply bool_decide_ext. rewrite elem_of_cons.
        split; [by intros [?|?]|by right]. }
      rewrite Hb. destruct (inCanvas c (cx + d.1) (cy + d.2)); [|done].
      by rewrite lookup_insert_ne.
Qed.

Lemma pixelAt_stamp c cx cy g x y :
  pixelAt (stamp c cx cy g) x y
  = if bool_decide ((x - cx, y - cy) ∈ g) && inCanvas c x y
    then blueInk else pixelAt c x y.
Proof.
  unfold pixelAt. rewrite painted_stamp.
  change (inCanvas (stamp c cx cy g) x y) with (inCanvas c x y).
  change (base (stamp c cx cy g)) with (base c).
  destruct (inCanvas c x y); [|by rewrite andb_false_r].
  rewrite andb_true_r. by destruct (bool_decide _).
Qed.

(** Ink stays: stamping never turns a red byte back to 255, and the pixels
    a glyph covers do not read 255 afterwards, on the canvas or off it. *)
Lemma stamp_keeps_ink c cx cy g x y :
  red (pixelAt c x y) ≠ 255 -> red (pixelAt (stamp c cx cy g) x y) ≠ 255.
Proof. rewrite pixelAt_stamp. by destruct (_ && _). Qed.

Lemma stamp_inks c cx cy g d :
  d ∈ g -> red (pixelAt (stamp c cx cy g) (cx + d.1) (cy + d.2)) ≠ 255.
Proof.
  intros Hd. rewrite pixelAt_stamp.
  replace (cx + d.1 - cx, cy + d.2 - cy) with d by (destruct d; cbn; f_equal; lia).
  rewrite bool_decide_eq_true_2 by done. cbn [andb].
  unfold pixelAt. by destruct (inCanvas c _ _).
Qed.

(** *** Facts about [processItem] *)

Section LayoutFacts.

Variable measure : string -> num -> option num -> extents.
Variable glyph : string -> num -> option num -> list (Z * Z).
Variable spiralPoints : Z -> Z -> num -> list IPoint.
Variable P : properties.

Abbreviation search' := (search measure P).
Abbreviation findSite' := (findSite measure P).
Abbreviation processItem' := (processItem measure glyph P).
Abbreviation timerFires' := (timerFires measure glyph P).
Abbreviation validate' := (validate measure glyph spiralPoints P).

(** The loop ends within the fuel [findSite] gives it: every turn that goes
    on moves [p] five candidates forward. *)
Lemma search_not_stuck fuel c l points p :
  (0 < fuel)%nat ->
  (0 <= p -> Z.of_nat (length points) - p < Z.of_nat fuel) ->
  search' fuel c l points p ≠ OutOfFuel.
Proof.
  revert points p. induction fuel as [|fuel IH]; intros points p Hpos Hfuel; [lia|].
  cbn [search]. destruct (Z.gtb_spec p (Z.of_nat (length points) - 1)); [done|].
  destruct (Z.ltb_spec p 0); [done|].
  destruct (points !! Z.to_nat p) as [pt|]; [|done].
  destruct (imageRect measure P l (px pt) (py pt)) as [[[sx sy] sw] sh].
  destruct (getImageData c sx sy sw sh) as [pixel|]; [|done].
  destruct (intersectsAt pixel (accuracy P)); [|done].
  pose proof (pruneOnHit_length l (extentsOf measure l) (Z.to_nat p) points).
  apply IH; lia.
Qed.

Lemma findSite_not_stuck s l r : findSite' s l r ≠ OutOfFuel.
Proof.
  unfold findSite. destruct (Math_round _); try done.
  apply search_not_stuck; lia.
Qed.

(** [processItem] always comes to an end. *)
Lemma processItem_not_stuck s i r1 r2 : (processItem' s i r1 r2).2 ≠ Stuck.
Proof.
  unfold processItem. destruct (dataItems s !! i) as [d|]; [|done].
  pose proof (findSite_not_stuck s
    (restyle (label d)
       (fontSizeFor P (_adjustedFont s) (dataValue d))
       (angleFor P (fontSizeFor P (_adjustedFont s) (dataValue d)) r1)) r2) as Hns.
  destruct (findSite _ _ _ _ _) as [pts x y|pts|pts e|]; try done.
  cbn. by destruct (_ <? _).
Qed.

(** The search ends in [Exhausted] only with the candidate index, moved on
    in steps of five, past the last index of what is left of [_points]. *)
Lemma search_exhausted fuel c l points p pts :
  search' fuel c l points p = Exhausted pts ->
  exists k : nat,
    p + 5 * Z.of_nat k > Z.of_nat (length pts) - 1 /\
    (length pts <= length points)%nat.
Proof.
  revert points p. induction fuel as [|fuel IH]; intros points p; [done|].
  cbn [search]. destruct (Z.gtb_spec p (Z.of_nat (length points) - 1)).
  - intros [= <-]. exists 0%nat. lia.
  - destruct (if p <? 0 then None else points !! Z.to_nat p) as [pt|]; [|done].
    destruct (imageRect measure P l (px pt) (py pt)) as [[[sx sy] sw] sh].
    destruct (getImageData c sx sy sw sh) as [pixel|]; [|done].
    destruct (intersectsAt pixel (accuracy P)); [|done].
    intros (k & Hk & Hlen)%IH.
    pose proof (pruneOnHit_length l (extentsOf measure l) (Z.to_nat p) points).
    exists (S k). lia.
Qed.

(** An accepted site is a candidate whose sampled bytes were all 255. *)
Lemma search_accepted fuel c l points p points' x y :
  search' fuel c l points p = Accepted points' x y ->
  exists sx sy sw sh pixel,
    imageRect measure P l x y = (sx, sy, sw, sh) /\
    getImageData c sx sy sw sh = Some pixel /\
    intersectsAt pixel (accuracy P) = false.
Proof.
  revert points p. induction fuel as [|fuel IH]; intros points p; [done|].
  cbn [search]. destruct (_ >? _); [done|].
  destruct (if p <? 0 then None else points !! Z.to_nat p) as [pt|]; [|done].
  destruct (imageRect measure P l (px pt) (py pt)) as [[[sx sy] sw] sh] eqn:Hr.
  destruct (getImageData c sx sy sw sh) as [pixel|] eqn:Hg; [|done].
  destruct (intersectsAt pixel (accuracy P)) eqn:Hi; [apply IH|].
  intros [= <- <- <-]. by exists sx, sy, sw, sh, pixel.
Qed.

(** [processItem] rewrites the label of the one data item it is given: the
    values, and so the ranking, stay. *)
Lemma processItem_values s i r1 r2 :
  dataValue <$> dataItems (processItem' s i r1 r2).1 = dataValue <$> dataItems s.
Proof.
  unfold processItem. destruct (dataItems s !! i) as [d|] eqn:Hd; [|done].
  assert (Hid : forall l, dataValue <$> <[i:=MkDataItem (dataValue d) l]> (dataItems s)
                          = dataValue <$> dataItems s).
  { intros l. rewrite list_fmap_insert. apply list_insert_id.
    by rewrite list_lookup_fmap, Hd. }
  destruct (findSite _ _ _ _ _) as [pts x y|pts|pts e|]; cbn; try done.
  destruct (_ <? _); cbn; done.
Qed.

Lemma validate_values s r1 r2 :
  dataValue <$> dataItems (validate' s r1 r2).1
  = dataValue <$> Array_sort compareItems (dataItems s).
Proof.
  unfold validate.
  set (s1 := disposeTimeout _).
  assert (Hs1 : dataItems s1 = Array_sort compareItems (dataItems s)).
  { unfold s1, disposeTimeout. cbn. by destruct (_processTimeout s). }
  destruct ((innerWidth P >? 0) && (innerHeight P >? 0)); [|cbn [fst]; by rewrite Hs1].
  match goal with |- context [processItem' ?s0 ?i ?a ?b] =>
    pose proof (processItem_values s0 i a b) as Hv;
    destruct (processItem' s0 i a b) as [s2 o] end.
  cbn in *. by rewrite Hv, Hs1.
Qed.


(** The label [processItem] leaves in the data item: its size is
    [fontSizeFor], its angle [angleFor]. *)
Lemma processItem_label s i r1 r2 d :
  dataItems s !! i = Some d ->
  exists l,
    dataItems (processItem' s i r1 r2).1 !! i = Some (MkDataItem (dataValue d) l) /\
    fontSize l = fontSizeFor P (_adjustedFont s) (dataValue d) /\
    rotation l = angleFor P (fontSize l) r1 /\
    currentText l = currentText (label d).
Proof.
  intros Hd. pose proof (processItem_not_stuck s i r1 r2) as Hns.
  pose proof (lookup_lt_Some _ _ _ Hd) as Hlt.
  unfold processItem in *. rewrite Hd in *.
  destruct (findSite _ _ _ _ _) as [pts x y|pts|pts e|]; [| | |done].
  - eexists. split; [destruct (_ <? _); cbn; by rewrite list_lookup_insert_eq|done].
  - eexists. split; [cbn; by rewrite list_lookup_insert_eq|done].
  - eexists. split; [cbn; by rewrite list_lookup_insert_eq|done].
Qed.

(** Equality of numbers up to the representation of rationals. *)
Definition num_eq (a b : num) : Prop :=
  match a, b with
  | Fin p, Fin q => (p == q)%Q
  | PInf, PInf | NInf, NInf | NaN, NaN => True
  | _, _ => False
  end.

(** On finite values with a non-zero [high], the font size is the formula
    of the source over the rationals. *)
Lemma fontSizeFor_finite (mn mx lo hi a x : Q) :
  resolvedMin P = Fin mn -> resolvedMax P = Fin mx ->
  valueLow P = Fin lo -> valueHigh P = Fin hi -> ~ (hi == 0)%Q ->
  num_eq (fontSizeFor P (Fin a) (Fin x))
         (Fin (mn + (mx - mn) * ((x - lo) / hi) * a)).
Proof.
  intros Hmn Hmx Hlo Hhi Hnz. unfold fontSizeFor, percentOf.
  rewrite Hmn, Hmx, Hlo, Hhi. cbn.
  destruct (Qeq_bool hi 0) eqn:Hz; [by apply Qeq_bool_iff in Hz|].
  cbn. unfold Qminus. reflexivity.
Qed.

(** The word with the lowest value gets the minimum size, whatever the
    adjustment factor. *)
Lemma fontSize_of_lowest_value (mn mx lo hi a : Q) :
  resolvedMin P = Fin mn -> resolvedMax P = Fin mx ->
  valueLow P = Fin lo -> valueHigh P = Fin hi -> ~ (hi == 0)%Q ->
  num_eq (fontSizeFor P (Fin a) (valueLow P)) (resolvedMin P).
Proof.
  intros Hmn Hmx Hlo Hhi Hnz.
  pose proof (fontSizeFor_finite mn mx lo hi a lo Hmn Hmx Hlo Hhi Hnz) as Hf.
  rewrite Hlo, Hmn. destruct (fontSizeFor P (Fin a) (Fin lo)); try done.
  cbn in *. rewrite Hf. field. done.
Qed.

(** The word with the highest value gets the maximum size (scaled) only up
    to the factor [(high - low) / high]. *)
Lemma fontSize_of_highest_value (mn mx lo hi a : Q) :
  resolvedMin P = Fin mn -> resolvedMax P = Fin mx ->
  valueLow P = Fin lo -> valueHigh P = Fin hi -> ~ (hi == 0)%Q ->
  num_eq (fontSizeFor P (Fin a) (valueHigh P))
         (Fin (mn + (mx - mn) * ((hi - lo) / hi) * a)).
Proof.
  intros Hmn Hmx Hlo Hhi Hnz. rewrite Hhi. by apply fontSizeFor_finite.
Qed.

(** [Math.round(Math.random() * (angles.length - 1))] is an index of
    [angles]. *)
Lemma random_angle_in_angles (r : Q) :
  (0 <= r)%Q -> (r < 1)%Q -> angles P ≠ [] ->
  exists a,
    arrayGet (angles P)
      (Math_round (Fin r * (num_of_nat (length (angles P)) - Fin 1)))%num = Some a /\
    a ∈ angles P.
Proof.
  intros Hr0 Hr1 Hne. cbn [num_mul num_of_nat num_of_Z num_sub num_add num_opp Math_round arrayGet].
  set (n := Z.of_nat (length (angles P))).
  assert (Hn : 1 <= n) by (subst n; destruct (angles P); [done|cbn [length]; lia]).
  set (m := (inject_Z n + Qopp 1)%Q).
  assert (Hm : (0 <= m)%Q /\ (m == inject_Z n - 1)%Q).
  { unfold m. split; [|unfold Qminus; reflexivity].
    change (Qopp 1) with (inject_Z (-1)). rewrite <- inject_Z_plus.
    change 0%Q with (inject_Z 0). rewrite <- Zle_Qle. lia. }
  destruct Hm as [Hm0 Hm1].
  assert (Hrm : (0 <= r * m)%Q /\ (r * m <= m)%Q).
  { split; [by apply Qmult_le_0_compat|].
    rewrite <- (Qmult_1_l m) at 2. apply Qmult_le_compat_r; [by apply Qlt_le_weak|done]. }
  destruct Hrm as [Hrm0 Hrm1].
  set (q := (r * m + (1 # 2))%Q).
  assert (Hq0 : (0 <= q)%Q) by (unfold q; generalize dependent (r * m)%Q; intros; lra).
  assert (Hq1 : (q < inject_Z n)%Q)
    by (unfold q; generalize dependent (r * m)%Q; intros; lra).
  assert (Hf0 : 0 <= Qfloor q).
  { pose proof (Qfloor_resp_le _ _ Hq0) as Hf. by change (Qfloor 0) with 0 in Hf. }
  assert (Hf1 : Qfloor q < n).
  { rewrite Zlt_Qlt. pose proof (Qfloor_le q). lra. }
  rewrite Qfloor_Z. rewrite Qeq_bool_refl. cbn [andb].
  destruct (Z.leb_spec 0 (Qfloor q)) as [_|]; [|lia].
  destruct (angles P !! Z.to_nat (Qfloor q)) as [a|] eqn:Ha.
  - exists a. split; [done|]. by eapply list_elem_of_lookup_2.
  - apply lookup_ge_None in Ha. lia.
Qed.

(** C6. The relative font size [(fontSize - min) / (max - min)] decides the
    rotation: at or above [rotationThreshold] the label [processItem]
    leaves has angle 0; strictly below it has the entry of [angles] at the
    random index; an angle other than 0 is only ever found strictly below
    the threshold. *)
Theorem rotation_only_below_threshold s i r1 r2 d :
  dataItems s !! i = Some d ->
  exists d',
    dataItems (processItem' s i r1 r2).1 !! i = Some d' /\
    let l := label d' in
    let rel := relativeSize P (fontSize l) in
    ((rotationThreshold P <=? rel)%num = true -> rotation l = Some (Fin 0)) /\
    ((rel <? rotationThreshold P)%num = true ->
       rotation l = arrayGet (angles P)
         (Math_round (r1 * (num_of_nat (length (angles P)) - Fin 1)))%num) /\
    (rotation l ≠ Some (Fin 0) -> (rel <? rotationThreshold P)%num = true).
Proof.
  intros Hd. destruct (processItem_label s i r1 r2 d Hd) as (l & Hl & Hsize & Hrot & _).
  exists (MkDataItem (dataValue d) l). split; [done|]. cbn [label].
  rewrite Hrot. unfold angleFor. split; [|split].
  - intros Hge%num_leb_ltb_false. by rewrite Hge.
  - by intros ->.
  - by destruct (_ <? _)%num.
Qed.

(** C4. One turn of the search at a candidate [p] of [_points].  The flag
    [intersects] is set if and only if some byte of the image data at the
    indices [0, 2^accuracy, 2 * 2^accuracy, ...] differs from 255; then the
    site is rejected and the search goes on from [p + 5].  When all of them
    are 255 the search stops and accepts the site. *)
Theorem candidate_rejected_iff_sample_hit fuel c l points p pt sx sy sw sh pixel :
  0 <= p <= Z.of_nat (length points) - 1 ->
  points !! Z.to_nat p = Some pt ->
  imageRect measure P l (px pt) (py pt) = (sx, sy, sw, sh) ->
  getImageData c sx sy sw sh = Some pixel ->
  let hit := exists k v, pixel !! (k * 2 ^ accuracy P)%nat = Some v /\ v ≠ 255 in
  let turn := search' (S fuel) c l points p in
  (intersectsAt pixel (accuracy P) = true <-> hit) /\
  (hit -> turn = search' fuel c l
                   (pruneOnHit l (extentsOf measure l) (Z.to_nat p) points) (p + 5)) /\
  (~ hit -> turn = Accepted points (px pt) (py pt)).
Proof.
  intros [Hp0 Hp1] Hpt Hr Hg hit turn. subst hit turn. cbn [search].
  destruct (Z.gtb_spec p (Z.of_nat (length points) - 1)); [lia|].
  destruct (Z.ltb_spec p 0); [lia|].
  rewrite Hpt, Hr, Hg, <- intersectsAt_spec.
  split; [done|]. by destruct (intersectsAt pixel (accuracy P)).
Qed.

Lemma processItem_currentIndex s i r1 r2 :
  _currentIndex (processItem' s i r1 r2).1 = _currentIndex s.
Proof.
  unfold processItem. destruct (dataItems s !! i) as [d|]; [|done].
  destruct (findSite _ _ _ _ _) as [pts x y|pts|pts e|]; cbn; try done.
  by destruct (_ <? _).
Qed.

Lemma validate_currentIndex s r1 r2 : _currentIndex (validate' s r1 r2).1 = 0%nat.
Proof.
  unfold validate.
  set (s1 := disposeTimeout _).
  assert (Hs1 : _currentIndex s1 = 0%nat).
  { unfold s1, disposeTimeout. cbn. by destruct (_processTimeout s). }
  destruct ((innerWidth P >? 0) && (innerHeight P >? 0)); [|done].
  match goal with |- context [processItem' ?s0 ?i ?a ?b] =>
    pose proof (processItem_currentIndex s0 i a b) as Hv;
    destruct (processItem' s0 i a b) as [s2 o] end.
  cbn in *. by rewrite Hv.
Qed.

Lemma validate_clears_invalid s r1 r2 :
  (validate' s r1 r2).2 = None -> invalid (validate' s r1 r2).1 = false.
Proof.
  unfold validate.
  destruct ((innerWidth P >? 0) && (innerHeight P >? 0)).
  - by destruct (processItem' _ _ _ _).
  - intros _. cbn. unfold disposeTimeout. cbn. by destruct (_processTimeout s).
Qed.

(** With a label box that is not empty and a start index that is a
    non-negative number, nothing is thrown: [processItem] ends by placing
    the word or by the restart. *)
Definition boxNotEmpty (l : Label) : Prop :=
  forall x y, (imageRect measure P l x y).1.2 ≠ 0 /\ (imageRect measure P l x y).2 ≠ 0.

Lemma search_no_throw fuel c l points p :
  0 <= p -> boxNotEmpty l ->
  forall pts e, search' fuel c l points p ≠ Thrown pts e.
Proof.
  intros Hp Hbox. revert points p Hp.
  induction fuel as [|fuel IH]; intros points p Hp pts e; [done|].
  cbn [search]. destruct (Z.gtb_spec p (Z.of_nat (length points) - 1)); [done|].
  destruct (Z.ltb_spec p 0); [lia|].
  destruct (points !! Z.to_nat p) as [pt|] eqn:Hpt;
    [|apply lookup_ge_None in Hpt; lia].
  specialize (Hbox (px pt) (py pt)).
  destruct (imageRect measure P l (px pt) (py pt)) as [[[sx sy] sw] sh].
  cbn in Hbox. destruct Hbox as [Hw Hh].
  unfold getImageData.
  destruct (Z.eqb_spec sw 0); [done|]. destruct (Z.eqb_spec sh 0); [done|].
  cbn [orb]. destruct (intersectsAt _ _); [|done]. apply IH. lia.
Qed.

Lemma processItem_places_or_restarts s i (r rho : Q) r1 d :
  dataItems s !! i = Some d ->
  randomness P = Fin rho -> (0 <= rho)%Q -> (0 <= r)%Q ->
  (forall l, boxNotEmpty l) ->
  (exists l, (processItem' s i r1 (Fin r)).2 = Placed l) \/
  (processItem' s i r1 (Fin r)).2 = Restart.
Proof.
  intros Hd Hrho Hrho0 Hr0 Hbox. unfold processItem. rewrite Hd.
  set (l := restyle _ _ _).
  assert (Hf : forall pts e, findSite' s l (Fin r) ≠ Thrown pts e).
  { intros pts e. unfold findSite. rewrite Hrho.
    cbn [num_mul num_of_nat num_of_Z Math_round]. rewrite Qfloor_Z.
    apply search_no_throw; [|done].
    assert (0 <= r * inject_Z (Z.of_nat (length (_points s))) * rho)%Q as Hq.
    { apply Qmult_le_0_compat; [|done]. apply Qmult_le_0_compat; [done|].
      change 0%Q with (inject_Z 0). rewrite <- Zle_Qle. lia. }
    assert (0 <= r * inject_Z (Z.of_nat (length (_points s))) * rho + (1 # 2))%Q as Hq'
      by (generalize dependent (r * inject_Z (Z.of_nat (length (_points s))) * rho)%Q;
          intros; lra).
    pose proof (Qfloor_resp_le _ _ Hq') as Hfl. by change (Qfloor 0) with 0 in Hfl. }
  pose proof (findSite_not_stuck s l (Fin r)) as Hns.
  destruct (findSite' s l (Fin r)) as [pts x y|pts|pts e|]; [| |by destruct (Hf pts e)|done].
  - left. destruct (_ <? _); by eexists.
  - by right.
Qed.


(** *** Timers: one placement chain at a time *)

(** What can happen to a series: the framework validates it, or a pending
    timer fires. *)
Inductive advances : series -> series -> Prop :=
| advances_validate s r1 r2 : advances s (validate' s r1 r2).1
| advances_timer s t r1 r2 : t ∈ pending s -> advances s (timerFires' s t r1 r2).1.

(** Every pending timer is the one [_processTimeout] holds, and ids are
    fresh. *)
Definition timersOk (s : series) : Prop :=
  forall t, t ∈ pending s -> _processTimeout s = Some t /\ (t < nextTimer s)%nat.

(** Does this call of [processItem] schedule a follow-up? *)
Definition schedules (s : series) (o : outcome) : bool :=
  match o with
  | Placed _ => Z.of_nat (_currentIndex s) <? Z.of_nat (length (dataItems s)) - 1
  | _ => false
  end.

Lemma processItem_pending s i r1 r2 s' o :
  processItem' s i r1 r2 = (s', o) ->
  if schedules s o
  then pending s' = {[nextTimer s]} ∪ pending s /\
       _processTimeout s' = Some (nextTimer s) /\ nextTimer s' = S (nextTimer s)
  else pending s' = pending s /\
       _processTimeout s' = _processTimeout s /\ nextTimer s' = nextTimer s.
Proof.
  unfold processItem. destruct (dataItems s !! i) as [d|]; [|by intros [= <- <-]].
  destruct (findSite _ _ _ _ _) as [pts x y|pts|pts e|]; try by intros [= <- <-].
  cbn [_currentIndex dataItems]. rewrite length_insert.
  destruct (_ <? _) eqn:Hlt; intros [= <- <-]; cbn [schedules]; by rewrite Hlt.
Qed.

Lemma processItem_timersOk s i r1 r2 :
  pending s = ∅ -> timersOk (processItem' s i r1 r2).1.
Proof.
  intros Hempty. destruct (processItem' s i r1 r2) as [s' o] eqn:Hp.
  apply processItem_pending in Hp. cbn [fst]. intros t Ht.
  destruct (schedules s o).
  - destruct Hp as (Hpen & Hto & Hnext). rewrite Hpen, Hempty in Ht.
    apply elem_of_union in Ht as [->%elem_of_singleton|Ht]; [|by apply elem_of_empty in Ht].
    rewrite Hto, Hnext. split; [done|lia].
  - destruct Hp as (Hpen & _). rewrite Hpen, Hempty in Ht. set_solver.
Qed.

Lemma disposeTimeout_pending s : timersOk s -> pending (disposeTimeout s) = ∅.
Proof.
  intros Hok. unfold disposeTimeout. destruct (_processTimeout s) as [t0|] eqn:Ht0.
  - cbn. apply set_eq. intros t. split; [|set_solver].
    intros [Hin Hne]%elem_of_difference. destruct (Hok t Hin) as [Heq _].
    assert (t = t0) by congruence. set_solver.
  - apply set_eq. intros t. split; [|set_solver].
    intros Hin. destruct (Hok t Hin) as [Heq _]. congruence.
Qed.

Lemma advances_timersOk s s' : timersOk s -> advances s s' -> timersOk s'.
Proof.
  intros Hok Hstep. inversion Hstep as [s0 r1 r2|s0 t r1 r2 Ht]; subst.
  - unfold validate.
    match goal with |- context [disposeTimeout ?x] =>
      assert (Hd : pending (disposeTimeout x) = ∅)
        by (apply disposeTimeout_pending; intros t Ht; apply (Hok t Ht));
      generalize dependent (disposeTimeout x); intros s1 Hd end.
    destruct ((innerWidth P >? 0) && (innerHeight P >? 0)).
    + match goal with |- context [processItem' ?s2 ?i ?a ?b] =>
        pose proof (processItem_timersOk s2 i a b Hd) as Hv;
        destruct (processItem' s2 i a b) as [s3 o] end.
      done.
    + cbn [fst]. intros t. rewrite Hd. set_solver.
  - unfold timerFires. apply processItem_timersOk. cbn.
    apply set_eq. intros t'. split; [|set_solver].
    intros [Hin Hne]%elem_of_difference.
    destruct (Hok t Ht) as [Ht1 _]. destruct (Hok t' Hin) as [Ht2 _].
    assert (t' = t) by congruence. set_solver.
Qed.

Lemma reachable_timersOk s0 s : timersOk s0 -> rtc advances s0 s -> timersOk s.
Proof. intros Hok Hr. induction Hr as [|? ? ? Hs _ IH]; [done|]. eapply IH, advances_timersOk; done. Qed.

Lemma timersOk_at_most_one s : timersOk s -> (size (pending s) <= 1)%nat.
Proof.
  intros Hok. destruct (_processTimeout s) as [t0|] eqn:Ht0.
  - assert (pending s ⊆ {[t0]}) as Hsub.
    { intros t Ht. destruct (Hok t Ht) as [Heq _]. set_solver. }
    apply subseteq_size in Hsub. by rewrite size_singleton in Hsub.
  - assert (pending s = ∅) as ->; [|by rewrite size_empty; lia].
    apply set_eq. intros t. split; [|set_solver].
    intros Ht. destruct (Hok t Ht) as [Heq _]. congruence.
Qed.

(** One call of [processItem] changes the label of the data item it is
    given and nothing else in [dataItems]. *)
Lemma processItem_one_item s i r1 r2 j :
  j ≠ i -> dataItems (processItem' s i r1 r2).1 !! j = dataItems s !! j.
Proof.
  intros Hne. unfold processItem. destruct (dataItems s !! i) as [d|]; [|done].
  destruct (findSite _ _ _ _ _) as [pts x y|pts|pts e|]; cbn; try done;
    try (destruct (_ <? _); cbn); by rewrite list_lookup_insert_ne.
Qed.

(** ... and stamps the glyph of the word it places, or nothing. *)
Lemma processItem_canvas s i r1 r2 s' o :
  processItem' s i r1 r2 = (s', o) ->
  _ctx s' = match o with
            | Placed l => stamp (_ctx s) (labelX l + halfW P) (labelY l + halfH P)
                            (glyphOf glyph l)
            | _ => _ctx s
            end.
Proof.
  unfold processItem. destruct (dataItems s !! i) as [d|]; [|by intros [= <- <-]].
  destruct (findSite _ _ _ _ _) as [pts x y|pts|pts e|]; try by intros [= <- <-].
  destruct (_ <? _); by intros [= <- <-].
Qed.

(** Validation disposes the pending timer: afterwards only a timer started
    by this validation can be pending. *)
Lemma validate_disposes s r1 r2 t :
  timersOk s -> t ∈ pending (validate' s r1 r2).1 -> t = nextTimer s.
Proof.
  intros Hok. unfold validate.
  match goal with |- context [disposeTimeout ?x] =>
    assert (Hd : pending (disposeTimeout x) = ∅)
      by (apply disposeTimeout_pending; intros t' Ht'; apply (Hok t' Ht'));
    assert (Hn : nextTimer (disposeTimeout x) = nextTimer s)
      by (unfold disposeTimeout; cbn; by destruct (_processTimeout s));
    generalize dependent (disposeTimeout x); intros s1 Hd Hn end.
  destruct ((innerWidth P >? 0) && (innerHeight P >? 0)).
  - match goal with |- context [processItem' ?s2 ?i ?a ?b] =>
      destruct (processItem' s2 i a b) as [s3 o] eqn:Hp end.
    apply processItem_pending in Hp. cbn [fst] in *.
    destruct (schedules _ o); destruct Hp as (-> & _); cbn [pending nextTimer];
      rewrite Hd.
    + intros [->%elem_of_singleton|Hin%elem_of_empty]%elem_of_union; done.
    + by intros Hin%elem_of_empty.
  - cbn [fst]. rewrite Hd. by intros Hin%elem_of_empty.
Qed.

(** The claim as the specification words it: a follow-up is scheduled if
    and only if [_currentIndex < dataItems.length - 1]. *)
Definition followUpIffMoreWords : Prop :=
  forall s i r1 r2,
    (pending (processItem' s i r1 r2).1 = {[nextTimer s]} ∪ pending s /\
     nextTimer s ∉ pending s) <->
    Z.of_nat (_currentIndex s) < Z.of_nat (length (dataItems s)) - 1.


(** *** A layout pass and what it keeps true of the raster *)

(** The canvas pixels the glyph of a placed label covers. *)
Definition inkOf (l : Label) : list (Z * Z) :=
  (fun d => (labelX l + halfW P + d.1, labelY l + halfH P + d.2)) <$> glyphOf glyph l.

(** The canvas pixels sampled in the box of a placed label. *)
Definition sampledBy (l : Label) (q : Z * Z) : Prop :=
  let '(sx, sy, sw, sh) := imageRect measure P l (labelX l) (labelY l) in
  sampledPixel (accuracy P) sx sy sw sh q.

Definition placedBy (o : outcome) : list Label :=
  match o with
  | Placed l => [l]
  | _ => []
  end.

(** A pass: a validation, then the timer callbacks that follow it.  The
    second component lists the labels placed so far, in order. *)
Inductive pass : series -> list Label -> Prop :=
| pass_validate s r1 r2 :
    pass (validate' s r1 r2).1 (from_option placedBy [] (validate' s r1 r2).2)
| pass_timer s log t r1 r2 :
    pass s log -> t ∈ pending s ->
    pass (timerFires' s t r1 r2).1 (log ++ placedBy (timerFires' s t r1 r2).2).

(** The ink of a placed label is on the raster: none of its pixels reads
    255 in the red channel. *)
Definition inked (c : canvas) (l : Label) : Prop :=
  forall q, q ∈ inkOf l -> red (pixelAt c q.1 q.2) ≠ 255.

(** The samples of a label placed later avoid the ink of the labels placed
    before it. *)
Definition laterAvoidsEarlier (log : list Label) : Prop :=
  forall i j A B, (i < j)%nat -> log !! i = Some A -> log !! j = Some B ->
    forall q, sampledBy B q -> q ∉ inkOf A.

(** The claim as the specification words it: for any two placed words, in
    either order. *)
Definition neverOverlap (log : list Label) : Prop :=
  forall i j A B, i ≠ j -> log !! i = Some A -> log !! j = Some B ->
    forall q, sampledBy A q -> q ∉ inkOf B.

(** What [processItem] has checked and done when it places a word. *)
Lemma processItem_placed s i r1 r2 s' l :
  processItem' s i r1 r2 = (s', Placed l) ->
  (forall q, sampledBy l q -> red (pixelAt (_ctx s) q.1 q.2) = 255) /\
  _ctx s' = stamp (_ctx s) (labelX l + halfW P) (labelY l + halfH P) (glyphOf glyph l).
Proof.
  intros Hp. split; [|by rewrite (processItem_canvas _ _ _ _ _ _ Hp)].
  revert Hp. unfold processItem. destruct (dataItems s !! i) as [d|]; [|done].
  destruct (findSite _ _ _ _ _) as [pts x y|pts|pts e|] eqn:Hf; try done.
  assert (Hl : forall l0, moveTo l0 x y = l ->
            findSite' s l0 r2 = Accepted pts x y ->
            forall q, sampledBy l q -> red (pixelAt (_ctx s) q.1 q.2) = 255).
  { intros l0 <- Hacc q. unfold findSite in Hacc.
    destruct (Math_round _); try done.
    apply search_accepted in Hacc as (sx & sy & sw & sh & pixel & Hr & Hg & Hclear).
    unfold sampledBy. cbn [labelX labelY moveTo].
    change (imageRect measure P (moveTo l0 x y) x y) with (imageRect measure P l0 x y).
    rewrite Hr. intros Hq. by eapply accepted_samples_clear. }
  destruct (_ <? _); intros [= _ Hpl]; by eapply Hl.
Qed.

Lemma inked_stamp c cx cy g l : inked c l -> inked (stamp c cx cy g) l.
Proof. intros Hl q Hq. by apply stamp_keeps_ink, Hl. Qed.

Lemma inked_own c l :
  inked (stamp c (labelX l + halfW P) (labelY l + halfH P) (glyphOf glyph l)) l.
Proof.
  intros q [d [-> Hd]]%list_elem_of_fmap. cbn [fst snd]. by apply stamp_inks.
Qed.

(** One placement step keeps the raster facts. *)
Lemma processItem_keeps s i r1 r2 s' o log :
  processItem' s i r1 r2 = (s', o) ->
  Forall (inked (_ctx s)) log -> laterAvoidsEarlier log ->
  Forall (inked (_ctx s')) (log ++ placedBy o) /\ laterAvoidsEarlier (log ++ placedBy o).
Proof.
  intros Hp Hink Hlater.
  destruct o as [l| | |]; cbn [placedBy]; rewrite ?app_nil_r;
    try (rewrite (processItem_canvas _ _ _ _ _ _ Hp); done).
  destruct (processItem_placed _ _ _ _ _ _ Hp) as [Hclear ->]. split.
  - apply Forall_app. split.
    + eapply Forall_impl; [done|]. intros A. apply inked_stamp.
    + apply Forall_singleton, inked_own.
  - intros a b A B Hab HA HB q Hq Hin.
    destruct (decide (b < length log)%nat) as [Hb|Hb].
    + rewrite lookup_app_l in HA, HB by lia. by eapply (Hlater a b).
    + rewrite lookup_app_r in HB by lia.
      destruct (b - length log)%nat as [|n] eqn:Hn; [|by destruct n].
      injection HB as <-.
      rewrite lookup_app_l in HA by lia.
      apply (Forall_lookup_1 _ _ _ _ Hink HA) in Hin.
      by apply Hin, Hclear.
Qed.

(** C2 (as the code has it).  At every point of a layout pass the ink of
    every placed word is on the raster, and for any two placed words the
    pixels sampled in the box of the one placed later, at stride
    [2^accuracy], are not covered by the glyph of the one placed earlier:
    the later word was accepted only with all its samples reading 255,
    after the earlier glyph had been stamped. *)
Theorem later_samples_avoid_earlier_ink s log :
  pass s log ->
  Forall (inked (_ctx s)) log /\ laterAvoidsEarlier log.
Proof.
  induction 1 as [s r1 r2|s log t r1 r2 Hpass [Hink Hlater] Ht].
  - unfold validate.
    match goal with |- context [disposeTimeout ?x] =>
      generalize (disposeTimeout x); intros s1 end.
    destruct ((innerWidth P >? 0) && (innerHeight P >? 0)).
    + match goal with |- context [processItem' ?s2 ?i ?a ?b] =>
        pose proof (processItem_keeps s2 i a b) as Hk;
        destruct (processItem' s2 i a b) as [s3 o] end.
      cbn [fst snd from_option].
      apply (Hk s3 o [] eq_refl); [constructor|].
      by intros i j A B _ ?.
    + cbn [fst snd from_option]. split; [constructor|]. by intros i j A B _ ?.
  - unfold timerFires.
    match goal with |- context [processItem' ?s2 ?i ?a ?b] =>
      pose proof (processItem_keeps s2 i a b) as Hk;
      destruct (processItem' s2 i a b) as [s3 o] end.
    cbn [fst snd]. by apply (Hk s3 o log eq_refl).
Qed.

(** *** Candidates: where a word can land *)

Lemma pruneOnHit_sublist l e p (points : list IPoint) :
  pruneOnHit l e p points `sublist_of` points.
Proof.
  unfold pruneOnHit. destruct (3 <? _)%nat; [|done].
  destruct (angleIs _ _ && _), (absAngleIs _ _ && _); try done;
    repeat (etrans; [apply splice1_sublist|]); done.
Qed.

(** What is left of [_points] after the search was among the candidates
    before it, in the same order; an accepted site is one of them. *)
Lemma search_candidates fuel c l points p :
  match search' fuel c l points p with
  | Accepted pts x y => pts `sublist_of` points /\ Point x y ∈ points
  | Exhausted pts | Thrown pts _ => pts `sublist_of` points
  | OutOfFuel => True
  end.
Proof.
  revert points p. induction fuel as [|fuel IH]; intros points p; [done|].
  cbn [search]. destruct (_ >? _); [done|].
  destruct (if p <? 0 then None else points !! Z.to_nat p) as [pt|] eqn:Hpt; [|done].
  destruct (imageRect measure P l (px pt) (py pt)) as [[[sx sy] sw] sh].
  destruct (getImageData c sx sy sw sh) as [pixel|]; [|done].
  destruct (intersectsAt pixel (accuracy P)).
  - specialize (IH (pruneOnHit l (extentsOf measure l) (Z.to_nat p) points) (p + 5)).
    pose proof (pruneOnHit_sublist l (extentsOf measure l) (Z.to_nat p) points) as Hsub.
    destruct (search' fuel c l _ (p + 5)) as [pts x y|pts|pts e|]; [|by etrans..|done].
    destruct IH as [Hpts Hin]. split; [by etrans|]. by eapply elem_of_sublist.
  - split; [done|]. destruct (p <? 0); [done|].
    apply list_elem_of_lookup_2 in Hpt. by destruct pt.
Qed.

Lemma findSite_candidates s l r :
  match findSite' s l r with
  | Accepted pts x y => pts `sublist_of` _points s /\ Point x y ∈ _points s
  | Exhausted pts | Thrown pts _ => pts `sublist_of` _points s
  | OutOfFuel => True
  end.
Proof.
  unfold findSite. destruct (Math_round _); try done. apply search_candidates.
Qed.

(** [processItem] never adds a candidate, and a word it places sits on one
    of the candidates it found in [_points]. *)
Lemma processItem_candidates s i r1 r2 :
  _points (processItem' s i r1 r2).1 `sublist_of` _points s /\
  (forall l, (processItem' s i r1 r2).2 = Placed l ->
     Point (labelX l) (labelY l) ∈ _points s).
Proof.
  unfold processItem. destruct (dataItems s !! i) as [d|]; [|done].
  match goal with |- context [findSite' s ?l r2] =>
    pose proof (findSite_candidates s l r2) as Hc;
    destruct (findSite' s l r2) as [pts x y|pts|pts e|] end; cbn [fst snd _points];
    try done.
  destruct Hc as [Hsub Hin]. destruct (_ <? _); cbn [fst snd _points setTimeout];
    (split; [done|]); by intros l0 [= <-].
Qed.

Definition labelInBounds (l : Label) : Prop :=
  - halfW P <= labelX l <= halfW P /\ - halfH P <= labelY l <= halfH P.

Lemma inBounds_spec pt :
  inBounds P pt = true <->
  - halfW P <= px pt <= halfW P /\ - halfH P <= py pt <= halfH P.
Proof.
  unfold inBounds. rewrite negb_true_iff, !orb_false_iff.
  rewrite !Z.ltb_ge, !Z.gtb_ltb, !Z.ltb_ge. lia.
Qed.

Lemma processItem_in_bounds s i r1 r2 :
  Forall (fun pt => inBounds P pt = true) (_points s) ->
  Forall (fun pt => inBounds P pt = true) (_points (processItem' s i r1 r2).1) /\
  Forall labelInBounds (placedBy (processItem' s i r1 r2).2).
Proof.
  intros Hall. destruct (processItem_candidates s i r1 r2) as [Hsub Hplaced]. split.
  - rewrite Forall_forall in *. intros pt Hpt. apply Hall. by eapply elem_of_sublist.
  - destruct (processItem' s i r1 r2).2 as [l| | |]; cbn [placedBy]; try constructor;
      [|constructor].
    rewrite Forall_forall in Hall. specialize (Hall _ (Hplaced l eq_refl)).
    by apply inBounds_spec in Hall.
Qed.


(** *** The timer callback and its data item *)

Lemma processItem_length s i r1 r2 :
  length (dataItems (processItem' s i r1 r2).1) = length (dataItems s).
Proof.
  unfold processItem. destruct (dataItems s !! i) as [d|]; [|done].
  destruct (findSite _ _ _ _ _) as [pts x y|pts|pts e|]; cbn; try done;
    try (destruct (_ <? _); cbn); by rewrite !length_insert.
Qed.

(** While a timer is pending, there is a data item after the current one. *)
Definition timerHasItem (s : series) : Prop :=
  pending s ≠ ∅ -> (S (_currentIndex s) < length (dataItems s))%nat.

Lemma processItem_timerHasItem s i r1 r2 :
  pending s = ∅ -> timerHasItem (processItem' s i r1 r2).1.
Proof.
  intros Hempty Hpen.
  rewrite processItem_length, processItem_currentIndex.
  destruct (processItem' s i r1 r2) as [s' o] eqn:Hp.
  pose proof (processItem_pending _ _ _ _ _ _ Hp) as Hsch. cbn [fst] in Hpen.
  unfold schedules in Hsch. destruct o as [l| | |];
    try (destruct Hsch as (Hq & _); rewrite Hq, Hempty in Hpen; done).
  destruct (Z.ltb_spec (Z.of_nat (_currentIndex s)) (Z.of_nat (length (dataItems s)) - 1));
    [lia|]. destruct Hsch as (Hq & _). rewrite Hq, Hempty in Hpen. done.
Qed.

Lemma advances_timerHasItem s s' : timersOk s -> advances s s' -> timerHasItem s'.
Proof.
  intros Hok Hstep. inversion Hstep as [s0 r1 r2|s0 t r1 r2 Ht]; subst.
  - unfold validate.
    match goal with |- context [disposeTimeout ?x] =>
      assert (Hd : pending (disposeTimeout x) = ∅)
        by (apply disposeTimeout_pending; intros t Ht; apply (Hok t Ht));
      generalize dependent (disposeTimeout x); intros s1 Hd end.
    destruct ((innerWidth P >? 0) && (innerHeight P >? 0)).
    + match goal with |- context [processItem' ?s2 ?i ?a ?b] =>
        pose proof (processItem_timerHasItem s2 i a b Hd) as Hv;
        destruct (processItem' s2 i a b) as [s3 o] end.
      done.
    + cbn [fst]. intros Hne. by rewrite Hd in Hne.
  - unfold timerFires. apply processItem_timerHasItem. cbn.
    apply set_eq. intros t'. split; [|set_solver].
    intros [Hin Hne]%elem_of_difference.
    destruct (Hok t Ht) as [Ht1 _]. destruct (Hok t' Hin) as [Ht2 _].
    assert (t' = t) by congruence. set_solver.
Qed.

(** X22. The callback always finds its data item: in any state the series
    reaches from one without pending timers, while a timer is pending
    [_currentIndex + 1] is an index of [dataItems], so the
    [dataItems.getIndex(_currentIndex)] of the callback is never
    [undefined]; and the callback leaves the number of data items as it
    is. *)
Theorem timer_finds_its_item s0 s t r1 r2 :
  pending s0 = ∅ -> rtc advances s0 s -> t ∈ pending s ->
  is_Some (dataItems s !! S (_currentIndex s)) /\
  length (dataItems (timerFires' s t r1 r2).1) = length (dataItems s).
Proof.
  intros Hempty Hreach Ht. split.
  - apply lookup_lt_is_Some.
    assert (Hok0 : timersOk s0) by (intros t'; rewrite Hempty; set_solver).
    assert (Hitem : timerHasItem s).
    { apply rtc_inv_r in Hreach as [<-|(s' & Hr & Hlast)].
      - intros Hne. by rewrite Hempty in Hne.
      - eapply advances_timerHasItem; [|done]. by eapply reachable_timersOk. }
    apply Hitem. intros Hnone. rewrite Hnone in Ht. set_solver.
  - unfold timerFires. by rewrite processItem_length.
Qed.

(** *** Words are kept *)

Definition wordOf (d : DataItem) : num * string := (dataValue d, currentText (label d)).

Lemma processItem_words s i r1 r2 :
  wordOf <$> dataItems (processItem' s i r1 r2).1 = wordOf <$> dataItems s.
Proof.
  unfold processItem. destruct (dataItems s !! i) as [d|] eqn:Hd; [|done].
  assert (Hid : forall l, currentText l = currentText (label d) ->
                  wordOf <$> <[i:=MkDataItem (dataValue d) l]> (dataItems s)
                  = wordOf <$> dataItems s).
  { intros l Hl. rewrite list_fmap_insert. apply list_insert_id.
    rewrite list_lookup_fmap, Hd. cbn. unfold wordOf. cbn. by rewrite Hl. }
  destruct (findSite _ _ _ _ _) as [pts x y|pts|pts e|]; cbn [fst dataItems];
    try done; try (destruct (_ <? _)); cbn [fst dataItems setTimeout]; by apply Hid.
Qed.

(** X23. Layout keeps the words: [validate] reorders the data items but
    neither drops nor duplicates one, nor changes a value or a text; a timer
    callback leaves them in place. *)
Theorem layout_keeps_the_words s t r1 r2 :
  wordOf <$> dataItems (validate' s r1 r2).1 ≡ₚ wordOf <$> dataItems s /\
  wordOf <$> dataItems (timerFires' s t r1 r2).1 = wordOf <$> dataItems s.
Proof.
  split.
  - unfold validate.
    set (s1 := disposeTimeout _).
    assert (Hs1 : dataItems s1 = Array_sort compareItems (dataItems s)).
    { unfold s1, disposeTimeout. cbn. by destruct (_processTimeout s). }
    assert (Hperm : wordOf <$> dataItems s1 ≡ₚ wordOf <$> dataItems s).
    { rewrite Hs1. by rewrite <- Array_sort_Permutation. }
    destruct ((innerWidth P >? 0) && (innerHeight P >? 0)); [|done].
    match goal with |- context [processItem' ?s0 ?i ?a ?b] =>
      pose proof (processItem_words s0 i a b) as Hv;
      destruct (processItem' s0 i a b) as [s2 o] end.
    cbn in *. by rewrite Hv.
  - unfold timerFires. by rewrite processItem_words.
Qed.

(** *** No area, no candidates *)

(** X24. A series without area is not laid out: [validate] sorts the data
    items and goes back to the first, and that is all.  Nothing is drawn, no
    candidate is computed, no word is placed; the timer of a layout under
    way is disposed and none is started. *)
Theorem validate_without_area s r1 r2 :
  innerWidth P <= 0 \/ innerHeight P <= 0 -> timersOk s ->
  let v := validate' s r1 r2 in
  v.2 = None /\ pending v.1 = ∅ /\
  _ctx v.1 = _ctx s /\ _points v.1 = _points s /\ _adjustedFont v.1 = _adjustedFont s /\
  dataItems v.1 = Array_sort compareItems (dataItems s) /\
  _currentIndex v.1 = 0%nat /\ invalid v.1 = false.
Proof.
  intros Harea Hok v. subst v. unfold validate.
  match goal with |- context [disposeTimeout ?x] =>
    assert (Hd : pending (disposeTimeout x) = ∅)
      by (apply disposeTimeout_pending; intros t' Ht'; apply (Hok t' Ht'));
    set (s1 := disposeTimeout x) in * end.
  assert (Hguard : (innerWidth P >? 0) && (innerHeight P >? 0) = false).
  { destruct (Z.gtb_spec (innerWidth P) 0), (Z.gtb_spec (innerHeight P) 0); try done; lia. }
  rewrite Hguard. cbn [fst snd]. split; [done|]. split; [done|].
  unfold s1, disposeTimeout. cbn. by destruct (_processTimeout s).
Qed.

(** X25. Without candidates no word is placed: when [_points] is empty the
    search is over before it starts, whatever the word and the random
    numbers, and [processItem] shrinks [_adjustedFont] by 0.1, invalidates
    and returns; nothing is drawn and no callback is scheduled. *)
Theorem no_candidates_restart s i (r rho : Q) r1 d :
  dataItems s !! i = Some d -> _points s = [] -> randomness P = Fin rho ->
  let res := processItem' s i r1 (Fin r) in
  res.2 = Restart /\
  _adjustedFont res.1 = (_adjustedFont s - Fin (1 # 10))%num /\
  invalid res.1 = true /\ _ctx res.1 = _ctx s /\ pending res.1 = pending s /\
  _points res.1 = [].
Proof.
  intros Hd Hpts Hrho res. subst res. unfold processItem. rewrite Hd.
  set (l := restyle _ _ _).
  assert (Hf : findSite' s l (Fin r) = Exhausted []).
  { unfold findSite. rewrite Hpts, Hrho.
    cbn [length num_mul num_of_nat num_of_Z Math_round]. rewrite Qfloor_Z.
    assert (Hq : Qfloor (r * inject_Z (Z.of_nat 0) * rho + (1 # 2)) = 0).
    { assert (Heq : (r * inject_Z (Z.of_nat 0) * rho + (1 # 2) == 1 # 2)%Q)
        by (cbn [Z.of_nat]; change (inject_Z 0) with 0%Q; ring).
      by rewrite Heq. }
    rewrite Hq. done. }
  rewrite Hf. done.
Qed.

(** *** The order in which candidates are tried *)

(** Does the label, centred on a candidate, meet ink at the sampled bytes?
    [None] when [getImageData] throws. *)
Definition hitAt (c : canvas) (l : Label) (pt : IPoint) : option bool :=
  let '(sx, sy, sw, sh) := imageRect measure P l (px pt) (py pt) in
  (fun pixel => intersectsAt pixel (accuracy P)) <$> getImageData c sx sy sw sh.

Lemma pruneOnHit_short l e p (points : list IPoint) :
  (String.length (currentText l) <= 3)%nat -> pruneOnHit l e p points = points.
Proof.
  intros Hlen. unfold pruneOnHit.
  destruct (Nat.ltb_spec 3 (String.length (currentText l))); [lia|done].
Qed.

(** X26. First fit, five candidates at a time.  For a word of at most three
    characters (no candidate is then taken out of [_points]) the search
    from candidate [p] accepts the first of the candidates [p], [p + 5],
    [p + 10], ... at which the sampled bytes are clear: all the ones before
    it in that sequence were tried and met ink, the candidates in between
    are never looked at, and [_points] is left as it was. *)
Theorem search_takes_first_clear_site fuel c l points p pts x y :
  (String.length (currentText l) <= 3)%nat ->
  search' fuel c l points p = Accepted pts x y ->
  pts = points /\ 0 <= p /\
  exists k : nat,
    points !! Z.to_nat (p + 5 * Z.of_nat k) = Some (Point x y) /\
    hitAt c l (Point x y) = Some false /\
    forall j : nat, (j < k)%nat ->
      exists pt, points !! Z.to_nat (p + 5 * Z.of_nat j) = Some pt /\
                 hitAt c l pt = Some true.
Proof.
  intros Hshort. revert p. induction fuel as [|fuel IH]; intros p; [done|].
  cbn [search]. destruct (_ >? _); [done|].
  destruct (Z.ltb_spec p 0) as [|Hp]; [done|].
  destruct (points !! Z.to_nat p) as [pt|] eqn:Hpt; [|done].
  destruct (imageRect measure P l (px pt) (py pt)) as [[[sx sy] sw] sh] eqn:Hr.
  destruct (getImageData c sx sy sw sh) as [pixel|] eqn:Hg; [|done].
  assert (Hhit : hitAt c l pt = Some (intersectsAt pixel (accuracy P))).
  { unfold hitAt. by rewrite Hr, Hg. }
  destruct (intersectsAt pixel (accuracy P)) eqn:Hi.
  - rewrite pruneOnHit_short by done.
    intros (-> & Hp5 & k & Hk & Hclear & Hbefore)%IH.
    split; [done|]. split; [done|]. exists (S k). split; [|split; [done|]].
    + rewrite <- Hk. do 2 f_equal. lia.
    + intros [|j] Hj.
      * exists pt. rewrite Z.mul_0_r, Z.add_0_r. done.
      * destruct (Hbefore j ltac:(lia)) as (pt' & Hpt' & Hhit').
        exists pt'. split; [|done]. rewrite <- Hpt'. do 2 f_equal. lia.
  - intros [= <- <- <-]. split; [done|]. split; [done|]. exists 0%nat.
    rewrite Z.mul_0_r, Z.add_0_r. destruct pt as [x0 y0]. cbn [px py] in *.
    split; [done|]. split; [done|]. intros j Hj. lia.
Qed.

(** *** Font sizes follow the values *)

Lemma fontSizeFor_value (mn mx lo hi a x : Q) :
  resolvedMin P = Fin mn -> resolvedMax P = Fin mx ->
  valueLow P = Fin lo -> valueHigh P = Fin hi -> ~ (hi == 0)%Q ->
  exists q, fontSizeFor P (Fin a) (Fin x) = Fin q /\
            (q == mn + (mx - mn) * ((x - lo) * / hi) * a)%Q.
Proof.
  intros Hmn Hmx Hlo Hhi Hnz.
  pose proof (fontSizeFor_finite mn mx lo hi a x Hmn Hmx Hlo Hhi Hnz) as Hf.
  destruct (fontSizeFor P (Fin a) (Fin x)) as [q| | |]; try done.
  exists q. split; [done|]. cbn in Hf. rewrite Hf. reflexivity.
Qed.


(** *** Which angle the random number picks *)

Lemma Qfloor_half_unique (q : Q) (k : Z) :
  (inject_Z k - (1 # 2) <= q)%Q -> (q < inject_Z k + (1 # 2))%Q ->
  Qfloor (q + (1 # 2)) = k.
Proof.
  intros Hlo Hhi.
  assert (H1 : (inject_Z k <= q + (1 # 2))%Q) by lra.
  assert (H2 : (q + (1 # 2) < inject_Z (k + 1))%Q) by (rewrite inject_Z_plus; change (inject_Z 1) with 1%Q; lra).
  apply Qfloor_resp_le in H1. rewrite Qfloor_Z in H1.
  pose proof (Qfloor_le (q + (1 # 2))) as H3.
  assert (H4 : (inject_Z (Qfloor (q + (1 # 2))) < inject_Z (k + 1))%Q)
    by (generalize dependent (inject_Z (k + 1)); intros; lra).
  rewrite <- Zlt_Qlt in H4. lia.
Qed.

(** X28. Below the rotation threshold the angle is
    [angles[Math.round(Math.random() * (angles.length - 1))]]: entry [k] is
    taken when the random number times [length - 1] lies within a half of
    [k].  The first and the last entry so get half the share of the others:
    of the default [0, 0, 90] the 90 is taken for random numbers from 0.75
    on. *)
Theorem angle_picked_by_rounding (size : num) (r : Q) (k : nat) :
  (relativeSize P size <? rotationThreshold P)%num = true ->
  let span := (inject_Z (Z.of_nat (length (angles P))) - 1)%Q in
  (inject_Z (Z.of_nat k) - (1 # 2) <= r * span)%Q ->
  (r * span < inject_Z (Z.of_nat k) + (1 # 2))%Q ->
  angleFor P size (Fin r) = angles P !! k.
Proof.
  intros Hbelow span Hlo Hhi. unfold angleFor. rewrite Hbelow.
  cbn [num_mul num_of_nat num_of_Z num_sub num_add num_opp Math_round arrayGet].
  assert (Hspan : (r * (inject_Z (Z.of_nat (length (angles P))) + Qopp 1) == r * span)%Q)
    by (unfold span; ring).
  assert (Hk : Qfloor (r * (inject_Z (Z.of_nat (length (angles P))) + Qopp 1) + (1 # 2))
               = Z.of_nat k).
  { rewrite Hspan. by apply Qfloor_half_unique. }
  rewrite Qfloor_Z, Hk, Qeq_bool_refl. cbn [andb].
  destruct (Z.leb_spec 0 (Z.of_nat k)); [|lia]. by rewrite Nat2Z.id.
Qed.

(** *** The font scale *)

Lemma processItem_adjustedFont s i r1 r2 :
  _adjustedFont (processItem' s i r1 r2).1 = _adjustedFont s \/
  _adjustedFont (processItem' s i r1 r2).1 = (_adjustedFont s - Fin (1 # 10))%num.
Proof.
  unfold processItem. destruct (dataItems s !! i) as [d|]; [|by left].
  destruct (findSite _ _ _ _ _) as [pts x y|pts|pts e|]; cbn; try (by left); [|by right].
  destruct (_ <? _); by left.
Qed.

Lemma advances_adjustedFont s s' :
  advances s s' ->
  _adjustedFont s' = _adjustedFont s \/
  _adjustedFont s' = (_adjustedFont s - Fin (1 # 10))%num.
Proof.
  intros Hstep. inversion Hstep as [s0 r1 r2|s0 t r1 r2 Ht]; subst.
  - unfold validate.
    set (s1 := disposeTimeout _).
    assert (Hs1 : _adjustedFont s1 = _adjustedFont s).
    { unfold s1, disposeTimeout. cbn. by destruct (_processTimeout s). }
    destruct ((innerWidth P >? 0) && (innerHeight P >? 0)); [|by left].
    match goal with |- context [processItem' ?s2 ?i ?a ?b] =>
      pose proof (processItem_adjustedFont s2 i a b) as Hv;
      destruct (processItem' s2 i a b) as [s3 o] end.
    cbn in *. by rewrite <- Hs1.
  - unfold timerFires.
    match goal with |- context [processItem' ?s2 ?i ?a ?b] =>
      pose proof (processItem_adjustedFont s2 i a b) as Hv end.
    done.
Qed.


End LayoutFacts.

(** *** Concrete series *)

#[local] Open Scope string_scope.

(** A series with the default settings of the constructor on a 400 by 300
    area, for the text "a b a": "a" counts twice, "b" once. *)
Definition defaults : properties :=
  Properties (Percent (Fin 2)) (Percent (Fin 20)) (Fin (7 # 10))
    [Fin 0; Fin 0; Fin 90] (Fin (2 # 10)) 5 (Fin 15) 400 300 (Fin 1) (Fin 2).

Definition plainLabel (text : string) : Label :=
  MkLabel text (Fin 0) (Some (Fin 0)) 0 0 3 3 2 2.

(** A text layout in which every word is 20 by 10 pixels and inks the
    pixel at its centre. *)
Definition boxMeasure (text : string) (size : num) (angle : option num) : extents :=
  Extents (-10) 10 (-5) 5.
Definition dotGlyph (text : string) (size : num) (angle : option num) : list (Z * Z) :=
  [(0, 0)].
Definition threePoints (w h : Z) (step : num) : list IPoint :=
  [Point 0 0; Point 15 0; Point 0 15].

Definition freshSeries (items : list DataItem) : series :=
  Series items [] (Fin 1) 0 None (whiteCanvas 0 0) true ∅ 0.

Definition twoWords : series :=
  freshSeries [MkDataItem (Fin 1) (plainLabel "b"); MkDataItem (Fin 2) (plainLabel "a")].

Example twoWords_counts :
  getWords (WordSettings [] None 1 None) "a b a" = Some [Entry "a" 2; Entry "b" 1].
Proof. vm_compute. reflexivity. Qed.

(** Twelve candidates on a canvas that is all ink: "hello" (more than
    three characters, 20 pixels wide, flat) is hit at candidates 0 and 5,
    takes both out of [_points], and runs past the end at 10. *)
Example prune_and_exhaust :
  let points := (fun i => Point (Z.of_nat i) 0) <$> seq 0 12 in
  let s := Series [MkDataItem (Fin 2) (plainLabel "hello")] points (Fin 1) 0 None
             (Canvas 400 300 blueInk ∅) false ∅ 0 in
  let r := processItem boxMeasure dotGlyph defaults s 0 (Fin 0) (Fin 0) in
  r.2 = Restart /\
  px <$> _points r.1 = [1; 2; 3; 4; 5; 7; 8; 9; 10; 11] /\
  (_adjustedFont r.1 ==? Fin (9 # 10))%num = true /\
  invalid r.1 = true.
Proof. vm_compute. done. Qed.

(** C1 (the slip).  [percent] divides by [high] where the interpolation
    needs [high - low]: with values 1 and 2 and the default sizes (2% and
    20% of 300, that is 6 and 60), the most frequent word is laid out at 33,
    not at 60.  The least frequent one gets 6. *)
Theorem highest_value_below_max_size :
  let first := validate boxMeasure dotGlyph threePoints defaults twoWords (Fin 0) (Fin 0) in
  let second := timerFires boxMeasure dotGlyph defaults first.1 0 (Fin 0) (Fin 0) in
  (resolvedMin defaults ==? Fin 6)%num = true /\
  (resolvedMax defaults ==? Fin 60)%num = true /\
  (exists l, first.2 = Some (Placed l) /\ currentText l = "a" /\
             (fontSize l ==? Fin 33)%num = true /\
             (fontSize l ==? resolvedMax defaults)%num = false) /\
  (exists l, second.2 = Placed l /\ currentText l = "b" /\
             (fontSize l ==? resolvedMin defaults)%num = true).
Proof.
  cbv zeta. split; [by vm_compute|]. split; [by vm_compute|]. split.
  - eexists. split; [vm_compute; reflexivity|]. by vm_compute.
  - eexists. split; [vm_compute; reflexivity|]. by vm_compute.
Qed.


Lemma rotation_only_below_threshold_witness :
  dataItems twoWords !! 1%nat = Some (MkDataItem (Fin 2) (plainLabel "a")) /\
  exists d',
    dataItems (processItem boxMeasure dotGlyph defaults twoWords 1 (Fin (9 # 10)) (Fin 0)).1
      !! 1%nat = Some d' /\
    ((relativeSize defaults (fontSize (label d')) <? rotationThreshold defaults)%num = true ->
     rotation (label d') = Some (Fin 90)).
Proof.
  split; [reflexivity|].
  destruct (rotation_only_below_threshold boxMeasure dotGlyph defaults twoWords 1
              (Fin (9 # 10)) (Fin 0) _ eq_refl) as (d' & Hd' & _ & Hbelow & _).
  exists d'. split; [exact Hd'|]. intros Hlt. rewrite (Hbelow Hlt). reflexivity.
Defined.

Lemma candidate_rejected_iff_sample_hit_witness :
  let c := stamp (whiteCanvas 400 300) 200 150 [(-13, -7)] in
  let l := plainLabel "a" in
  let pixel := default [] (getImageData c 187 143 26 14) in
  (0 <= 0 <= Z.of_nat (length (threePoints 400 300 (Fin 15))) - 1) /\
  threePoints 400 300 (Fin 15) !! Z.to_nat 0 = Some (Point 0 0) /\
  imageRect boxMeasure defaults l 0 0 = (187, 143, 26, 14) /\
  getImageData c 187 143 26 14 = Some pixel /\
  (intersectsAt pixel (accuracy defaults) = true <->
   exists k v, pixel !! (k * 2 ^ accuracy defaults)%nat = Some v /\ v ≠ 255).
Proof.
  cbv zeta.
  assert (H1 : 0 <= 0 <= Z.of_nat (length (threePoints 400 300 (Fin 15))) - 1)
    by (cbn; lia).
  assert (H4 : getImageData (stamp (whiteCanvas 400 300) 200 150 [(-13, -7)]) 187 143 26 14
               = Some (default [] (getImageData
                   (stamp (whiteCanvas 400 300) 200 150 [(-13, -7)]) 187 143 26 14)))
    by (vm_compute; reflexivity).
  split; [exact H1|]. split; [reflexivity|]. split; [reflexivity|]. split; [exact H4|].
  exact (proj1 (candidate_rejected_iff_sample_hit boxMeasure defaults 3
                  (stamp (whiteCanvas 400 300) 200 150 [(-13, -7)]) (plainLabel "a")
                  (threePoints 400 300 (Fin 15)) 0 (Point 0 0) 187 143 26 14 _
                  H1 eq_refl eq_refl H4)).
Defined.




(** A 4 by 2 canvas sampled at every second pixel ([accuracy = 3]), one
    candidate site, and two words whose box is two pixels wide: "A" inks
    its right pixel, "B" its left one, and only the left one is sampled. *)
Definition tiny : properties :=
  Properties (Number (Fin 10)) (Number (Fin 50)) (Fin (7 # 10))
    [Fin 0; Fin 0; Fin 90] (Fin 0) 3 (Fin 15) 4 2 (Fin 1) (Fin 2).

Definition tinyMeasure (text : string) (size : num) (angle : option num) : extents :=
  Extents (-1) 1 0 1.
Definition tinyGlyph (text : string) (size : num) (angle : option num) : list (Z * Z) :=
  if bool_decide (text = "A") then [(0, 0)] else [(-1, 0)].
Definition onePoint (w h : Z) (step : num) : list IPoint := [Point 0 0].

Definition bareLabel (text : string) : Label :=
  MkLabel text (Fin 0) (Some (Fin 0)) 0 0 0 0 0 0.

Definition wordsAB : series :=
  freshSeries [MkDataItem (Fin 1) (bareLabel "B"); MkDataItem (Fin 2) (bareLabel "A")].

Definition afterA : series * option outcome :=
  validate tinyMeasure tinyGlyph onePoint tiny wordsAB (Fin 0) (Fin 0).
Definition afterB : series * outcome :=
  timerFires tinyMeasure tinyGlyph tiny afterA.1 0 (Fin 0) (Fin 0).

Definition placedA : Label := MkLabel "A" (Fin (60 # 2)) (Some (Fin 0)) 0 0 0 0 0 0.
Definition placedB : Label := MkLabel "B" (Fin (20 # 2)) (Some (Fin 0)) 0 0 0 0 0 0.

Lemma passAB :
  pass tinyMeasure tinyGlyph onePoint tiny afterB.1 [placedA; placedB].
Proof.
  change [placedA; placedB]
    with (from_option placedBy [] afterA.2 ++ placedBy afterB.2)%list.
  unfold afterB. apply pass_timer; [apply pass_validate|].
  apply (bool_decide_unpack _). by vm_compute.
Qed.

(** C2 as stated fails: "B" is accepted on a clear sample and then inks the
    very pixel that was sampled for "A". *)
Lemma earlier_sample_inked_later :
  ~ (forall s log, pass tinyMeasure tinyGlyph onePoint tiny s log ->
                   neverOverlap tinyMeasure tinyGlyph tiny log).
Proof.
  intros H. specialize (H _ _ passAB).
  apply (H 0%nat 1%nat placedA placedB ltac:(done) eq_refl eq_refl (1, 1)).
  - exists 0%nat. split; [by vm_compute|reflexivity].
  - apply (bool_decide_unpack _). by vm_compute.
Qed.

Lemma later_samples_avoid_earlier_ink_witness :
  pass tinyMeasure tinyGlyph onePoint tiny afterB.1 [placedA; placedB] /\
  laterAvoidsEarlier tinyMeasure tinyGlyph tiny [placedA; placedB].
Proof.
  split; [exact passAB|].
  exact (proj2 (later_samples_avoid_earlier_ink tinyMeasure tinyGlyph onePoint tiny
                  _ _ passAB)).
Defined.

(** *** More of the model at work *)

(** "the" is excluded, "dog" occurs once only: "cat" is what is left. *)
Definition catsAndDogs : string := "the cat the Cat dog".
Definition strict : wordSettings := WordSettings ["the"] (Some 2%nat) 3 None.

Example catsAndDogs_words : getWords strict catsAndDogs = Some [Entry "cat" 2].
Proof. vm_compute. reflexivity. Qed.

Lemma getWords_entries_pass_settings_witness :
  (forall m, minValue strict = Some m -> (m <= value (Entry "cat" 2))%nat) /\
  (minWordLength strict <= String.length (word (Entry "cat" 2)))%nat /\
  word (Entry "cat" 2) ∉ excludeWords strict.
Proof.
  assert (Hin : Entry "cat" 2 ∈ [Entry "cat" 2]) by apply list_elem_of_here.
  exact (getWords_entries_pass_settings strict catsAndDogs _ _ catsAndDogs_words Hin).
Defined.

Lemma getWords_values_are_counts_witness :
  value (Entry "cat" 2) = occurrences (word (Entry "cat" 2)) (matchWords catsAndDogs) /\
  (1 <= value (Entry "cat" 2))%nat /\
  word (Entry "cat" 2) ∈ matchWords catsAndDogs.
Proof.
  assert (Hin : Entry "cat" 2 ∈ [Entry "cat" 2]) by apply list_elem_of_here.
  exact (getWords_values_are_counts strict catsAndDogs _ _ catsAndDogs_words Hin).
Defined.

Lemma getWords_distinct_and_capped_witness :
  let p := WordSettings [] None 1 (Some 1%nat) in
  NoDup (keys [Entry "a" 2]) /\
  (forall m, maxCount p = Some m -> (length [Entry "a" 2] <= m)%nat).
Proof.
  assert (Hget : getWords (WordSettings [] None 1 (Some 1%nat)) "a b A" = Some [Entry "a" 2])
    by (vm_compute; reflexivity).
  exact (getWords_distinct_and_capped _ _ _ Hget).
Defined.

Lemma getWords_counts_every_match_witness :
  let p := WordSettings [] None 1 None in
  [Entry "a" 2; Entry "b" 1] ≡ₚ countWords (matchWords "a b a") /\
  sum_list (value <$> [Entry "a" 2; Entry "b" 1]) = length (matchWords "a b a") /\
  (forall t, t ∈ matchWords "a b a" -> toLowerCase t ∈ keys [Entry "a" 2; Entry "b" 1]).
Proof.
  assert (Hv : forall m, minValue (WordSettings [] None 1 None) = Some m -> (m <= 1)%nat)
    by (intros m [=]).
  assert (Hl : (minWordLength (WordSettings [] None 1 None) <= 1)%nat) by (cbn; lia).
  exact (getWords_counts_every_match (WordSettings [] None 1 None) "a b a" _
           Hv Hl eq_refl eq_refl twoWords_counts).
Defined.

(** "Paris" is returned capitalized: it is so both times. *)
Lemma getWords_capitalized_only_if_all_witness :
  getWords (WordSettings [] None 1 None) "Paris is Paris"
  = Some [Entry "Paris" 2; Entry "is" 1] /\
  isCapitalized "Paris" = true.
Proof.
  assert (Hget : getWords (WordSettings [] None 1 None) "Paris is Paris"
                 = Some [Entry "Paris" 2; Entry "is" 1]) by (vm_compute; reflexivity).
  split; [exact Hget|].
  assert (Hin : Entry "Paris" 2 ∈ [Entry "Paris" 2; Entry "is" 1]) by apply list_elem_of_here.
  assert (Ht : "Paris" ∈ matchWords "Paris is Paris")
    by (apply (bool_decide_unpack _); by vm_compute).
  exact (getWords_capitalized_only_if_all _ _ _ (Entry "Paris" 2) "Paris"
           Hget Hin eq_refl Ht eq_refl).
Defined.


Lemma timer_finds_its_item_witness :
  let s := (validate boxMeasure dotGlyph threePoints defaults twoWords (Fin 0) (Fin 0)).1 in
  is_Some (dataItems s !! S (_currentIndex s)) /\
  length (dataItems (timerFires boxMeasure dotGlyph defaults s 0 (Fin 0) (Fin 0)).1)
  = length (dataItems s).
Proof.
  assert (Hreach : rtc (advances boxMeasure dotGlyph threePoints defaults) twoWords
            (validate boxMeasure dotGlyph threePoints defaults twoWords (Fin 0) (Fin 0)).1)
    by (apply rtc_once; constructor).
  assert (Ht : 0%nat ∈ pending
            (validate boxMeasure dotGlyph threePoints defaults twoWords (Fin 0) (Fin 0)).1)
    by (apply (bool_decide_unpack _); by vm_compute).
  exact (timer_finds_its_item boxMeasure dotGlyph threePoints defaults twoWords _ 0%nat
           (Fin 0) (Fin 0) eq_refl Hreach Ht).
Defined.

(** The default settings on a series that is 300 high and has no width. *)
Definition noWidth : properties :=
  Properties (Percent (Fin 2)) (Percent (Fin 20)) (Fin (7 # 10))
    [Fin 0; Fin 0; Fin 90] (Fin (2 # 10)) 5 (Fin 15) 0 300 (Fin 1) (Fin 2).

Lemma validate_without_area_witness :
  let v := validate boxMeasure dotGlyph threePoints noWidth twoWords (Fin 0) (Fin 0) in
  v.2 = None /\ pending v.1 = ∅ /\
  _ctx v.1 = _ctx twoWords /\ _points v.1 = _points twoWords /\
  _adjustedFont v.1 = _adjustedFont twoWords /\
  dataItems v.1 = Array_sort compareItems (dataItems twoWords) /\
  _currentIndex v.1 = 0%nat /\ invalid v.1 = false.
Proof.
  assert (Harea : innerWidth noWidth <= 0 \/ innerHeight noWidth <= 0) by (left; cbn; lia).
  assert (Hok : timersOk twoWords) by (intros t Ht; by apply elem_of_empty in Ht).
  exact (validate_without_area boxMeasure dotGlyph threePoints noWidth twoWords
           (Fin 0) (Fin 0) Harea Hok).
Defined.

Lemma no_candidates_restart_witness :
  let res := processItem boxMeasure dotGlyph defaults twoWords 0 (Fin 0) (Fin (1 # 2)) in
  res.2 = Restart /\
  _adjustedFont res.1 = (_adjustedFont twoWords - Fin (1 # 10))%num /\
  invalid res.1 = true /\ _ctx res.1 = _ctx twoWords /\ pending res.1 = pending twoWords /\
  _points res.1 = [].
Proof.
  exact (no_candidates_restart boxMeasure dotGlyph defaults twoWords 0 (1 # 2) (2 # 10)
           (Fin 0) _ eq_refl eq_refl eq_refl).
Defined.

(** Six candidates and ink under the first one: "a" is tried at candidate 0,
    meets the ink, and goes to candidate 5; candidates 1 to 4 are passed
    over. *)
Definition sixPoints : list IPoint :=
  [Point 0 0; Point 1 0; Point 2 0; Point 3 0; Point 4 0; Point 100 100].

Lemma search_takes_first_clear_site_witness :
  let c := stamp (whiteCanvas 400 300) 200 150 [(-13, -7)] in
  let l := plainLabel "a" in
  sixPoints = sixPoints /\ 0 <= 0 /\
  exists k : nat,
    sixPoints !! Z.to_nat (0 + 5 * Z.of_nat k) = Some (Point 100 100) /\
    hitAt boxMeasure defaults c l (Point 100 100) = Some false /\
    forall j : nat, (j < k)%nat ->
      exists pt, sixPoints !! Z.to_nat (0 + 5 * Z.of_nat j) = Some pt /\
                 hitAt boxMeasure defaults c l pt = Some true.
Proof.
  assert (Hlen : (String.length (currentText (plainLabel "a")) <= 3)%nat) by (cbn; lia).
  assert (Hs : search boxMeasure defaults 7 (stamp (whiteCanvas 400 300) 200 150 [(-13, -7)])
                 (plainLabel "a") sixPoints 0 = Accepted sixPoints 100 100)
    by (vm_compute; reflexivity).
  exact (search_takes_first_clear_site boxMeasure defaults 7 _ _ _ 0 _ _ _ Hlen Hs).
Defined.


(** With the default angles a random number of 0.75 picks the 90. *)
Lemma angle_picked_by_rounding_witness :
  angleFor defaults (Fin 6) (Fin (3 # 4)) = Some (Fin 90).
Proof.
  assert (Hlo : (inject_Z (Z.of_nat 2) - (1 # 2)
                 <= (3 # 4) * (inject_Z (Z.of_nat (length (angles defaults))) - 1))%Q)
    by (by vm_compute).
  assert (Hhi : ((3 # 4) * (inject_Z (Z.of_nat (length (angles defaults))) - 1)
                 < inject_Z (Z.of_nat 2) + (1 # 2))%Q)
    by (by vm_compute).
  exact (angle_picked_by_rounding defaults (Fin 6) (3 # 4) 2 eq_refl Hlo Hhi).
Defined.


End WordCloudSeries.
